(** * MiniQL: the query resolution engine of [src/index.ts]

    The engine walks a query document, looks resolvers up in a registry,
    calls them, clones what they return and attaches nested relations to
    the clones.  Query, registry, context, entities and the output are all
    ordinary JavaScript objects, so the embedding is a small store model:

    - values are primitives or references into a heap of objects;
    - an object is a record (a plain object: its own properties, in the
      order in which JavaScript enumerates them, and [Object.prototype]
      for a prototype), an array, or a function (a resolver, known by an
      identifier and run by a table of native functions that the
      development is parametric in);
    - a string is a sequence of UTF-16 code units below 256, one
      character each; a number is an integer;
    - the engine is written in a state-and-exception monad over the heap
      and a chronological trace of the effects it performs.

    Of the prototypes the model knows which names they have, not what is
    under them: reading a name that a value inherits from a built-in
    prototype is answered [Unmodelled], as is whatever else the model
    would have to guess (symbols, dates, getters, numbers that are not
    integers).  Objects are extensible and their properties are plain
    data properties.  An assignment to [__proto__] goes to the setter of
    [Object.prototype], which replaces the prototype of its target and
    gives it no property; the model records the assignment and does not
    follow the new prototype, which the engine never reads through: it
    assigns to objects of its own making only, and reads the query, the
    registry and the context.  The setter is taken to succeed: it throws
    only where the new prototype would close a cycle of prototypes. *)

From Stdlib Require Import ZArith Lia Ascii.
From stdpp Require Import base list strings pretty.

(** ** Values and the heap *)

Abbreviation loc := nat (only parsing).
Abbreviation fid := nat (only parsing).

Inductive JVal : Type :=
| VUndef
| VNull
| VBool (b : bool)
| VNum (n : Z)
| VStr (s : string)
| VRef (l : loc).

Inductive Obj : Type :=
| ORecord (props : list (string * JVal))
| OArray (elems : list JVal)
| OFun (f : fid).

Abbreviation Heap := (list Obj).

Global Instance JVal_eq_dec : EqDecision JVal.
Proof. solve_decision. Defined.

Global Instance Obj_eq_dec : EqDecision Obj.
Proof. solve_decision. Defined.

(** A promise that has settled, which is all the engine ever sees of one:
    every promise it meets is awaited. *)
Inductive Settled : Type :=
| Fulfilled (v : JVal)
| Rejected (v : JVal).

(** What a JavaScript [throw] carries: an [Error] or a [TypeError] built by
    the engine or the runtime, or whatever value a resolver rejected with. *)
Inductive Exn : Type :=
| Error (msg : string)
| TypeError (msg : string)
| Thrown (v : JVal).

(** The effects of a run, oldest first. *)
Inductive Event : Type :=
| EvLog (line : string)
| EvAlloc (l : loc)
| EvWrite (l : loc) (key : string) (v : JVal)
| EvInvoke (f : fid) (this : JVal) (args : list JVal) (r : Settled).

Record State : Type := mkState { heap : Heap; trace : list Event }.

(** ** Strings

    A character stands for the UTF-16 code unit of its code, so that the
    length of a string and its characters are what JavaScript says. *)

Definition dquote : string := String "034"%char EmptyString.
Definition nl : string := String "010"%char EmptyString.

(** [`"${s}"`] *)
Definition quoted (s : string) : string := dquote +:+ s +:+ dquote.

(** [" ".repeat(n)] *)
Fixpoint spaces (n : nat) : string :=
  match n with
  | 0 => ""
  | S n' => " " +:+ spaces n'
  end.

Fixpoint chars (s : string) : list string :=
  match s with
  | EmptyString => []
  | String c s' => String c EmptyString :: chars s'
  end.

(** [t.startsWith(s)] *)
Fixpoint startsWith (s t : string) : bool :=
  match s, t with
  | EmptyString, _ => true
  | String a s', String b t' => bool_decide (a = b) && startsWith s' t'
  | String _ _, EmptyString => false
  end.

(** [t.includes(s)] *)
Fixpoint includes (s t : string) : bool :=
  startsWith s t ||
  match t with
  | EmptyString => false
  | String _ t' => includes s t'
  end.

(** [s] occurs in [t] *)
Definition contains (s t : string) : Prop :=
  ∃ pre post, t = pre +:+ s +:+ post.

(** The key of the array index [i]. *)
Definition index_key (i : nat) : string := pretty (N.of_nat i).

Definition indexed {A} (l : list A) : list (string * A) :=
  imap (λ i x, (index_key i, x)) l.

(** ** Primitive operations of the language *)

(** Own properties as an association list, first match wins (keys are
    unique in a record built by assignments). *)
Fixpoint assoc_get (props : list (string * JVal)) (key : string) : option JVal :=
  match props with
  | [] => None
  | (k, v) :: rest => if decide (k = key) then Some v else assoc_get rest key
  end.

(** An existing key keeps its position, a new one is added at the end. *)
Fixpoint assoc_set (props : list (string * JVal)) (key : string) (v : JVal)
  : list (string * JVal) :=
  match props with
  | [] => [(key, v)]
  | (k, w) :: rest =>
      if decide (k = key) then (k, v) :: rest else (k, w) :: assoc_set rest key v
  end.

(** [!v] is [negb (truthy v)]. *)
Definition truthy (v : JVal) : bool :=
  match v with
  | VUndef | VNull => false
  | VBool b => b
  | VNum n => negb (n =? 0)%Z
  | VStr s => negb (bool_decide (s = ""))
  | VRef _ => true
  end.

(** [typeof v] *)
Definition typeof (h : Heap) (v : JVal) : string :=
  match v with
  | VUndef => "undefined"
  | VNull => "object"
  | VBool _ => "boolean"
  | VNum _ => "number"
  | VStr _ => "string"
  | VRef l => match h !! l with Some (OFun _) => "function" | _ => "object" end
  end.

(** [String(v)] for the primitives.  An integer is printed in full below
    [10^21]; from there on JavaScript uses the exponent form, which is not
    modelled. *)
Definition to_string (v : JVal) : option string :=
  match v with
  | VUndef => Some "undefined"
  | VNull => Some "null"
  | VBool true => Some "true"
  | VBool false => Some "false"
  | VNum n =>
      if bool_decide (Z.abs n < 1000000000000000000000)%Z then Some (pretty n)
      else None
  | VStr s => Some s
  | VRef _ => None
  end.

(** The own enumerable string-keyed properties, in order:
    what [Object.keys] lists and [Object.assign] copies. *)
Definition own_props (h : Heap) (v : JVal) : option (list (string * JVal)) :=
  match v with
  | VRef l =>
      match h !! l with
      | Some (ORecord props) => Some props
      | Some (OArray elems) => Some (indexed elems)
      | Some (OFun _) => Some []
      | None => None
      end
  | VStr s => Some (indexed (VStr <$> chars s))
  | _ => Some []
  end.

(** The names that every plain object inherits from [Object.prototype]. *)
Definition inherited_name (key : string) : bool :=
  bool_decide (key ∈ ["constructor"; "hasOwnProperty"; "isPrototypeOf";
                      "propertyIsEnumerable"; "toLocaleString"; "toString";
                      "valueOf"; "__proto__"; "__defineGetter__";
                      "__defineSetter__"; "__lookupGetter__"; "__lookupSetter__"]).

(** The members that the engine reads under a name of its own.  No
    built-in prototype has a property of one of these names. *)
Definition member_name (key : string) : bool :=
  bool_decide (key ∈ ["verbose"; "resolve"; "from"; "args"; "invoke"; "nested"]).

(** What [v[key]] is when [key] is not an own property of [v]:
    [undefined], unless the prototype of [v] has the name.  For a plain
    object that is [Object.prototype]; for the other values (arrays,
    functions, strings, numbers, booleans) only the names above are
    known to be free. *)
Definition inherited (key : string) : option JVal :=
  if inherited_name key then None else Some VUndef.

Definition builtin (key : string) : option JVal :=
  if member_name key then Some VUndef else None.

(** [v[key]] on a value that is neither [null] nor [undefined]: the own
    property if there is one, else what the prototype gives. *)
Definition get_own (h : Heap) (v : JVal) (key : string) : option JVal :=
  match v with
  | VRef l =>
      match h !! l with
      | Some (ORecord props) =>
          match assoc_get props key with
          | Some x => Some x
          | None => inherited key
          end
      | Some (OArray elems) =>
          if decide (key = "length") then Some (VNum (Z.of_nat (length elems)))
          else match assoc_get (indexed elems) key with
               | Some x => Some x
               | None => builtin key
               end
      | Some (OFun _) => builtin key
      | None => None
      end
  | VStr s =>
      if decide (key = "length") then Some (VNum (Z.of_nat (String.length s)))
      else match assoc_get (indexed (VStr <$> chars s)) key with
           | Some x => Some x
           | None => builtin key
           end
  | VBool _ | VNum _ => builtin key
  | VUndef | VNull => Some VUndef
  end.

(** *** Assignment *)

(** A key made of digits only: the array indices are among these. *)
Fixpoint all_digits (k : string) : bool :=
  match k with
  | EmptyString => true
  | String c k' => match Ascii.is_nat c with Some _ => all_digits k' | None => false end
  end.

Definition index_like (k : string) : bool :=
  match k with
  | EmptyString => false
  | _ => all_digits k
  end.

(** An ordinary key: not made of digits, and not [__proto__].  A new
    property with such a key is added after the others. *)
Definition ordinary_key (k : string) : bool :=
  negb (index_like k) && negb (bool_decide (k = "__proto__")).

(** The value of a key made of decimal digits. *)
Fixpoint digits_value (acc : N) (k : string) : option N :=
  match k with
  | EmptyString => Some acc
  | String c k' =>
      match Ascii.is_nat c with
      | Some d => digits_value (acc * 10 + N.of_nat d) k'
      | None => None
      end
  end.

(** An array index: the canonical decimal form of an integer below
    [2^32 - 1].  JavaScript keeps the properties with such keys apart and
    enumerates them first, in ascending order. *)
Definition index_value (k : string) : option N :=
  match k with
  | EmptyString => None
  | _ =>
      match digits_value 0 k with
      | Some n =>
          if bool_decide (pretty n = k) && bool_decide (n < 4294967295)%N
          then Some n else None
      | None => None
      end
  end.

(** The place of a new property whose key is the array index [n]: after
    the smaller indices, before everything else. *)
Fixpoint insert_index (props : list (string * JVal)) (n : N) (key : string) (v : JVal)
  : list (string * JVal) :=
  match props with
  | [] => [(key, v)]
  | (k, w) :: rest =>
      match index_value k with
      | Some m =>
          if (m <? n)%N then (k, w) :: insert_index rest n key v
          else (key, v) :: props
      | None => (key, v) :: props
      end
  end.

(** The own properties of a plain object after [o[key] = v]: an own
    property is replaced where it is; otherwise [__proto__] is the setter
    inherited from [Object.prototype], which adds no property, an array
    index takes its place among the indices, and any other key is added
    at the end. *)
Definition assign_prop (props : list (string * JVal)) (key : string) (v : JVal)
  : list (string * JVal) :=
  match assoc_get props key with
  | Some _ => assoc_set props key v
  | None =>
      if decide (key = "__proto__") then props
      else match index_value key with
           | Some n => insert_index props n key v
           | None => props ++ [(key, v)]
           end
  end.

(** The properties that [Object.assign({}, v)] gives the new object: the
    own properties of [v], assigned one by one, so that an own property
    [__proto__] of [v] goes to the setter and is not copied. *)
Definition assigned_props (h : Heap) (v : JVal) : option (list (string * JVal)) :=
  filter (λ p, p.1 ≠ "__proto__") <$> own_props h v.

(** ** The predicates of the [typy] library that the engine uses *)

(** [t(v).isObject]: a non-null [typeof v === 'object'] that is not an array. *)
Definition t_isObject (h : Heap) (v : JVal) : bool :=
  match v with
  | VRef l => match h !! l with Some (ORecord _) => true | _ => false end
  | _ => false
  end.

(** [t(v).isArray] *)
Definition t_isArray (h : Heap) (v : JVal) : bool :=
  match v with
  | VRef l => match h !! l with Some (OArray _) => true | _ => false end
  | _ => false
  end.

(** [t(v).isFunction] *)
Definition t_isFunction (h : Heap) (v : JVal) : bool :=
  match v with
  | VRef l => match h !! l with Some (OFun _) => true | _ => false end
  | _ => false
  end.

(** ** Values read back as trees *)

(** What a value looks like from outside, down to a given depth: the
    way a test compares an output with an expected literal. *)
#[warnings="-register-all"]
Inductive JTree : Type :=
| TUndef
| TNull
| TBool (b : bool)
| TNum (n : Z)
| TStr (s : string)
| TRecord (fields : list (string * JTree))
| TArray (items : list JTree)
| TFun (f : fid)
| TDangling
| TCut.

Fixpoint snapshot (depth : nat) (h : Heap) (v : JVal) {struct depth} : JTree :=
  match v with
  | VUndef => TUndef
  | VNull => TNull
  | VBool b => TBool b
  | VNum n => TNum n
  | VStr s => TStr s
  | VRef l =>
      match depth with
      | 0 => TCut
      | S d =>
          match h !! l with
          | Some (ORecord props) => TRecord (prod_map id (snapshot d h) <$> props)
          | Some (OArray elems) => TArray (snapshot d h <$> elems)
          | Some (OFun f) => TFun f
          | None => TDangling
          end
      end
  end.


(** ** The monad: state, exceptions, fuel *)

Inductive Res (A : Type) : Type :=
| Ok (a : A)
| Throw (e : Exn)
| Unmodelled
| OutOfFuel.
Arguments Ok {A} a.
Arguments Throw {A} e.
Arguments Unmodelled {A}.
Arguments OutOfFuel {A}.

Definition M (A : Type) : Type := State → Res A * State.

Definition ret {A} (a : A) : M A := λ s, (Ok a, s).

Definition bind {A B} (m : M A) (k : A → M B) : M B :=
  λ s, match m s with
       | (Ok a, s') => k a s'
       | (Throw e, s') => (Throw e, s')
       | (Unmodelled, s') => (Unmodelled, s')
       | (OutOfFuel, s') => (OutOfFuel, s')
       end.

Global Instance M_ret : MRet M := @ret.
Global Instance M_bind : MBind M := λ A B k m, bind m k.

Definition throw {A} (e : Exn) : M A := λ s, (Throw e, s).
Definition unmodelled {A} : M A := λ s, (Unmodelled, s).
Definition outOfFuel {A} : M A := λ s, (OutOfFuel, s).

Definition emit (e : Event) : M unit :=
  λ s, (Ok tt, mkState (heap s) (trace s ++ [e])).

Definition getHeap : M Heap := λ s, (Ok (heap s), s).

Definition liftOpt {A} (o : option A) : M A :=
  match o with Some a => ret a | None => unmodelled end.

(** [for (const x of xs) { await body(x) }] *)
Fixpoint forEach {A} (xs : list A) (body : A → M unit) : M unit :=
  match xs with
  | [] => ret tt
  | x :: rest => body x ;; forEach rest body
  end.

(** A fresh object; the only way the engine extends the heap. *)
Definition alloc (o : Obj) : M JVal :=
  λ s, let l := length (heap s) in
       (Ok (VRef l), mkState (heap s ++ [o]) (trace s ++ [EvAlloc l])).

(** [{}] *)
Definition newObject : M JVal := alloc (ORecord []).

(** [v.key] and [v[key]] *)
Definition getProp (v : JVal) (key : string) : M JVal :=
  match v with
  | VUndef | VNull =>
      throw (TypeError ("Cannot read properties of " +:+ default "" (to_string v)
                        +:+ " (reading '" +:+ key +:+ "')"))
  | _ => h ← getHeap; liftOpt (get_own h v key)
  end.

(** [target[key] = v]; the engine only ever assigns to records. *)
Definition setProp (target : JVal) (key : string) (v : JVal) : M unit :=
  match target with
  | VUndef | VNull =>
      throw (TypeError ("Cannot set properties of " +:+ default "" (to_string target)
                        +:+ " (setting '" +:+ key +:+ "')"))
  | VRef l =>
      λ s, match heap s !! l with
           | Some (ORecord props) =>
               (Ok tt, mkState (<[l := ORecord (assign_prop props key v)]> (heap s))
                               (trace s ++ [EvWrite l key v]))
           | _ => (Unmodelled, s)
           end
  | _ => unmodelled
  end.

(** [Object.keys(v)] *)
Definition objectKeys (v : JVal) : M (list string) :=
  match v with
  | VUndef | VNull => throw (TypeError "Cannot convert undefined or null to object")
  | _ => h ← getHeap; props ← liftOpt (own_props h v); ret (props.*1)
  end.

(** [Object.assign({}, src)] *)
Definition objectAssignEmpty (src : JVal) : M JVal :=
  h ← getHeap;
  props ← liftOpt (assigned_props h src);
  alloc (ORecord props).

Definition isObject (v : JVal) : M bool := h ← getHeap; ret (t_isObject h v).
Definition isArray (v : JVal) : M bool := h ← getHeap; ret (t_isArray h v).
Definition isFunction (v : JVal) : M bool := h ← getHeap; ret (t_isFunction h v).

Definition arrayElems (v : JVal) : M (list JVal) :=
  h ← getHeap;
  match v with
  | VRef l => match h !! l with Some (OArray elems) => ret elems | _ => unmodelled end
  | _ => unmodelled
  end.

(** [`${v}`] and the conversion of [v] to a property key. *)
Definition toString (v : JVal) : M string := liftOpt (to_string v).

(** [await p] *)
Definition await (p : Settled) : M JVal :=
  match p with
  | Fulfilled v => ret v
  | Rejected v => throw (Thrown v)
  end.

(** A task of a [Promise.all] batch, run up to its first [await]: an
    exception there rejects the task and does not stop its siblings. *)
Definition settle {A} (m : M A) : M (Exn + A) :=
  λ s, match m s with
       | (Ok a, s') => (Ok (inr a), s')
       | (Throw e, s') => (Ok (inl e), s')
       | (Unmodelled, s') => (Unmodelled, s')
       | (OutOfFuel, s') => (OutOfFuel, s')
       end.

(** [xs.map(start)]: every task is started, in order. *)
Fixpoint mapTasks {A B} (xs : list A) (start : A → M B) : M (list (A * (Exn + B))) :=
  match xs with
  | [] => ret []
  | x :: rest =>
      r ← settle (start x);
      rs ← mapTasks rest start;
      ret ((x, r) :: rs)
  end.

Definition firstRejected {A B} (tasks : list (A * (Exn + B))) : option Exn :=
  head (omap (λ t, match t.2 with inl e => Some e | inr _ => None end) tasks).

Definition started {A B} (tasks : list (A * (Exn + B))) : list (A * B) :=
  omap (λ t, match t.2 with inl _ => None | inr b => Some (t.1, b) end) tasks.

(** [await Promise.all(tasks)]: a task rejected before its first [await]
    rejects the batch; otherwise the continuations run in the schedule in
    which the awaited promises settle in element order, each continuation
    running to its end before the next one, and the first failure rejects
    the batch.  This is one schedule among those of JavaScript, which
    takes the continuations in the order in which the promises settle and
    lets them take turns at every further [await], as happens when the
    relation has relations of its own.  What the other tasks of a
    rejected batch still do in the background is not part of the
    result. *)
Definition promiseAll {A B} (tasks : list (A * (Exn + B))) (finish : A → B → M unit)
  : M unit :=
  match firstRejected tasks with
  | Some e => throw e
  | None => forEach (started tasks) (λ t, finish t.1 t.2)
  end.

(** ** Error messages *)

(** [createMissingQueryOperationErrorMessage] *)
Definition createMissingQueryOperationErrorMessage (opName : string) : string :=
  nl +:+ "Query operation " +:+ quoted opName
     +:+ " is not supported by the resolver." +:+ nl
  +:+ "You must define a query resolver that looks like this:" +:+ nl
  +:+ "    const root = {" +:+ nl
  +:+ "        " +:+ opName +:+ ": {" +:+ nl
  +:+ "            // ... Entity query resolvers go here." +:+ nl
  +:+ "        }," +:+ nl
  +:+ nl
  +:+ "        // ... Other query operations go here." +:+ nl
  +:+ "    };" +:+ nl.

(** [createMissingGlobalResolverErrorMessage] *)
Definition createMissingGlobalResolverErrorMessage
    (opName entityTypeName queryKey outputLocation : string) : string :=
  nl +:+ "Failed to find global resolver for entity " +:+ quoted entityTypeName
     +:+ " of operation " +:+ quoted opName
     +:+ ", outputting to " +:+ quoted queryKey
     +:+ " in " +:+ outputLocation +:+ "." +:+ nl +:+ nl
  +:+ "You must define a query resolver that looks like this:" +:+ nl
  +:+ "    const root = {" +:+ nl
  +:+ "        " +:+ opName +:+ ": {" +:+ nl
  +:+ "            " +:+ entityTypeName +:+ ": async function (args, context) => {" +:+ nl
  +:+ "                if (args.something) {" +:+ nl
  +:+ "                    // ... Return a single entity that matches 'something'." +:+ nl
  +:+ "                }" +:+ nl
  +:+ "                else {" +:+ nl
  +:+ "                    // ... Return the set of entities (you probably want to use pagination)." +:+ nl
  +:+ "                }" +:+ nl
  +:+ "            }," +:+ nl
  +:+ nl
  +:+ "            // ... Other resolvers go here." +:+ nl
  +:+ "        }," +:+ nl
  +:+ nl
  +:+ "        // ... Other query operations go here." +:+ nl
  +:+ "    };" +:+ nl.

(** The two messages of [resolveNestedEntity]. *)
Definition missingNestedResolversMessage (opName localName parentName : string) : string :=
  "Failed to find nested resolvers for operation " +:+ quoted opName
  +:+ " for nested entity " +:+ quoted localName
  +:+ " under " +:+ quoted parentName +:+ ".".

Definition missingNestedResolverMessage (opName localName parentName : string) : string :=
  "Failed to find nested resolver for operation " +:+ quoted opName
  +:+ " for nested entity " +:+ quoted localName
  +:+ " under " +:+ quoted parentName +:+ ".".

(** ** The engine *)

(** [IQueryGlobals] *)
Record QueryGlobals : Type := mkGlobals {
  operationResolver : JVal;
  opName : string;
  context : JVal
}.

(** [verbose] *)
Definition verbose (flag : JVal) (nestingLevel : nat) (msg : string) : M unit :=
  if truthy flag then emit (EvLog (spaces (nestingLevel * 4) +:+ msg)) else mret tt.

(** [verbose(context.verbose, nestingLevel, msg)]: the flag is read at
    every call, whether tracing is on or not. *)
Definition verboseOf (context : JVal) (nestingLevel : nat) (msg : string) : M unit :=
  flag ← getProp context "verbose";
  verbose flag nestingLevel msg.

(** [getOperationResolver] *)
Definition getOperationResolver (rootResolver : JVal) (opName : string) : M JVal :=
  operationResolver ← getProp rootResolver opName;
  if negb (truthy operationResolver)
  then throw (Error (createMissingQueryOperationErrorMessage opName))
  else
    isObj ← isObject operationResolver;
    if negb isObj
    then throw (Error ("Expected query resolver for " +:+ quoted opName
                       +:+ " to be an object."))
    else mret operationResolver.

(** [getQueryOperation] *)
Definition getQueryOperation (rootQuery : JVal) (opName : string) : M JVal :=
  queryOperation ← getProp rootQuery opName;
  if negb (truthy queryOperation)
  then throw (Error ("Query operation " +:+ quoted opName
                     +:+ " is missing from query."))
  else
    isObj ← isObject queryOperation;
    if negb isObj
    then throw (Error ("Expected query resolver for " +:+ quoted opName
                       +:+ " to be an object."))
    else mret queryOperation.

(** [getGlobalEntityResolver] *)
Definition getGlobalEntityResolver (g : QueryGlobals)
    (entityResolverName entityTypeName outputLocation : string) (nestingLevel : nat)
  : M JVal :=
  verboseOf (context g) nestingLevel
    ("Getting global entity resolver " +:+ quoted entityResolverName
     +:+ " to resolve entity type " +:+ quoted entityTypeName +:+ ".");;
  entityResolver ← getProp (operationResolver g) entityResolverName;
  if negb (truthy entityResolver)
  then throw (Error (createMissingGlobalResolverErrorMessage
                       (opName g) entityTypeName entityTypeName outputLocation))
  else
    invoke ← getProp entityResolver "invoke";
    if negb (truthy invoke)
    then throw (Error ("Entity resolver " +:+ quoted entityTypeName
                       +:+ " is missing an " +:+ quoted "invoke" +:+ " function."))
    else
      isFn ← isFunction invoke;
      if negb isFn
      then throw (Error ("Expected " +:+ quoted "invoke"
                         +:+ " function for entity resolver " +:+ quoted entityTypeName
                         +:+ " is to be a function."))
      else mret entityResolver.

(** [q.from !== undefined ? q.from : name], as the property key and the
    piece of text it is used as. *)
Definition resolverName (q : JVal) (name : string) : M string :=
  from ← getProp q "from";
  match from with
  | VUndef => mret name
  | _ => toString from
  end.

(** [q.args || {}] *)
Definition argsOrEmpty (q : JVal) : M JVal :=
  args ← getProp q "args";
  if truthy args then mret args else newObject.

(** The clone of both resolution stages:
    [isArray ? e.map(x => Object.assign({}, x)) : Object.assign({}, e)]. *)
Fixpoint cloneEach (elems : list JVal) : M (list JVal) :=
  match elems with
  | [] => mret []
  | x :: rest =>
      c ← objectAssignEmpty x;
      cs ← cloneEach rest;
      mret (c :: cs)
  end.

Definition cloneEntity (isArr : bool) (resolvedEntity : JVal) : M JVal :=
  if (isArr : bool)
  then
    elems ← arrayElems resolvedEntity;
    clones ← cloneEach elems;
    alloc (OArray clones)
  else objectAssignEmpty resolvedEntity.

Section Engine.

(** The resolver functions: what the function [f], called on [this] with
    [args] in the heap [h], settles to, and the heap it leaves. *)
Variable natives : fid → JVal → list JVal → Heap → Settled * Heap.

(** [fn.call(this, ...args)], where [fn] is what the expression [callee]
    evaluated to. *)
Definition call (callee : string) (fn this : JVal) (args : list JVal) : M Settled :=
  λ s, match fn with
       | VRef l =>
           match heap s !! l with
           | Some (OFun f) =>
               let '(r, h') := natives f this args (heap s) in
               (Ok r, mkState h' (trace s ++ [EvInvoke f this args r]))
           | Some _ => (Throw (TypeError (callee +:+ " is not a function")), s)
           | None => (Unmodelled, s)
           end
       | _ => (Throw (TypeError (callee +:+ " is not a function")), s)
       end.

(** [resolveNestedEntity] up to its [await]: the lookups and the call. *)
Definition startNestedEntity (nestedEntityQuery parentEntity : JVal)
    (parentEntityGlobalResolverName parentEntityTypeName nestedEntityTypeName : string)
    (g : QueryGlobals) (nestingLevel : nat) : M (string * Settled) :=
  verboseOf (context g) nestingLevel
    ("= Resolving nested entity " +:+ quoted nestedEntityTypeName +:+ ".");;
  parentEntityResolver ←
    getGlobalEntityResolver g parentEntityGlobalResolverName parentEntityTypeName
      ("parent entity " +:+ quoted parentEntityTypeName) (nestingLevel + 1);
  nestedEntityLocalResolverName ← resolverName nestedEntityQuery nestedEntityTypeName;
  nested ← getProp parentEntityResolver "nested";
  if negb (truthy nested)
  then throw (Error (missingNestedResolversMessage (opName g)
                       nestedEntityLocalResolverName parentEntityGlobalResolverName))
  else
    nestedEntityResolver ← getProp nested nestedEntityLocalResolverName;
    if bool_decide (nestedEntityResolver = VUndef)
    then throw (Error (missingNestedResolverMessage (opName g)
                         nestedEntityLocalResolverName parentEntityGlobalResolverName))
    else
      invoke ← getProp nestedEntityResolver "invoke";
      args ← argsOrEmpty nestedEntityQuery;
      p ← call "nestedEntityResolver.invoke" invoke nestedEntityResolver
            [parentEntity; args; context g];
      mret (nestedEntityLocalResolverName, p).

(** [resolveNestedEntity] from its [await] on; [rec] is
    [resolveNestedEntities]. *)
Definition finishNestedEntity
    (rec : JVal → JVal → string → string → QueryGlobals → nat → M unit)
    (nestedEntityQuery parentEntity : JVal) (nestedEntityTypeName : string)
    (g : QueryGlobals) (nestingLevel : nat) (started : string * Settled) : M unit :=
  resolvedEntity ← await started.2;
  isArr ← isArray resolvedEntity;
  clonedEntity ← cloneEntity isArr resolvedEntity;
  setProp parentEntity nestedEntityTypeName clonedEntity;;
  rec nestedEntityQuery clonedEntity started.1 nestedEntityTypeName g (nestingLevel + 2).

(** The body of the loop of [resolveNestedEntities]: one relation of
    the [resolve] map.  An array parent is fanned out: [map] starts a
    [resolveNestedEntity] per element, [Promise.all] awaits them. *)
Definition resolveRelation
    (rec : JVal → JVal → string → string → QueryGlobals → nat → M unit)
    (entityQuery parentEntity : JVal)
    (parentEntityGlobalResolverName parentEntityTypeName : string)
    (g : QueryGlobals) (nestingLevel : nat) (nestedEntityTypeName : string) : M unit :=
  resolve ← getProp entityQuery "resolve";
  nestedEntityQuery ← getProp resolve nestedEntityTypeName;
  isObj ← isObject nestedEntityQuery;
  if negb isObj
  then
    h ← getHeap;
    throw (Error ("Unsupported type for " +:+ quoted "resolve"
                  +:+ " field: " +:+ typeof h nestedEntityQuery +:+ "."))
  else
    isArr ← isArray parentEntity;
    if (isArr : bool)
    then
      elems ← arrayElems parentEntity;
      tasks ← mapTasks elems (λ singleEntity,
        startNestedEntity nestedEntityQuery singleEntity
          parentEntityGlobalResolverName parentEntityTypeName
          nestedEntityTypeName g nestingLevel);
      promiseAll tasks (λ singleEntity started,
        finishNestedEntity rec nestedEntityQuery singleEntity
          nestedEntityTypeName g nestingLevel started)
    else
      started ← startNestedEntity nestedEntityQuery parentEntity
        parentEntityGlobalResolverName parentEntityTypeName
        nestedEntityTypeName g nestingLevel;
      finishNestedEntity rec nestedEntityQuery parentEntity
        nestedEntityTypeName g nestingLevel started.

(** [resolveNestedEntities]; the recursion follows the [resolve] maps of
    the query, which live in the heap, hence the fuel. *)
Fixpoint resolveNestedEntities (fuel : nat) (entityQuery parentEntity : JVal)
    (parentEntityGlobalResolverName parentEntityTypeName : string)
    (g : QueryGlobals) (nestingLevel : nat) {struct fuel} : M unit :=
  match fuel with
  | 0 => outOfFuel
  | S fuel' =>
      resolve ← getProp entityQuery "resolve";
      if truthy resolve
      then
        names ← objectKeys resolve;
        forEach names
          (resolveRelation (resolveNestedEntities fuel') entityQuery parentEntity
             parentEntityGlobalResolverName parentEntityTypeName g nestingLevel)
      else mret tt
  end.

(** [resolveNestedEntity] *)
Definition resolveNestedEntity (fuel : nat) (nestedEntityQuery parentEntity : JVal)
    (parentEntityGlobalResolverName parentEntityTypeName nestedEntityTypeName : string)
    (g : QueryGlobals) (nestingLevel : nat) : M unit :=
  started ← startNestedEntity nestedEntityQuery parentEntity
    parentEntityGlobalResolverName parentEntityTypeName
    nestedEntityTypeName g nestingLevel;
  finishNestedEntity (resolveNestedEntities fuel)
    nestedEntityQuery parentEntity nestedEntityTypeName g nestingLevel started.

(** [resolveRootEntity] *)
Definition resolveRootEntity (fuel : nat) (queryOperation output : JVal)
    (entityTypeName : string) (g : QueryGlobals) (nestingLevel : nat) : M unit :=
  verboseOf (context g) nestingLevel
    ("= Resolving root entity " +:+ quoted entityTypeName +:+ ".");;
  entityQuery ← getProp queryOperation entityTypeName;
  if negb (truthy entityQuery)
  then throw (Error ("Entity query " +:+ quoted entityTypeName
                     +:+ " is missing under operation " +:+ quoted (opName g) +:+ "."))
  else
    isObj ← isObject entityQuery;
    if negb isObj
    then throw (Error ("Expected entity query " +:+ quoted entityTypeName
                       +:+ " under operation " +:+ quoted (opName g)
                       +:+ " to be an object."))
    else
      entityResolverName ← resolverName entityQuery entityTypeName;
      entityResolver ← getGlobalEntityResolver g entityResolverName entityTypeName
                         "query result" (nestingLevel + 1);
      invoke ← getProp entityResolver "invoke";
      args ← argsOrEmpty entityQuery;
      p ← call "entityResolver.invoke" invoke entityResolver [args; context g];
      resolvedEntity ← await p;
      isArr ← isArray resolvedEntity;
      verboseOf (context g) (nestingLevel + 1)
        (if isArr then "Resolved an array of entities."
         else "Resolved a single entity.");;
      clonedEntity ← cloneEntity isArr resolvedEntity;
      setProp output entityTypeName clonedEntity;;
      resolveNestedEntities fuel entityQuery clonedEntity entityResolverName
        entityTypeName g (nestingLevel + 2).

(** The body of the loop of [miniql]: one operation of the query. *)
Definition resolveOperation (fuel : nat) (rootQuery rootResolver context output : JVal)
    (opName : string) : M unit :=
  verboseOf context 1
    ("= Invoking query operation " +:+ quoted opName +:+ ".");;
  queryOperation ← getQueryOperation rootQuery opName;
  operationResolver ← getOperationResolver rootResolver opName;
  keys ← objectKeys queryOperation;
  forEach keys (λ entityTypeName,
    resolveRootEntity fuel queryOperation output entityTypeName
      (mkGlobals operationResolver opName context) 2).

(** [miniql] *)
Definition miniql (fuel : nat) (rootQuery rootResolver context : JVal) : M JVal :=
  output ← newObject;
  opNames ← objectKeys rootQuery;
  if bool_decide (length opNames ≤ 0)
  then throw (Error "Query doesn't contain any operations.")
  else
    verboseOf context 0 "** Executing query.";;
    forEach opNames (resolveOperation fuel rootQuery rootResolver context output);;
    mret output.

End Engine.

(** * Scenarios *)

(** Resolvers for the concrete runs.  Each one only allocates. *)
Definition sampleNatives (f : fid) (this : JVal) (args : list JVal) (h : Heap)
  : Settled * Heap :=
  match f with
  | 0 => (* async () => ({ id: 1, name: "Ann" }) *)
      (Fulfilled (VRef (length h)),
       h ++ [ORecord [("id", VNum 1); ("name", VStr "Ann")]])
  | 1 => (* async () => [{ id: 10 }] *)
      (Fulfilled (VRef (S (length h))),
       h ++ [ORecord [("id", VNum 10)]; OArray [VRef (length h)]])
  | 2 => (* async parent => parent *)
      (Fulfilled (default VUndef (head args)), h)
  | 3 => (* async () => null *)
      (Fulfilled VNull, h)
  | 4 => (* async () => [] *)
      (Fulfilled (VRef (length h)), h ++ [OArray []])
  | 5 => (* async () => [{ id: 1 }, { id: 2 }] *)
      (Fulfilled (VRef (S (S (length h)))),
       h ++ [ORecord [("id", VNum 1)]; ORecord [("id", VNum 2)];
             OArray [VRef (length h); VRef (S (length h))]])
  | _ => (* async () => { throw "no" } *)
      (Rejected (VStr "no"), h)
  end.

(** The heap of Scenario B, with four places left open:
<<
  query    = { get: { user: { args: rootArgs, resolve: { posts: entry } } } }
  registry = { get: { user: { invoke: f0, nested: { posts: { invoke: postsFn } } } } }
  context  = {}
>>
    and a spare record [nestedQuery] at address 13 for [entry] to point to. *)
Definition heapB (rootArgs entry : JVal) (nestedQuery : list (string * JVal))
    (postsFn : fid) : Heap :=
  [ ORecord [("id", VNum 1)];                            (*  0: { id: 1 } *)
    ORecord [("posts", entry)];                          (*  1: resolve *)
    ORecord [("args", rootArgs); ("resolve", VRef 1)];   (*  2: query.get.user *)
    ORecord [("user", VRef 2)];                          (*  3: query.get *)
    ORecord [("get", VRef 3)];                           (*  4: query *)
    OFun 0;                                              (*  5: user.invoke *)
    OFun postsFn;                                        (*  6: posts.invoke *)
    ORecord [("invoke", VRef 6)];                        (*  7: nested.posts *)
    ORecord [("posts", VRef 7)];                         (*  8: user.nested *)
    ORecord [("invoke", VRef 5); ("nested", VRef 8)];    (*  9: registry.get.user *)
    ORecord [("user", VRef 9)];                          (* 10: registry.get *)
    ORecord [("get", VRef 10)];                          (* 11: registry *)
    ORecord [];                                          (* 12: context *)
    ORecord nestedQuery                                  (* 13: nested query *)
  ].

Definition runB (rootArgs entry : JVal) (nestedQuery : list (string * JVal))
    (postsFn : fid) : Res JVal * State :=
  miniql sampleNatives 3 (VRef 4) (VRef 11) (VRef 12)
    (mkState (heapB rootArgs entry nestedQuery postsFn) []).

(** The output of a run as a tree, if there is one. *)
Definition outputTree (run : Res JVal * State) : option JTree :=
  match run.1 with
  | Ok out => Some (snapshot 8 (heap run.2) out)
  | _ => None
  end.

(** * Vocabulary of the statements *)

(** A value whose properties can be read: not [null], not [undefined],
    and not a dangling reference. *)
Definition readable (h : Heap) (v : JVal) : Prop :=
  match v with
  | VUndef | VNull => False
  | VRef l => l < length h
  | _ => True
  end.

(** What [verbose(context.verbose, nestingLevel, msg)] prints. *)
Definition logged (h : Heap) (context : JVal) (nestingLevel : nat) (msg : string)
  : list Event :=
  match get_own h context "verbose" with
  | Some flag => if truthy flag then [EvLog (spaces (nestingLevel * 4) +:+ msg)] else []
  | None => []
  end.

(** The resolver calls of a trace, oldest first. *)
Record Invocation : Type := mkInvocation {
  inv_fun : fid;
  inv_this : JVal;
  inv_args : list JVal;
  inv_result : Settled
}.

Definition invocations (tr : list Event) : list Invocation :=
  omap (λ e, match e with
             | EvInvoke f this args r => Some (mkInvocation f this args r)
             | _ => None
             end) tr.

(** [c] is a record allocated at [n] or later with the properties that
    [e] gives it: [Object.assign({}, e)]. *)
Definition copy_of (n : nat) (h : Heap) (e c : JVal) : Prop :=
  ∃ lc props, c = VRef lc ∧ n ≤ lc ∧ e ≠ c
    ∧ assigned_props h e = Some props ∧ h !! lc = Some (ORecord props).

(** [c] is the shallow clone the engine makes of [r], out of objects
    allocated at [n] or later: an array is cloned element by element into
    a new array, anything else is copied once. *)
Definition shallow_clone (n : nat) (h : Heap) (r c : JVal) : Prop :=
  match r with
  | VRef lr =>
      match h !! lr with
      | Some (OArray elems) =>
          ∃ lc clones, c = VRef lc ∧ n ≤ lc ∧ lc ≠ lr
            ∧ h !! lc = Some (OArray clones) ∧ Forall2 (copy_of n h) elems clones
      | _ => copy_of n h r c
      end
  | _ => copy_of n h r c
  end.

(** What a resolver may return for the clone to be defined: no dangling
    reference, at the top or among the elements of an array. *)
Definition clonable (h : Heap) (r : JVal) : Prop :=
  match r with
  | VRef lr =>
      match h !! lr with
      | Some (OArray elems) => Forall (λ e, is_Some (own_props h e)) elems
      | Some _ => True
      | None => False
      end
  | _ => True
  end.

(** An entity in the sense of the data model: a record, or an array of
    records. *)
Definition is_record (h : Heap) (v : JVal) : Prop :=
  ∃ l props, v = VRef l ∧ h !! l = Some (ORecord props).

Definition is_entity (h : Heap) (r : JVal) : Prop :=
  is_record h r
  ∨ ∃ l elems, r = VRef l ∧ h !! l = Some (OArray elems) ∧ Forall (is_record h) elems.

(** Called in a heap of [n] objects or more, the resolver [f] fulfils,
    only allocates, and returns a value that satisfies [P] in the heap it
    leaves. *)
Definition fulfils (natives : fid → JVal → list JVal → Heap → Settled * Heap)
    (f : fid) (n : nat) (P : Heap → JVal → Prop) : Prop :=
  ∀ this args h, n ≤ length h → ∃ r ext,
    natives f this args h = (Fulfilled r, h ++ ext) ∧ P (h ++ ext) r.

(** Resolvers that leave every existing object as it is. *)
Definition only_allocate (natives : fid → JVal → list JVal → Heap → Settled * Heap)
  : Prop :=
  ∀ f this args h, ∃ ext, (natives f this args h).2 = h ++ ext.

(** The entity resolver registered under [name]: a record at [lr] whose
    [invoke] is the function [f]. *)
Definition entity_resolver (h : Heap) (operationResolver : JVal) (name : string)
    (lr : loc) (rprops : list (string * JVal)) (f : fid) : Prop :=
  ∃ lop resolvers lf,
    operationResolver = VRef lop
    ∧ h !! lop = Some (ORecord resolvers)
    ∧ assoc_get resolvers name = Some (VRef lr)
    ∧ h !! lr = Some (ORecord rprops)
    ∧ assoc_get rprops "invoke" = Some (VRef lf)
    ∧ h !! lf = Some (OFun f).

(** [q.from !== undefined ? q.from : key] on the properties of [q]. *)
Definition resolver_name (qprops : list (string * JVal)) (key : string) : option string :=
  match default VUndef (assoc_get qprops "from") with
  | VUndef => Some key
  | from => to_string from
  end.

(** The value of [q.args]. *)
Definition args_of (qprops : list (string * JVal)) : JVal :=
  default VUndef (assoc_get qprops "args").

(** The records that cloning the elements [elems] allocates. *)
Definition copies (h : Heap) (elems : list JVal) : option (list Obj) :=
  mapM (λ e, ORecord <$> assigned_props h e) elems.

Definition fresh_refs (n len : nat) : list JVal := VRef <$> seq n len.

(** [q.args || {}]: the value passed, the heap and the events it leaves. *)
Definition passed_args (h : Heap) (qprops : list (string * JVal)) : JVal :=
  if truthy (args_of qprops) then args_of qprops else VRef (length h).

Definition args_heap (h : Heap) (qprops : list (string * JVal)) : Heap :=
  if truthy (args_of qprops) then h else h ++ [ORecord []].

Definition args_events (h : Heap) (qprops : list (string * JVal)) : list Event :=
  if truthy (args_of qprops) then [] else [EvAlloc (length h)].

(** A property of values that survives allocation. *)
Definition persistent (P : Heap → JVal → Prop) : Prop :=
  ∀ h ext v, P h v → P (h ++ ext) v.




(** The heap of a query whose only operation is [null], with a registry
    that has no operation at all:
<<
  query    = { get: null }
  registry = {}
  context  = {}
>> *)
Definition heapM : Heap :=
  [ ORecord [("get", VNull)];                            (* 0: query *)
    ORecord [];                                          (* 1: registry *)
    ORecord []                                           (* 2: context *)
  ].

(** ** Flat queries *)








(** All but the object at [lo] is as it was. *)
Definition same_but (lo : loc) (h h' : Heap) : Prop :=
  ∀ l o, l ≠ lo → h !! l = Some o → h' !! l = Some o.

(** The heap of a query without relations:
<<
  query    = { get: { user: { args: { id: 1 } }, users: {} } }
  registry = { get: { user: { invoke: f0 }, users: { invoke: f5 } } }
  context  = {}
>> *)
Definition heapF : Heap :=
  [ ORecord [("id", VNum 1)];                            (*  0: { id: 1 } *)
    ORecord [("args", VRef 0)];                          (*  1: query.get.user *)
    ORecord [];                                          (*  2: query.get.users *)
    ORecord [("user", VRef 1); ("users", VRef 2)];       (*  3: query.get *)
    ORecord [("get", VRef 3)];                           (*  4: query *)
    OFun 0;                                              (*  5: user.invoke *)
    ORecord [("invoke", VRef 5)];                        (*  6: registry.get.user *)
    OFun 5;                                              (*  7: users.invoke *)
    ORecord [("invoke", VRef 7)];                        (*  8: registry.get.users *)
    ORecord [("user", VRef 6); ("users", VRef 8)];       (*  9: registry.get *)
    ORecord [("get", VRef 9)];                           (* 10: registry *)
    ORecord []                                           (* 11: context *)
  ].

(** The heap of Scenario E:
<<
  query    = { delete: { user: {} } }
  registry = { get: {} }
  context  = { verbose: true }
>> *)
Definition heapE : Heap :=
  [ ORecord [];                                          (* 0: query.delete.user *)
    ORecord [("user", VRef 0)];                          (* 1: query.delete *)
    ORecord [("delete", VRef 1)];                        (* 2: query *)
    ORecord [];                                          (* 3: registry.get *)
    ORecord [("get", VRef 3)];                           (* 4: registry *)
    ORecord [("verbose", VBool true)]                    (* 5: context *)
  ].

(** ** Nested relations *)

(** In the registry of the operation, the entity resolver [pname] has a
    [nested] map whose entry [name] is a record at [lnr] with the function
    [f] as its [invoke]. *)
Definition nested_resolver (h : Heap) (operationResolver : JVal) (pname name : string)
    (lnr : loc) (f : fid) : Prop :=
  ∃ lr rprops f0 lnested nprops nrprops lf,
    entity_resolver h operationResolver pname lr rprops f0
    ∧ assoc_get rprops "nested" = Some (VRef lnested)
    ∧ h !! lnested = Some (ORecord nprops)
    ∧ assoc_get nprops name = Some (VRef lnr)
    ∧ h !! lnr = Some (ORecord nrprops)
    ∧ assoc_get nrprops "invoke" = Some (VRef lf)
    ∧ h !! lf = Some (OFun f).

(** The lookup of the nested resolver [name] fails for an entity resolver
    with the properties [rprops]: its [nested] is missing (or falsy), or
    [nested[name]] is [undefined]. *)
Definition nested_lookup_fails (h : Heap) (rprops : list (string * JVal)) (name : string)
  : Prop :=
  truthy (default VUndef (assoc_get rprops "nested")) = false
  ∨ get_own h (default VUndef (assoc_get rprops "nested")) name = Some VUndef.

(** The events of [startNestedEntity] before the call. *)
Definition startNested_logs (h : Heap) (g : QueryGlobals) (lvl : nat)
    (pname ptype rel : string) : list Event :=
  logged h (context g) lvl ("= Resolving nested entity " +:+ quoted rel +:+ ".")
  ++ logged h (context g) (lvl + 1)
       ("Getting global entity resolver " +:+ quoted pname
        +:+ " to resolve entity type " +:+ quoted ptype +:+ ".").

(** A resolver result with nothing in it, and the object its clone is:
    [null] and [undefined] are cloned into an empty record, an empty array
    into an empty array. *)
Definition empty_result (h : Heap) (v : JVal) (o : Obj) : Prop :=
  ((v = VNull ∨ v = VUndef) ∧ o = ORecord [])
  ∨ (∃ la, v = VRef la ∧ h !! la = Some (OArray []) ∧ o = OArray []).

(** ** Relations between the states of a run *)

(** Every step of the computation [m] is within the relation [R]. *)
Definition respects (R : State → State → Prop) {A} (m : M A) : Prop :=
  ∀ s, R s (m s).2.

(** The trace only grows. *)
Definition trace_grows (s s' : State) : Prop := trace s `prefix_of` trace s'.

(** The object at [l] is assigned to in the events [tr]. *)
Definition written (l : loc) (tr : list Event) : Prop :=
  ∃ key v, EvWrite l key v ∈ tr.

(** What a stretch of a run does to the heap: objects are added, at the
    end, and an object that was there stays as it was unless it is a
    record that the events of the stretch assign to, in which case its
    keys can only grow. *)
Definition extends (s s' : State) : Prop :=
  ∃ tr,
    trace s' = trace s ++ tr
    ∧ length (heap s) ≤ length (heap s')
    ∧ (∀ l, EvAlloc l ∈ tr → length (heap s) ≤ l)
    ∧ (∀ l o, heap s !! l = Some o →
         heap s' !! l = Some o
         ∨ (written l tr
            ∧ ∃ props props', o = ORecord props
                ∧ heap s' !! l = Some (ORecord props')
                ∧ props.*1 ⊆ props'.*1)).

(** ** The discipline of assignments *)

(** The value [v] is an object that the events [tr] allocate: one of the
    engine's own (the output object, a clone, an empty [args]). *)
Definition owned (tr : list Event) (v : JVal) : Prop :=
  ∃ l, v = VRef l ∧ EvAlloc l ∈ tr.

(** Every assignment of the trace is to an object allocated earlier in
    the trace, and of such an object. *)
Definition writes_owned (tr : list Event) : Prop :=
  ∀ pre l key v post,
    tr = pre ++ EvWrite l key v :: post → owned pre (VRef l) ∧ owned pre v.

(** The invariant of a run: the discipline above, the allocated objects
    are in the heap, and an allocated array holds allocated objects. *)
Definition disciplined (s : State) : Prop :=
  writes_owned (trace s)
  ∧ (∀ l, EvAlloc l ∈ trace s → l < length (heap s))
  ∧ (∀ l elems, EvAlloc l ∈ trace s → heap s !! l = Some (OArray elems) →
       Forall (owned (trace s)) elems).

(** The invariant is kept, and the trace grows. *)
Definition keeps (s s' : State) : Prop :=
  disciplined s → disciplined s' ∧ trace s `prefix_of` trace s'.

(** A property of traces that stays true as the trace grows. *)
Definition monotone (P : list Event → Prop) : Prop :=
  ∀ tr tr', tr `prefix_of` tr' → P tr → P tr'.

(** From a disciplined state whose trace satisfies [P], the computation
    [m] ends in a disciplined state, with a longer trace, and its result
    and final trace satisfy [Q]. *)
Definition hoare (P : list Event → Prop) {A} (m : M A) (Q : A → list Event → Prop)
  : Prop :=
  ∀ s, disciplined s → P (trace s) →
    disciplined (m s).2
    ∧ trace s `prefix_of` trace (m s).2
    ∧ ∀ a, (m s).1 = Ok a → Q a (trace (m s).2).

(** The entity [e] is a record with an own property [rel]. *)
Definition has_field (h : Heap) (e : JVal) (rel : string) : Prop :=
  ∃ l props, e = VRef l ∧ h !! l = Some (ORecord props) ∧ rel ∈ props.*1.

(** The call of the nested resolver [f], registered at [lnr], on the
    parent [e]. *)
Definition nested_call (f : fid) (lnr : loc) (context : JVal) (e : JVal)
    (inv : Invocation) : Prop :=
  inv_fun inv = f ∧ inv_this inv = VRef lnr
  ∧ ∃ args, inv_args inv = [e; args; context].

(** No assignment among the events [tr]. *)
Definition no_writes (tr : list Event) : Prop :=
  ∀ l key v, EvWrite l key v ∉ tr.

(** The nested query of the relation [rel] of the entity query at [le]:
    the record at [lnq], entry [rel] of its [resolve] map. *)
Definition relation_query (h : Heap) (le : loc) (rel : string) (lnq : loc)
    (nqprops : list (string * JVal)) : Prop :=
  ∃ qprops lres rprops,
    h !! le = Some (ORecord qprops)
    ∧ assoc_get qprops "resolve" = Some (VRef lres)
    ∧ h !! lres = Some (ORecord rprops)
    ∧ assoc_get rprops rel = Some (VRef lnq)
    ∧ h !! lnq = Some (ORecord nqprops).

(** The heap of Scenario D, once the [users] resolver has returned and
    its result has been cloned:
<<
  query    = { get: { users: { resolve: { roles: {} } } } }
  registry = { get: { users: { invoke: f5, nested: { roles: { invoke: f1 } } } } }
  context  = {}
>>
    followed by the two cloned users and their array. *)
Definition heapD : Heap :=
  [ ORecord [];                                          (*  0: the roles query *)
    ORecord [("roles", VRef 0)];                         (*  1: resolve *)
    ORecord [("resolve", VRef 1)];                       (*  2: query.get.users *)
    ORecord [("users", VRef 2)];                         (*  3: query.get *)
    ORecord [("get", VRef 3)];                           (*  4: query *)
    OFun 5;                                              (*  5: users.invoke *)
    OFun 1;                                              (*  6: roles.invoke *)
    ORecord [("invoke", VRef 6)];                        (*  7: nested.roles *)
    ORecord [("roles", VRef 7)];                         (*  8: users.nested *)
    ORecord [("invoke", VRef 5); ("nested", VRef 8)];    (*  9: registry.get.users *)
    ORecord [("users", VRef 9)];                         (* 10: registry.get *)
    ORecord [("get", VRef 10)];                          (* 11: registry *)
    ORecord [];                                          (* 12: context *)
    ORecord [("id", VNum 1)];                            (* 13: first user *)
    ORecord [("id", VNum 2)];                            (* 14: second user *)
    OArray [VRef 13; VRef 14]                            (* 15: the users *)
  ].

(** ** What the fan-out attaches *)

(** The objects at [n] and above are in [h'] what they are in [h]. *)
Definition agree_from (n : nat) (h h' : Heap) : Prop :=
  ∀ l o, n ≤ l → h !! l = Some o → h' !! l = Some o.

(** A value that is not an object older than [n]. *)
Definition new_value (n : nat) (v : JVal) : Prop := ∀ l, v = VRef l → n ≤ l.





(** ** The guards of the engine *)

(** A value that is not a dangling reference. *)
Definition valid (h : Heap) (v : JVal) : Prop :=
  match v with
  | VRef l => l < length h
  | _ => True
  end.

(** The state in which [miniql] enters its loop over the operations: the
    output object is allocated, the first trace line is printed. *)
Definition state_at_operations (h : Heap) (tr : list Event) (context : JVal) : State :=
  mkState (h ++ [ORecord []])
    (tr ++ EvAlloc (length h) :: logged h context 0 "** Executing query.").

(** The state in which it enters the loop over the entity queries of its
    first operation, [opName]. *)
Definition state_at_entities (h : Heap) (tr : list Event) (context : JVal)
    (opName : string) : State :=
  mkState (h ++ [ORecord []])
    (tr ++ EvAlloc (length h) :: logged h context 0 "** Executing query."
        ++ logged h context 1 ("= Invoking query operation " +:+ quoted opName +:+ ".")).

(** The first operation of the query is [opName], an object whose first
    entry is [key: vq]; the registry is an object whose entry for [opName]
    is an object, at [lres]. *)
Definition first_entity (h : Heap) (rootQuery rootResolver : JVal) (opName key : string)
    (lop lres : loc) (vq : JVal) : Prop :=
  ∃ lq lr operations entries registry resolvers,
    rootQuery = VRef lq ∧ rootResolver = VRef lr
    ∧ h !! lq = Some (ORecord ((opName, VRef lop) :: operations))
    ∧ h !! lop = Some (ORecord ((key, vq) :: entries))
    ∧ h !! lr = Some (ORecord registry)
    ∧ assoc_get registry opName = Some (VRef lres)
    ∧ h !! lres = Some (ORecord resolvers).

(** The entity query at [leq] asks for the resolver [name] of the
    operation resolver [opres], whose registry entry is [r] (or
    [undefined]). *)
Definition resolver_entry (h : Heap) (leq : loc) (key : string) (opres : JVal)
    (name : string) (r : JVal) : Prop :=
  ∃ qprops lres resolvers,
    h !! leq = Some (ORecord qprops)
    ∧ resolver_name qprops key = Some name
    ∧ opres = VRef lres
    ∧ h !! lres = Some (ORecord resolvers)
    ∧ r = default VUndef (assoc_get resolvers name).

(** The promise that the resolver [f] returns is always rejected with [x]. *)
Definition rejects (natives : fid → JVal → list JVal → Heap → Settled * Heap)
    (f : fid) (x : JVal) : Prop :=
  ∀ this args h, (natives f this args h).1 = Rejected x.

(** A heap with four places left open:
<<
  query    = { get: { user: userQuery } }
  registry = { get: registryGet }
  context  = {}
>>
    with a record [entityQuery] at address 0, a function that rejects at
    address 3 and a record [userResolver] at address 4 for the open places
    to point to. *)
Definition heapG (entityQuery : list (string * JVal)) (userQuery : JVal)
    (userResolver registryGet : list (string * JVal)) : Heap :=
  [ ORecord entityQuery;                                 (* 0: an entity query *)
    ORecord [("user", userQuery)];                       (* 1: query.get *)
    ORecord [("get", VRef 1)];                           (* 2: query *)
    OFun 6;                                              (* 3: a function *)
    ORecord userResolver;                                (* 4: a resolver *)
    ORecord registryGet;                                 (* 5: registry.get *)
    ORecord [("get", VRef 5)];                           (* 6: registry *)
    ORecord []                                           (* 7: context *)
  ].

(** The message of a failed lookup of the nested resolver [name] under the
    entity resolver with the properties [rprops]. *)
Definition nested_lookup_message (rprops : list (string * JVal)) (opName name pname : string)
  : string :=
  if truthy (default VUndef (assoc_get rprops "nested"))
  then missingNestedResolverMessage opName name pname
  else missingNestedResolversMessage opName name pname.

(** The heap of a query with the key [user] under two operations, on top
    of [heapF]:
<<
  query    = { get: { user: {} }, find: { user: {} } }
  registry = { get: { user: { invoke: f0 }, users: { invoke: f5 } },
               find: { user: { invoke: f5 } } }
>> *)
Definition heapK : Heap :=
  heapF ++
  [ ORecord [];                                          (* 12: an entity query *)
    ORecord [("user", VRef 12)];                         (* 13: query.get *)
    ORecord [("user", VRef 12)];                         (* 14: query.find *)
    ORecord [("get", VRef 13); ("find", VRef 14)];       (* 15: query *)
    ORecord [("user", VRef 8)];                          (* 16: registry.find *)
    ORecord [("get", VRef 9); ("find", VRef 16)]         (* 17: registry *)
  ].

(** ** The order of calls and assignments *)

(** The calls of resolvers, each with the first argument it is given, and
    the assignments of a trace, oldest first. *)
Inductive Step : Type :=
| CallOf (f : fid) (first : JVal)
| AssignTo (l : loc) (key : string).

Definition steps (tr : list Event) : list Step :=
  omap (λ e, match e with
             | EvInvoke f _ args _ => Some (CallOf f (default VUndef (head args)))
             | EvWrite l key _ => Some (AssignTo l key)
             | _ => None
             end) tr.

(** The entry [rel: vq] of a [resolve] map is a nested query without
    relations of its own, whose nested resolver under [pname] is the
    function [f], which fulfils with something that can be cloned; the
    name of the relation is an ordinary key. *)
Definition leaf_relation (natives : fid → JVal → list JVal → Heap → Settled * Heap)
    (h : Heap) (opres : JVal) (pname : string) (entry : string * JVal) (f : fid) : Prop :=
  ∃ lnq nqprops name lnr,
    entry.2 = VRef lnq
    ∧ ordinary_key entry.1 = true
    ∧ h !! lnq = Some (ORecord nqprops)
    ∧ truthy (default VUndef (assoc_get nqprops "resolve")) = false
    ∧ resolver_name nqprops entry.1 = Some name
    ∧ nested_resolver h opres pname name lnr f
    ∧ fulfils natives f (length h) clonable.

(** The heap of an entity query with two relations:
<<
  query.get.user = { resolve: { posts: {}, roles: {} } }
  registry = { get: { user: { invoke: f0,
                              nested: { posts: { invoke: f1 },
                                        roles: { invoke: f4 } } } } }
  context  = {}
>> *)
Definition heapS : Heap :=
  [ ORecord [];                                          (*  0: the posts query *)
    ORecord [];                                          (*  1: the roles query *)
    ORecord [("posts", VRef 0); ("roles", VRef 1)];      (*  2: resolve *)
    ORecord [("resolve", VRef 2)];                       (*  3: query.get.user *)
    OFun 0;                                              (*  4: user.invoke *)
    OFun 1;                                              (*  5: posts.invoke *)
    OFun 4;                                              (*  6: roles.invoke *)
    ORecord [("invoke", VRef 5)];                        (*  7: nested.posts *)
    ORecord [("invoke", VRef 6)];                        (*  8: nested.roles *)
    ORecord [("posts", VRef 7); ("roles", VRef 8)];      (*  9: user.nested *)
    ORecord [("invoke", VRef 4); ("nested", VRef 9)];    (* 10: registry.get.user *)
    ORecord [("user", VRef 10)];                         (* 11: registry.get *)
    ORecord []                                           (* 12: context *)
  ].

(** ** A query with one entity *)

(** The query has the single operation [opName], an object with the
    single entry [key: vq]; the registry is an object whose entry for
    [opName] is an object, at [lres]. *)
Definition only_entity (h : Heap) (rootQuery rootResolver : JVal) (opName key : string)
    (lop lres : loc) (vq : JVal) : Prop :=
  ∃ lq lr registry resolvers,
    rootQuery = VRef lq ∧ rootResolver = VRef lr
    ∧ h !! lq = Some (ORecord [(opName, VRef lop)])
    ∧ h !! lop = Some (ORecord [(key, vq)])
    ∧ h !! lr = Some (ORecord registry)
    ∧ assoc_get registry opName = Some (VRef lres)
    ∧ h !! lres = Some (ORecord resolvers).

(** A record that is not the object at [lo]. *)
Definition record_but (lo : loc) (h : Heap) (r : JVal) : Prop :=
  ∃ l props, r = VRef l ∧ l ≠ lo ∧ h !! l = Some (ORecord props)
    ∧ assoc_get props "__proto__" = None.

(** [heapS] with its query and its registry:
<<
  query    = { get: { user: { resolve: { posts: {}, roles: {} } } } }
  registry = { get: { user: { invoke: f0, nested: { posts: ..., roles: ... } } } }
>> *)
Definition heapT : Heap :=
  heapS ++
  [ ORecord [("user", VRef 3)];                          (* 13: query.get *)
    ORecord [("get", VRef 13)];                          (* 14: query *)
    ORecord [("get", VRef 11)]                           (* 15: registry *)
  ].

(** * Reasoning about runs *)

Global Arguments getProp : simpl never.
Global Arguments setProp : simpl never.
Global Arguments objectKeys : simpl never.
Global Arguments objectAssignEmpty : simpl never.
Global Arguments alloc : simpl never.
Global Arguments newObject : simpl never.
Global Arguments verboseOf : simpl never.
Global Arguments getQueryOperation : simpl never.
Global Arguments getOperationResolver : simpl never.
Global Arguments getGlobalEntityResolver : simpl never.
Global Arguments resolverName : simpl never.
Global Arguments argsOrEmpty : simpl never.
Global Arguments cloneEntity : simpl never.
Global Arguments call : simpl never.
Global Arguments await : simpl never.
Global Arguments promiseAll : simpl never.
Global Arguments settle : simpl never.
Global Arguments startNestedEntity : simpl never.
Global Arguments finishNestedEntity : simpl never.
Global Arguments resolveRelation : simpl never.
Global Arguments resolveRootEntity : simpl never.
Global Arguments resolveOperation : simpl never.

(** ** Strings *)

Lemma append_nil_l (t : string) : "" +:+ t = t.
Proof. reflexivity. Qed.

Lemma append_cons (a : ascii) (s t : string) : String a s +:+ t = String a (s +:+ t).
Proof. reflexivity. Qed.

Lemma append_assoc (a b c : string) : (a +:+ b) +:+ c = a +:+ (b +:+ c).
Proof.
  induction a as [|x a IH]; [done |]. by rewrite !append_cons, IH.
Qed.

Lemma append_nil_r (a : string) : a +:+ "" = a.
Proof.
  induction a as [|x a IH]; [done |]. by rewrite append_cons, IH.
Qed.

Lemma startsWith_append (s t : string) : startsWith s (s +:+ t) = true.
Proof.
  induction s as [|a s IH]; [done |]. rewrite append_cons. simpl.
  rewrite bool_decide_eq_true_2 by done. exact IH.
Qed.

Lemma startsWith_split (s t : string) :
  startsWith s t = true → ∃ post, t = s +:+ post.
Proof.
  revert t. induction s as [|a s IH]; intros t H; simpl in *.
  - by exists t.
  - destruct t as [|b t]; [done |].
    apply andb_true_iff in H as [Hab Hst].
    apply bool_decide_eq_true_1 in Hab as ->.
    destruct (IH _ Hst) as [post ->]. by exists post.
Qed.

Lemma includes_startsWith (s t : string) :
  startsWith s t = true → includes s t = true.
Proof. intros H. destruct t; simpl; by rewrite H. Qed.

(** [includes] decides [contains]. *)
Lemma includes_contains (s t : string) : includes s t = true ↔ contains s t.
Proof.
  split.
  - induction t as [|b t IH]; simpl; intros H.
    + rewrite orb_false_r in H. apply startsWith_split in H as [post ->].
      by exists "", post.
    + apply orb_true_iff in H as [H | H].
      * apply startsWith_split in H as [post ->]. by exists "", post.
      * destruct (IH H) as (pre & post & ->). by exists (String b pre), post.
  - intros (pre & post & ->).
    induction pre as [|b pre IH].
    + rewrite append_nil_l. apply includes_startsWith, startsWith_append.
    + rewrite append_cons. simpl. rewrite IH. apply orb_true_r.
Qed.

Lemma contains_middle (pre s post : string) : contains s (pre +:+ s +:+ post).
Proof. by exists pre, post. Qed.

Lemma contains_prepend (pre s t : string) : contains s t → contains s (pre +:+ t).
Proof.
  intros (a & b & ->). exists (pre +:+ a), b. by rewrite append_assoc.
Qed.

Lemma contains_append (s t post : string) : contains s t → contains s (t +:+ post).
Proof.
  intros (a & b & ->). exists a, (b +:+ post). by rewrite !append_assoc.
Qed.

Lemma contains_head (s post : string) : contains s (s +:+ post).
Proof. by exists "", post. Qed.

Lemma contains_quoted (s : string) : contains s (quoted s).
Proof. unfold quoted. apply contains_prepend, contains_head. Qed.

(** ** The monad *)

Lemma bind_unfold {A B} (m : M A) (k : A → M B) (s : State) :
  (m ≫= k) s =
  match m s with
  | (Ok a, s') => k a s'
  | (Throw e, s') => (Throw e, s')
  | (Unmodelled, s') => (Unmodelled, s')
  | (OutOfFuel, s') => (OutOfFuel, s')
  end.
Proof. reflexivity. Qed.

Lemma bind_ok {A B} (m : M A) (k : A → M B) (s s' : State) (a : A) :
  m s = (Ok a, s') → (m ≫= k) s = k a s'.
Proof. intros H. by rewrite bind_unfold, H. Qed.

Lemma bind_throw {A B} (m : M A) (k : A → M B) (s s' : State) (e : Exn) :
  m s = (Throw e, s') → (m ≫= k) s = (Throw e, s').
Proof. intros H. by rewrite bind_unfold, H. Qed.

Lemma ret_run {A} (a : A) (s : State) : (mret a : M A) s = (Ok a, s).
Proof. reflexivity. Qed.

Lemma await_fulfilled (v : JVal) (s : State) : await (Fulfilled v) s = (Ok v, s).
Proof. reflexivity. Qed.

Lemma await_rejected (v : JVal) (s : State) :
  await (Rejected v) s = (Throw (Thrown v), s).
Proof. reflexivity. Qed.

(** ** Reading the heap *)

Lemma get_own_app (h ext : Heap) (v : JVal) (key : string) (r : JVal) :
  get_own h v key = Some r → get_own (h ++ ext) v key = Some r.
Proof.
  destruct v as [| | | | |l]; simpl; try done.
  destruct (h !! l) as [o|] eqn:E; [|done].
  by rewrite (lookup_app_l_Some _ _ _ _ E).
Qed.

Lemma member_name_not_inherited (key : string) :
  member_name key = true → inherited_name key = false.
Proof.
  unfold member_name. intros H. apply bool_decide_eq_true in H.
  repeat (apply elem_of_cons in H as [-> | H]; [reflexivity |]).
  by apply elem_of_nil in H.
Qed.

Lemma member_name_not_length (key : string) : member_name key = true → key ≠ "length".
Proof. by intros H ->. Qed.

Lemma own_props_app (h ext : Heap) (v : JVal) (props : list (string * JVal)) :
  own_props h v = Some props → own_props (h ++ ext) v = Some props.
Proof.
  destruct v as [| | | | |l]; simpl; try done.
  destruct (h !! l) as [o|] eqn:E; [|done].
  by rewrite (lookup_app_l_Some _ _ _ _ E).
Qed.

Lemma assigned_props_app (h ext : Heap) (v : JVal) (props : list (string * JVal)) :
  assigned_props h v = Some props → assigned_props (h ++ ext) v = Some props.
Proof.
  unfold assigned_props. intros H.
  destruct (own_props h v) as [p|] eqn:E; [|done].
  by rewrite (own_props_app _ _ _ _ E).
Qed.

Lemma assigned_props_is_Some (h : Heap) (v : JVal) :
  is_Some (assigned_props h v) ↔ is_Some (own_props h v).
Proof. unfold assigned_props. by rewrite fmap_is_Some. Qed.

(** A value without an own property [__proto__] is copied whole. *)
Lemma assigned_props_plain (h : Heap) (v : JVal) (props : list (string * JVal)) :
  own_props h v = Some props → assoc_get props "__proto__" = None →
  assigned_props h v = Some props.
Proof.
  unfold assigned_props. intros -> Hplain. simpl. f_equal.
  induction props as [|[k w] props IH]; [done |].
  simpl in Hplain. destruct (decide (k = "__proto__")) as [|Hk]; [done |].
  rewrite filter_cons_True by done. f_equal. by apply IH.
Qed.

Lemma readable_get_own (h : Heap) (v : JVal) (key : string) :
  member_name key = true → readable h v → is_Some (get_own h v key).
Proof.
  intros Hm. pose proof (member_name_not_inherited _ Hm) as Hi.
  pose proof (member_name_not_length _ Hm) as Hlen.
  assert (∀ o : option JVal,
    is_Some (match o with Some x => Some x | None => builtin key end)) as Hb.
  { intros [x|]; [by eexists |]. unfold builtin. rewrite Hm. by eexists. }
  destruct v as [| | | | |l]; simpl; try done;
    try (unfold builtin; rewrite Hm; by eexists).
  - intros _. by rewrite decide_False.
  - intros Hl. destruct (lookup_lt_is_Some_2 h l Hl) as [o ->].
    destruct o as [props|elems|f].
    + destruct (assoc_get props key); [by eexists |].
      unfold inherited. rewrite Hi. by eexists.
    + by rewrite decide_False.
    + unfold builtin. rewrite Hm. by eexists.
Qed.

Lemma getProp_run (v : JVal) (key : string) (s : State) (r : JVal) :
  v ≠ VUndef → v ≠ VNull → get_own (heap s) v key = Some r →
  getProp v key s = (Ok r, s).
Proof.
  intros Hu Hn H.
  assert (getProp v key s = (getHeap ≫= λ h, liftOpt (get_own h v key)) s) as ->
    by (by destruct v).
  rewrite bind_unfold. unfold getHeap. by rewrite H.
Qed.

(** A name that plain objects do not inherit is read off the record. *)
Lemma getProp_record (l : loc) (key : string) (s : State) (props : list (string * JVal)) :
  heap s !! l = Some (ORecord props) →
  inherited_name key = false →
  getProp (VRef l) key s = (Ok (default VUndef (assoc_get props key)), s).
Proof.
  intros H Hi. apply getProp_run; [done..|]. simpl. rewrite H.
  destruct (assoc_get props key); [done |]. unfold inherited. by rewrite Hi.
Qed.

(** So is an own property, whatever its name. *)
Lemma getProp_own (l : loc) (key : string) (s : State) (props : list (string * JVal))
    (x : JVal) :
  heap s !! l = Some (ORecord props) →
  assoc_get props key = Some x →
  getProp (VRef l) key s = (Ok x, s).
Proof. intros H Hx. apply getProp_run; [done..|]. simpl. by rewrite H, Hx. Qed.

Lemma getProp_lookup (l : loc) (key : string) (s : State) (props : list (string * JVal)) :
  heap s !! l = Some (ORecord props) →
  is_Some (assoc_get props key) ∨ inherited_name key = false →
  getProp (VRef l) key s = (Ok (default VUndef (assoc_get props key)), s).
Proof.
  intros H [[x Hx] | Hi]; [|by apply getProp_record].
  rewrite Hx. by eapply getProp_own.
Qed.

Lemma truthy_lookup (props : list (string * JVal)) (key : string) :
  truthy (default VUndef (assoc_get props key)) = true → is_Some (assoc_get props key).
Proof. by destruct (assoc_get props key). Qed.

Lemma getProp_entry (l : loc) (key : string) (s : State) (props : list (string * JVal)) :
  heap s !! l = Some (ORecord props) →
  (assoc_get props key = None → inherited_name key = false) →
  getProp (VRef l) key s = (Ok (default VUndef (assoc_get props key)), s).
Proof.
  intros H Hi. apply getProp_lookup; [done |].
  destruct (assoc_get props key); [left; by eexists | right; by apply Hi].
Qed.

Lemma objectKeys_run (v : JVal) (s : State) (props : list (string * JVal)) :
  v ≠ VUndef → v ≠ VNull → own_props (heap s) v = Some props →
  objectKeys v s = (Ok (props.*1), s).
Proof.
  intros Hu Hn H.
  assert (objectKeys v s =
          (getHeap ≫= λ h, liftOpt (own_props h v) ≫= λ props, mret (props.*1)) s) as ->
    by (by destruct v).
  rewrite bind_unfold. unfold getHeap. rewrite bind_unfold. by rewrite H.
Qed.

Lemma getProp_nullish (v : JVal) (key : string) (s : State) :
  v = VNull ∨ v = VUndef →
  ∃ msg, getProp v key s = (Throw (TypeError msg), s).
Proof. intros [-> | ->]; simpl; eauto. Qed.

Lemma newObject_run (s : State) :
  newObject s = (Ok (VRef (length (heap s))),
                 mkState (heap s ++ [ORecord []]) (trace s ++ [EvAlloc (length (heap s))])).
Proof. reflexivity. Qed.

Lemma readable_app (h ext : Heap) (v : JVal) : readable h v → readable (h ++ ext) v.
Proof. destruct v; simpl; try done. rewrite length_app. lia. Qed.

Lemma readable_not_nullish (h : Heap) (v : JVal) : readable h v → v ≠ VUndef ∧ v ≠ VNull.
Proof. by destruct v. Qed.

(** ** Tracing *)

Lemma logged_app (h ext : Heap) (context : JVal) (n : nat) (msg : string) :
  readable h context → logged (h ++ ext) context n msg = logged h context n msg.
Proof.
  intros Hr. unfold logged.
  destruct (readable_get_own h context "verbose" eq_refl Hr) as [flag Hflag].
  by rewrite (get_own_app _ _ _ _ _ Hflag), Hflag.
Qed.

Lemma verboseOf_run (context : JVal) (n : nat) (msg : string) (h : Heap) (tr : list Event) :
  readable h context →
  verboseOf context n msg (mkState h tr)
  = (Ok tt, mkState h (tr ++ logged h context n msg)).
Proof.
  intros Hr. destruct (readable_not_nullish _ _ Hr) as [Hu Hn].
  destruct (readable_get_own h context "verbose" eq_refl Hr) as [flag Hflag].
  unfold verboseOf, logged. rewrite Hflag.
  rewrite (bind_ok _ _ _ _ _ (getProp_run context "verbose" (mkState h tr) flag Hu Hn Hflag)).
  unfold verbose. destruct (truthy flag); [done |].
  by rewrite app_nil_r.
Qed.

Lemma invocations_app (tr1 tr2 : list Event) :
  invocations (tr1 ++ tr2) = invocations tr1 ++ invocations tr2.
Proof. apply omap_app. Qed.

Lemma invocations_logged (h : Heap) (context : JVal) (n : nat) (msg : string) :
  invocations (logged h context n msg) = [].
Proof.
  unfold logged. destruct (get_own h context "verbose") as [flag|]; [|done].
  by destruct (truthy flag).
Qed.

(** * The claims *)

(** ** C10: a [null] or [undefined] context *)

(** C10.  For every query with at least one operation and whatever the
    registry, [miniql] called with a context that is [null] or [undefined]
    throws a [TypeError] when it reads [context.verbose] for its first
    trace line: before any operation is looked at, and whether tracing is
    wanted or not.  All the run has done by then is allocate the output. *)
Theorem miniql_nullish_context_throws
    (natives : fid → JVal → list JVal → Heap → Settled * Heap)
    (fuel : nat) (rootQuery rootResolver context : JVal) (s : State)
    (operations : list (string * JVal)) :
  own_props (heap s) rootQuery = Some operations →
  operations ≠ [] →
  context = VNull ∨ context = VUndef →
  ∃ msg,
    miniql natives fuel rootQuery rootResolver context s
    = (Throw (TypeError msg),
       mkState (heap s ++ [ORecord []]) (trace s ++ [EvAlloc (length (heap s))])).
Proof.
  intros Hops Hne Hctx.
  assert (rootQuery ≠ VUndef ∧ rootQuery ≠ VNull) as [Hu Hn].
  { split; intros ->; simpl in Hops; by inversion Hops. }
  unfold miniql.
  rewrite (bind_ok _ _ _ _ _ (newObject_run s)).
  erewrite bind_ok by (apply objectKeys_run; [done..|]; by apply own_props_app).
  rewrite bool_decide_eq_false_2.
  2:{ destruct operations; [done | simpl; lia]. }
  destruct (getProp_nullish context "verbose"
              (mkState (heap s ++ [ORecord []]) (trace s ++ [EvAlloc (length (heap s))]))
              Hctx) as [msg Hmsg].
  exists msg. unfold verboseOf.
  erewrite bind_throw; [done |]. by erewrite bind_throw.
Qed.

(** ** C7: an operation the registry does not have *)

Lemma isObject_run (v : JVal) (s : State) : isObject v s = (Ok (t_isObject (heap s) v), s).
Proof. reflexivity. Qed.

Lemma isArray_run (v : JVal) (s : State) : isArray v s = (Ok (t_isArray (heap s) v), s).
Proof. reflexivity. Qed.

Lemma isFunction_run (v : JVal) (s : State) :
  isFunction v s = (Ok (t_isFunction (heap s) v), s).
Proof. reflexivity. Qed.

Lemma getQueryOperation_run (s : State) (lq lop : loc) (opName : string)
    (operations entries : list (string * JVal)) :
  heap s !! lq = Some (ORecord operations) →
  assoc_get operations opName = Some (VRef lop) →
  heap s !! lop = Some (ORecord entries) →
  getQueryOperation (VRef lq) opName s = (Ok (VRef lop), s).
Proof.
  intros Hq Hop Hlop. unfold getQueryOperation.
  rewrite (bind_ok _ _ _ _ _ (getProp_own _ _ _ _ _ Hq Hop)). simpl.
  rewrite (bind_ok _ _ _ _ _ (isObject_run _ _)). simpl. by rewrite Hlop.
Qed.

Lemma missing_operation_message_names (opName : string) :
  contains opName (createMissingQueryOperationErrorMessage opName)
  ∧ contains "resolver" (createMissingQueryOperationErrorMessage opName).
Proof.
  unfold createMissingQueryOperationErrorMessage. split.
  - do 2 apply contains_prepend. apply contains_append, contains_quoted.
  - do 3 apply contains_prepend.
    exists " is not supported by the ". eexists.
    change " is not supported by the resolver."
      with (" is not supported by the " +:+ "resolver" +:+ ".").
    by rewrite !append_assoc.
Qed.

(** C7, as stated, fails when the operation of the query is not there to
    be resolved: for the query [{ get: null }] and a registry without
    [get], the call is rejected because of the query, with a message that
    does not have the word "resolver". *)
Lemma null_operation_is_missing_from_query :
  (miniql sampleNatives 1 (VRef 0) (VRef 1) (VRef 2) (mkState heapM [])).1
  = Throw (Error ("Query operation " +:+ quoted "get" +:+ " is missing from query."))
  ∧ includes "resolver"
      ("Query operation " +:+ quoted "get" +:+ " is missing from query.") = false.
Proof. vm_compute. split; reflexivity. Qed.

(** C7, as amended.  A query with the single operation [opName], which
    is an object, run against a registry that has no entry for [opName],
    neither of its own nor inherited from [Object.prototype], and with a
    context that can be read, is rejected with an [Error] whose message
    contains the operation name and the word "resolver"; no resolver has
    been called by then. *)
Theorem miniql_missing_operation_resolver
    (natives : fid → JVal → list JVal → Heap → Settled * Heap)
    (fuel : nat) (s : State) (lq lop lr : loc) (opName : string)
    (entries registry : list (string * JVal)) (context : JVal) :
  heap s !! lq = Some (ORecord [(opName, VRef lop)]) →
  heap s !! lop = Some (ORecord entries) →
  heap s !! lr = Some (ORecord registry) →
  assoc_get registry opName = None →
  inherited_name opName = false →
  readable (heap s) context →
  ∃ msg s',
    miniql natives fuel (VRef lq) (VRef lr) context s = (Throw (Error msg), s')
    ∧ includes opName msg = true
    ∧ includes "resolver" msg = true
    ∧ invocations (trace s') = invocations (trace s).
Proof.
  intros Hq Hlop Hr Hnone Hplain Hctx. destruct s as [h tr]. simpl in *.
  exists (createMissingQueryOperationErrorMessage opName).
  eexists. split; [|split; [|split]].
  - unfold miniql.
    rewrite (bind_ok _ _ _ _ _ (newObject_run _)). simpl.
    erewrite bind_ok.
    2:{ apply objectKeys_run; [done..|]. simpl.
        by rewrite (lookup_app_l_Some _ _ _ _ Hq). }
    simpl.
    erewrite bind_ok by (apply verboseOf_run; by apply readable_app).
    erewrite bind_throw; [reflexivity |].
    erewrite bind_throw; [reflexivity |].
    unfold resolveOperation.
    erewrite bind_ok by (apply verboseOf_run; by apply readable_app).
    erewrite bind_ok.
    2:{ eapply getQueryOperation_run; simpl.
        - by apply lookup_app_l_Some.
        - simpl. by rewrite decide_True.
        - by apply lookup_app_l_Some. }
    erewrite bind_throw; [reflexivity |].
    unfold getOperationResolver.
    erewrite bind_ok.
    2:{ apply getProp_record; [|exact Hplain]. simpl. by apply lookup_app_l_Some. }
    rewrite Hnone. reflexivity.
  - apply includes_contains, missing_operation_message_names.
  - apply includes_contains, missing_operation_message_names.
  - simpl. rewrite !invocations_app, !invocations_logged. simpl.
    by rewrite !app_nil_r.
Qed.

(** ** Scenario runs *)

(** Scenario B with the nested query written [{}]: the output of the spec. *)
Example scenarioB_empty_object :
  outputTree (runB (VRef 0) (VRef 13) [] 1)
  = Some (TRecord [("user", TRecord [("id", TNum 1); ("name", TStr "Ann");
                                     ("posts", TArray [TRecord [("id", TNum 10)]])])]).
Proof. vm_compute. reflexivity. Qed.

(** ** C1: a [true] entry in a [resolve] map *)

(** C1, as stated, fails: with [resolve: { posts: true }] the call is
    rejected once the user has been resolved; there is no output. *)
Lemma scenarioB_true_is_rejected :
  (runB (VRef 0) (VBool true) [] 1).1
  = Throw (Error ("Unsupported type for " +:+ quoted "resolve" +:+ " field: boolean."))
  ∧ invocations (trace (runB (VRef 0) (VBool true) [] 1).2)
    = [mkInvocation 0 (VRef 9) [VRef 0; VRef 12] (Fulfilled (VRef 15))].
Proof. vm_compute. split; reflexivity. Qed.

(** ** Effects *)

Lemma alloc_run (o : Obj) (s : State) :
  alloc o s = (Ok (VRef (length (heap s))),
               mkState (heap s ++ [o]) (trace s ++ [EvAlloc (length (heap s))])).
Proof. reflexivity. Qed.

Lemma objectAssignEmpty_run (src : JVal) (h : Heap) (tr : list Event)
    (props : list (string * JVal)) :
  assigned_props h src = Some props →
  objectAssignEmpty src (mkState h tr)
  = (Ok (VRef (length h)), mkState (h ++ [ORecord props]) (tr ++ [EvAlloc (length h)])).
Proof.
  intros H. unfold objectAssignEmpty, getHeap.
  rewrite bind_unfold. simpl. rewrite bind_unfold, H. reflexivity.
Qed.

Lemma setProp_run (l : loc) (key : string) (v : JVal) (h : Heap) (tr : list Event)
    (props : list (string * JVal)) :
  h !! l = Some (ORecord props) →
  setProp (VRef l) key v (mkState h tr)
  = (Ok tt, mkState (<[l := ORecord (assign_prop props key v)]> h) (tr ++ [EvWrite l key v])).
Proof. intros H. unfold setProp. simpl. by rewrite H. Qed.

Lemma call_run (natives : fid → JVal → list JVal → Heap → Settled * Heap)
    (callee : string) (lf : loc) (f : fid) (this : JVal) (args : list JVal)
    (h : Heap) (tr : list Event) :
  h !! lf = Some (OFun f) →
  call natives callee (VRef lf) this args (mkState h tr)
  = (Ok (natives f this args h).1,
     mkState (natives f this args h).2
             (tr ++ [EvInvoke f this args (natives f this args h).1])).
Proof.
  intros H. unfold call. simpl. rewrite H.
  by destruct (natives f this args h).
Qed.

Lemma arrayElems_run (l : loc) (s : State) (elems : list JVal) :
  heap s !! l = Some (OArray elems) → arrayElems (VRef l) s = (Ok elems, s).
Proof.
  intros H. unfold arrayElems, getHeap. rewrite bind_unfold. by rewrite H.
Qed.

Lemma own_props_app_Some (h ext : Heap) (v : JVal) :
  is_Some (own_props h v) → own_props (h ++ ext) v = own_props h v.
Proof. intros [props H]. by rewrite (own_props_app _ _ _ _ H). Qed.

Lemma cloneEach_run (elems : list JVal) (h : Heap) (tr : list Event) (objs : list Obj) :
  copies h elems = Some objs →
  cloneEach elems (mkState h tr)
  = (Ok (fresh_refs (length h) (length elems)),
     mkState (h ++ objs) (tr ++ (EvAlloc <$> seq (length h) (length elems)))).
Proof.
  revert h tr objs. induction elems as [|e elems IH]; intros h tr objs H.
  - unfold copies in H. simpl in H. inversion H. simpl. by rewrite !app_nil_r.
  - unfold copies in H. rewrite mapM_Some in H.
    apply Forall2_cons_inv_l in H as (o & objs' & Ho & Hobjs & ->).
    destruct (assigned_props h e) as [props|] eqn:Hprops; [|done].
    simpl in Ho. inversion Ho; subst o. clear Ho.
    simpl. rewrite (bind_ok _ _ _ _ _ (objectAssignEmpty_run _ _ _ _ Hprops)).
    erewrite bind_ok.
    2:{ apply (IH (h ++ [ORecord props]) _ objs').
        unfold copies. rewrite mapM_Some.
        eapply Forall2_impl; [exact Hobjs |].
        intros x y Hxy. simpl in *.
        destruct (assigned_props h x) as [px|] eqn:Hx; [|done].
        by rewrite (assigned_props_app _ _ _ _ Hx). }
    rewrite length_app. simpl. rewrite Nat.add_1_r.
    by rewrite <- !app_assoc.
Qed.

Lemma own_props_valid (h : Heap) (e : JVal) (n : nat) :
  is_Some (own_props h e) → length h ≤ n → e ≠ VRef n.
Proof.
  intros [props H] Hn ->. simpl in H.
  rewrite (lookup_ge_None_2 h n Hn) in H. done.
Qed.

Lemma copies_Forall2 (h : Heap) (elems : list JVal) (objs : list Obj) :
  copies h elems = Some objs →
  Forall2 (λ e o, ∃ props, assigned_props h e = Some props ∧ o = ORecord props)
    elems objs.
Proof.
  unfold copies. rewrite mapM_Some. intros HF.
  eapply Forall2_impl; [exact HF |].
  intros e o H. simpl in H.
  destruct (assigned_props h e) as [props|] eqn:E; simplify_eq/=; eauto.
Qed.

Lemma copies_is_Some (h : Heap) (elems : list JVal) :
  Forall (λ e, is_Some (own_props h e)) elems → is_Some (copies h elems).
Proof.
  intros H. unfold copies. apply mapM_is_Some.
  eapply Forall_impl; [exact H |]. intros e He. simpl.
  apply assigned_props_is_Some in He as [props Hp]. rewrite Hp. by eexists.
Qed.

Lemma copies_copy_of (h : Heap) (elems : list JVal) (objs rest : list Obj) :
  copies h elems = Some objs →
  Forall2 (copy_of (length h) (h ++ objs ++ rest)) elems
    (fresh_refs (length h) (length elems)).
Proof.
  intros H. pose proof (copies_Forall2 _ _ _ H) as HF.
  apply Forall2_same_length_lookup. split.
  { unfold fresh_refs. by rewrite length_fmap, length_seq. }
  intros i e c He Hc.
  unfold fresh_refs in Hc. rewrite list_lookup_fmap in Hc.
  destruct (seq (length h) (length elems) !! i) as [n|] eqn:Hn; [|done].
  apply lookup_seq in Hn as [-> Hi]. simpl in Hc. inversion Hc; subst c. clear Hc.
  destruct (Forall2_lookup_l _ _ _ _ _ HF He) as (o & Ho & props & Hprops & ->).
  exists (length h + i), props. split; [done |]. split; [lia |]. split; [|split].
  - apply (own_props_valid h); [apply assigned_props_is_Some; by eexists | lia].
  - by apply assigned_props_app.
  - rewrite lookup_app_r by lia.
    replace (length h + i - length h) with i by lia.
    by apply lookup_app_l_Some.
Qed.

Lemma cloneEntity_run (r : JVal) (h : Heap) (tr : list Event) :
  clonable h r →
  ∃ objs lc,
    cloneEntity (t_isArray h r) r (mkState h tr)
    = (Ok (VRef lc),
       mkState (h ++ objs) (tr ++ (EvAlloc <$> seq (length h) (length objs))))
    ∧ length h ≤ lc < length h + length objs
    ∧ shallow_clone (length h) (h ++ objs) r (VRef lc).
Proof.
  intros Hr.
  assert (∀ props, assigned_props h r = Some props → t_isArray h r = false →
    ∃ objs lc,
      cloneEntity false r (mkState h tr)
      = (Ok (VRef lc),
         mkState (h ++ objs) (tr ++ (EvAlloc <$> seq (length h) (length objs))))
      ∧ length h ≤ lc < length h + length objs
      ∧ copy_of (length h) (h ++ objs) r (VRef lc)) as Hsingle.
  { intros props Hprops _. exists [ORecord props], (length h).
    unfold cloneEntity. rewrite (objectAssignEmpty_run _ _ _ _ Hprops).
    split; [done |]. split; [simpl; lia |].
    exists (length h), props. split; [done |]. split; [lia |]. split; [|split].
    - apply (own_props_valid h); [apply assigned_props_is_Some; by eexists | lia].
    - by apply assigned_props_app.
    - by rewrite lookup_app_r, Nat.sub_diag by lia. }
  destruct r as [| | | | |lr];
    try (destruct (Hsingle _ eq_refl eq_refl) as (objs & lc & ? & ? & ?);
         by exists objs, lc).
  simpl in Hr. unfold shallow_clone. simpl.
  destruct (h !! lr) as [[props|elems|f]|] eqn:Hlr; [| | |by destruct Hr].
  - destruct (Hsingle (filter (λ p, p.1 ≠ "__proto__") props))
      as (objs & lc & ? & ? & ?);
      [by unfold assigned_props; simpl; rewrite Hlr | by simpl; rewrite Hlr |].
    exists objs, lc. by rewrite (lookup_app_l_Some _ _ _ _ Hlr).
  - destruct (copies_is_Some _ _ Hr) as [objs Hobjs].
    pose proof (Forall2_length _ _ _ (copies_Forall2 _ _ _ Hobjs)) as Hlen.
    exists (objs ++ [OArray (fresh_refs (length h) (length elems))]),
           (length h + length elems).
    rewrite (lookup_app_l_Some _ _ _ _ Hlr). split; [|split].
    + unfold cloneEntity.
      rewrite (bind_ok _ _ _ _ _ (arrayElems_run lr (mkState h tr) elems Hlr)).
      rewrite (bind_ok _ _ _ _ _ (cloneEach_run _ _ _ _ Hobjs)).
      rewrite alloc_run. simpl.
      rewrite !length_app, <- Hlen. simpl.
      rewrite Nat.add_1_r, seq_S, fmap_app. simpl.
      by rewrite <- !app_assoc.
    + rewrite length_app. simpl. lia.
    + exists (length h + length elems), (fresh_refs (length h) (length elems)).
      split; [done |]. split; [lia |]. split; [|split].
      * apply lookup_lt_Some in Hlr. lia.
      * rewrite lookup_app_r by lia.
        rewrite lookup_app_r by lia.
        by replace (length h + length elems - length h - length objs) with 0 by lia.
      * by apply copies_copy_of.
  - destruct (Hsingle []) as (objs & lc & ? & ? & ?);
      [by unfold assigned_props; simpl; rewrite Hlr | by simpl; rewrite Hlr |].
    exists objs, lc. by rewrite (lookup_app_l_Some _ _ _ _ Hlr).
Qed.

(** ** Lookups *)

Lemma getGlobalEntityResolver_run (g : QueryGlobals)
    (name typeName outputLocation : string) (lvl : nat) (h : Heap) (tr : list Event)
    (lr : loc) (rprops : list (string * JVal)) (f : fid) :
  readable h (context g) →
  entity_resolver h (operationResolver g) name lr rprops f →
  getGlobalEntityResolver g name typeName outputLocation lvl (mkState h tr)
  = (Ok (VRef lr),
     mkState h (tr ++ logged h (context g) lvl
                   ("Getting global entity resolver " +:+ quoted name
                    +:+ " to resolve entity type " +:+ quoted typeName +:+ "."))).
Proof.
  intros Hctx (lop & resolvers & lf & Hop & Hlop & Hname & Hlr & Hinvoke & Hlf).
  unfold getGlobalEntityResolver. rewrite Hop.
  rewrite (bind_ok _ _ _ _ _ (verboseOf_run _ _ _ _ _ Hctx)).
  erewrite bind_ok by (by eapply getProp_own).
  simpl.
  erewrite bind_ok by (by apply getProp_record).
  rewrite Hinvoke. simpl.
  rewrite (bind_ok _ _ _ _ _ (isFunction_run _ _)). simpl. by rewrite Hlf.
Qed.

Lemma resolverName_run (lq : loc) (key name : string) (s : State)
    (qprops : list (string * JVal)) :
  heap s !! lq = Some (ORecord qprops) →
  resolver_name qprops key = Some name →
  resolverName (VRef lq) key s = (Ok name, s).
Proof.
  intros Hq Hname. unfold resolverName.
  rewrite (bind_ok _ _ _ _ _ (getProp_record _ "from" _ _ Hq eq_refl)).
  unfold resolver_name in Hname.
  destruct (default VUndef (assoc_get qprops "from")) as [| | | | |l];
    unfold toString; simpl in *; try (by rewrite Hname); by inversion Hname.
Qed.

Lemma argsOrEmpty_run (lq : loc) (h : Heap) (tr : list Event)
    (qprops : list (string * JVal)) :
  h !! lq = Some (ORecord qprops) →
  argsOrEmpty (VRef lq) (mkState h tr)
  = if truthy (args_of qprops)
    then (Ok (args_of qprops), mkState h tr)
    else (Ok (VRef (length h)),
          mkState (h ++ [ORecord []]) (tr ++ [EvAlloc (length h)])).
Proof.
  intros Hq. unfold argsOrEmpty.
  erewrite bind_ok by (by apply getProp_record).
  fold (args_of qprops). by destruct (truthy (args_of qprops)).
Qed.

Lemma argsOrEmpty_run' (lq : loc) (h : Heap) (tr : list Event)
    (qprops : list (string * JVal)) :
  h !! lq = Some (ORecord qprops) →
  argsOrEmpty (VRef lq) (mkState h tr)
  = (Ok (passed_args h qprops),
     mkState (args_heap h qprops) (tr ++ args_events h qprops)).
Proof.
  intros Hq. rewrite (argsOrEmpty_run _ _ _ _ Hq).
  unfold passed_args, args_heap, args_events.
  destruct (truthy (args_of qprops)); [|done]. by rewrite app_nil_r.
Qed.

Lemma args_heap_app (h : Heap) (qprops : list (string * JVal)) :
  ∃ ext, args_heap h qprops = h ++ ext.
Proof.
  unfold args_heap. destruct (truthy (args_of qprops)).
  - exists []. by rewrite app_nil_r.
  - by eexists.
Qed.

Lemma invocations_args_events (h : Heap) (qprops : list (string * JVal)) :
  invocations (args_events h qprops) = [].
Proof. unfold args_events. by destruct (truthy (args_of qprops)). Qed.

Lemma invocations_allocs (ls : list nat) : invocations (EvAlloc <$> ls) = [].
Proof. induction ls; [done | by simpl]. Qed.

Lemma clonable_persistent : persistent clonable.
Proof.
  intros h ext [| | | | |l]; simpl; try done.
  destruct (h !! l) as [o|] eqn:E; [|done].
  rewrite (lookup_app_l_Some _ _ _ _ E). destruct o; try done.
  intros HF. eapply Forall_impl; [exact HF |].
  intros e [props H]. rewrite (own_props_app _ _ _ _ H). by eexists.
Qed.

Lemma copy_of_weaken (n m : nat) (h : Heap) (e c : JVal) :
  copy_of n h e c → m ≤ n → copy_of m h e c.
Proof.
  intros (lc & props & -> & ? & ? & ? & ?) Hm. exists lc, props.
  repeat split; try done. lia.
Qed.

Lemma shallow_clone_weaken (n m : nat) (h : Heap) (r c : JVal) :
  shallow_clone n h r c → m ≤ n → shallow_clone m h r c.
Proof.
  intros H Hm. unfold shallow_clone in *.
  destruct r as [| | | | |lr]; try by eapply copy_of_weaken.
  destruct (h !! lr) as [[props|elems|f]|]; try by eapply copy_of_weaken.
  destruct H as (lc & clones & -> & ? & ? & ? & HF).
  exists lc, clones. repeat split; try done; [lia |].
  eapply Forall2_impl; [exact HF |]. intros e c He. by eapply copy_of_weaken.
Qed.

(** ** Records *)

Lemma assoc_get_set (props : list (string * JVal)) (key : string) (v : JVal) :
  assoc_get (assoc_set props key v) key = Some v.
Proof.
  induction props as [|[k w] props IH]; simpl.
  - by rewrite decide_True.
  - destruct (decide (k = key)) as [->|Hne]; simpl.
    + by rewrite decide_True.
    + by rewrite decide_False.
Qed.

Lemma assoc_get_set_ne (props : list (string * JVal)) (key key' : string) (v : JVal) :
  key ≠ key' → assoc_get (assoc_set props key v) key' = assoc_get props key'.
Proof.
  intros Hne. induction props as [|[k w] props IH]; simpl.
  - by rewrite decide_False.
  - destruct (decide (k = key)) as [->|Hk]; simpl.
    + by rewrite !decide_False.
    + destruct (decide (k = key')); [done | exact IH].
Qed.

Lemma assoc_get_None (props : list (string * JVal)) (key : string) :
  assoc_get props key = None ↔ key ∉ props.*1.
Proof.
  induction props as [|[k w] props IH]; simpl.
  - split; [intros _; apply not_elem_of_nil | done].
  - rewrite not_elem_of_cons. destruct (decide (k = key)) as [->|Hk].
    + split; [done | intros [? _]; done].
    + rewrite IH. split; [intros ?; split; [done | done] | intros [_ ?]; done].
Qed.

Lemma assoc_set_fresh (props : list (string * JVal)) (key : string) (v : JVal) :
  key ∉ props.*1 → assoc_set props key v = props ++ [(key, v)].
Proof.
  induction props as [|[k w] props IH]; simpl; [done |].
  rewrite not_elem_of_cons. intros [Hk Hin].
  rewrite decide_False by done. by rewrite IH.
Qed.

Lemma assoc_get_elem_of (props : list (string * JVal)) (key : string) (v : JVal) :
  NoDup props.*1 → (key, v) ∈ props → assoc_get props key = Some v.
Proof.
  induction props as [|[k w] props IH]; simpl; intros Hnd Hin.
  - by apply elem_of_nil in Hin.
  - apply NoDup_cons in Hnd as [Hk Hnd].
    apply elem_of_cons in Hin as [Heq | Hin].
    + inversion Heq; subst. by rewrite decide_True.
    + destruct (decide (k = key)) as [->|Hne]; [|by apply IH].
      exfalso. apply Hk. apply list_elem_of_fmap. by exists (key, v).
Qed.

(** *** Assignment *)

Lemma assoc_get_is_Some (props : list (string * JVal)) (key : string) :
  is_Some (assoc_get props key) ↔ key ∈ props.*1.
Proof.
  destruct (assoc_get props key) as [x|] eqn:E.
  - split; [intros _ | by eexists].
    destruct (decide (key ∈ props.*1)) as [|Hn]; [done |].
    apply assoc_get_None in Hn. congruence.
  - split; [by intros [? ?] |]. intros Hin. by apply assoc_get_None in E.
Qed.

Lemma assoc_set_keys_own (props : list (string * JVal)) (key : string) (v : JVal) :
  key ∈ props.*1 → (assoc_set props key v).*1 = props.*1.
Proof.
  induction props as [|[k w] props IH]; simpl; intros Hin.
  - by apply elem_of_nil in Hin.
  - destruct (decide (k = key)) as [->|Hk]; [done |]. simpl. f_equal.
    apply IH. apply elem_of_cons in Hin as [? | ?]; [congruence | done].
Qed.

Lemma index_value_index_like (k : string) : index_like k = false → index_value k = None.
Proof.
  destruct k as [|c k]; [done |]. unfold index_like, index_value.
  generalize (String c k). clear c k. intros k Hk.
  assert (∀ acc, digits_value acc k = None) as ->; [|done].
  induction k as [|c k IH]; [done |]. intros acc. simpl in *.
  destruct (Ascii.is_nat c); [by apply IH | done].
Qed.

Lemma ordinary_key_spec (k : string) :
  ordinary_key k = true → index_like k = false ∧ k ≠ "__proto__".
Proof.
  unfold ordinary_key. intros [H1 H2]%andb_true_iff.
  apply negb_true_iff in H1, H2. split; [done |]. by apply bool_decide_eq_false in H2.
Qed.

Lemma assoc_get_insert_index (props : list (string * JVal)) (n : N) (key : string)
    (v : JVal) :
  assoc_get props key = None → assoc_get (insert_index props n key v) key = Some v.
Proof.
  induction props as [|[k w] props IH]; simpl; intros Hnone.
  - by rewrite decide_True.
  - destruct (decide (k = key)) as [->|Hk]; [done |].
    destruct (index_value k) as [m|]; [destruct (m <? n)%N |]; simpl.
    + rewrite decide_False by done. by apply IH.
    + by rewrite decide_True.
    + by rewrite decide_True.
Qed.

Lemma assoc_get_insert_index_ne (props : list (string * JVal)) (n : N)
    (key key' : string) (v : JVal) :
  key ≠ key' → assoc_get (insert_index props n key v) key' = assoc_get props key'.
Proof.
  intros Hne. induction props as [|[k w] props IH]; simpl.
  - by rewrite decide_False.
  - destruct (index_value k) as [m|]; [destruct (m <? n)%N |]; simpl.
    + destruct (decide (k = key')); [done | exact IH].
    + by rewrite decide_False.
    + by rewrite decide_False.
Qed.

Lemma insert_index_keys (props : list (string * JVal)) (n : N) (key : string) (v : JVal) :
  (insert_index props n key v).*1 ≡ₚ (key :: props.*1).
Proof.
  induction props as [|[k w] props IH]; simpl; [done |].
  destruct (index_value k) as [m|]; [destruct (m <? n)%N |]; simpl; [|done..].
  rewrite IH. apply Permutation_swap.
Qed.

(** An ordinary key is replaced in place or added at the end. *)
Lemma assign_prop_ordinary (props : list (string * JVal)) (key : string) (v : JVal) :
  ordinary_key key = true → assign_prop props key v = assoc_set props key v.
Proof.
  intros [Hi Hp]%ordinary_key_spec. unfold assign_prop.
  destruct (assoc_get props key) eqn:E; [done |].
  rewrite decide_False by done. rewrite (index_value_index_like _ Hi).
  symmetry. apply assoc_set_fresh. by apply assoc_get_None.
Qed.

Lemma assign_prop_own (props : list (string * JVal)) (key : string) (v : JVal) :
  key ∈ props.*1 → assign_prop props key v = assoc_set props key v.
Proof.
  intros Hin. apply assoc_get_is_Some in Hin as [x Hx].
  unfold assign_prop. by rewrite Hx.
Qed.

(** Under [__proto__] a plain object gets no property. *)
Lemma assign_prop_proto (props : list (string * JVal)) (v : JVal) :
  "__proto__" ∉ props.*1 → assign_prop props "__proto__" v = props.
Proof.
  intros Hn. apply assoc_get_None in Hn. unfold assign_prop. by rewrite Hn.
Qed.

(** Under any other key it has the value afterwards. *)
Lemma assoc_get_assign (props : list (string * JVal)) (key : string) (v : JVal) :
  key ≠ "__proto__" → assoc_get (assign_prop props key v) key = Some v.
Proof.
  intros Hp. unfold assign_prop.
  destruct (assoc_get props key) eqn:E; [apply assoc_get_set |].
  rewrite decide_False by done.
  destruct (index_value key); [by apply assoc_get_insert_index |].
  rewrite <- (assoc_set_fresh props key v) by (by apply assoc_get_None).
  apply assoc_get_set.
Qed.

Lemma assoc_get_assign_ne (props : list (string * JVal)) (key key' : string) (v : JVal) :
  key ≠ key' → assoc_get (assign_prop props key v) key' = assoc_get props key'.
Proof.
  intros Hne. unfold assign_prop.
  destruct (assoc_get props key) eqn:E; [by apply assoc_get_set_ne |].
  destruct (decide (key = "__proto__")); [done |].
  destruct (index_value key); [by apply assoc_get_insert_index_ne |].
  rewrite <- (assoc_set_fresh props key v) by (by apply assoc_get_None).
  by apply assoc_get_set_ne.
Qed.

(** The keys of an object are kept, and at most [key] is added. *)
Lemma assign_prop_keys (props : list (string * JVal)) (key : string) (v : JVal) :
  ((assign_prop props key v).*1 ≡ₚ props.*1)
  ∨ ((key ∉ props.*1) ∧ (assign_prop props key v).*1 ≡ₚ (key :: props.*1)).
Proof.
  unfold assign_prop. destruct (assoc_get props key) eqn:E.
  - left. rewrite assoc_set_keys_own; [done |]. apply assoc_get_is_Some. by eexists.
  - apply assoc_get_None in E.
    destruct (decide (key = "__proto__")); [by left |]. right. split; [done |].
    destruct (index_value key); [apply insert_index_keys |].
    rewrite fmap_app. simpl. by rewrite Permutation_app_comm.
Qed.

Lemma assign_prop_keys_subseteq (props : list (string * JVal)) (key : string) (v : JVal) :
  props.*1 ⊆ (assign_prop props key v).*1.
Proof.
  destruct (assign_prop_keys props key v) as [H | [_ H]]; intros x Hx; rewrite H;
    [done | by right].
Qed.

Lemma assign_prop_nil (key : string) (v : JVal) :
  key ≠ "__proto__" → assign_prop [] key v = [(key, v)].
Proof.
  intros Hk. unfold assign_prop. simpl. rewrite decide_False by done.
  by destruct (index_value key).
Qed.

(** The root stage of [resolveRootEntity]: everything up to the hand-over
    to the nested stage, for an entity query whose resolver is registered
    and behaves. *)
Lemma resolveRootEntity_root_stage
    (natives : fid → JVal → list JVal → Heap → Settled * Heap)
    (P : Heap → JVal → Prop)
    (fuel : nat) (g : QueryGlobals) (lvl : nat) (key name : string)
    (h : Heap) (tr : list Event) (lop leq lo lr : loc)
    (entries qprops oprops rprops : list (string * JVal)) (f : fid) :
  h !! lop = Some (ORecord entries) →
  assoc_get entries key = Some (VRef leq) →
  h !! leq = Some (ORecord qprops) →
  resolver_name qprops key = Some name →
  entity_resolver h (operationResolver g) name lr rprops f →
  readable h (context g) →
  h !! lo = Some (ORecord oprops) →
  fulfils natives f (length h) P →
  persistent P →
  (∀ h r, P h r → clonable h r) →
  ∃ r lc hext tr',
    resolveRootEntity natives fuel (VRef lop) (VRef lo) key g lvl (mkState h tr)
    = resolveNestedEntities natives fuel (VRef leq) (VRef lc) name key g (lvl + 2)
        (mkState (<[lo := ORecord (assign_prop oprops key (VRef lc))]> (h ++ hext))
                 (tr ++ tr'))
    ∧ invocations tr'
      = [mkInvocation f (VRef lr) [passed_args h qprops; context g] (Fulfilled r)]
    ∧ last tr' = Some (EvWrite lo key (VRef lc))
    ∧ length h ≤ lc < length (h ++ hext)
    ∧ args_heap h qprops `prefix_of` h ++ hext
    ∧ P (h ++ hext) r
    ∧ shallow_clone (length h) (h ++ hext) r (VRef lc)
    ∧ (natives f (VRef lr) [passed_args h qprops; context g] (args_heap h qprops)).1
      = Fulfilled r.
Proof.
  intros Hlop Hkey Hleq Hname Hres Hctx Hlo Hf HP HPc.
  pose proof Hres as (lres & resolvers & lf & Hop & Hlres & Hrn & Hlr & Hinvoke & Hlf).
  destruct (args_heap_app h qprops) as [ext0 Hext0].
  destruct (Hf (VRef lr) [passed_args h qprops; context g] (args_heap h qprops))
    as (r & ext1 & Hnat & Hr).
  { rewrite Hext0, length_app. lia. }
  destruct (cloneEntity_run r (args_heap h qprops ++ ext1)
              (((((tr ++ logged h (context g) lvl
                     ("= Resolving root entity " +:+ quoted key +:+ "."))
                  ++ logged h (context g) (lvl + 1)
                     ("Getting global entity resolver " +:+ quoted name
                      +:+ " to resolve entity type " +:+ quoted key +:+ "."))
                 ++ args_events h qprops)
                ++ [EvInvoke f (VRef lr) [passed_args h qprops; context g] (Fulfilled r)])
               ++ logged (args_heap h qprops ++ ext1) (context g) (lvl + 1)
                    (if t_isArray (args_heap h qprops ++ ext1) r
                     then "Resolved an array of entities."
                     else "Resolved a single entity."))
              (HPc _ _ Hr))
    as (objs & lc & Hclone & Hlc & Hsh).
  exists r, lc, (ext0 ++ ext1 ++ objs). eexists.
  split; [|split; [|split; [|split; [|split; [|split; [|split]]]]]].
  - unfold resolveRootEntity.
    rewrite (bind_ok _ _ _ _ _ (verboseOf_run _ _ _ _ _ Hctx)).
    erewrite bind_ok by (by eapply getProp_own).
    simpl.
    rewrite (bind_ok _ _ _ _ _ (isObject_run _ _)). simpl. rewrite Hleq. simpl.
    erewrite bind_ok by (by eapply resolverName_run).
    erewrite bind_ok by (by eapply getGlobalEntityResolver_run).
    erewrite bind_ok by (by apply getProp_record).
    rewrite Hinvoke. simpl.
    erewrite bind_ok by (by apply argsOrEmpty_run').
    erewrite bind_ok.
    2:{ apply call_run. rewrite Hext0. by apply lookup_app_l_Some. }
    rewrite Hnat. simpl.
    rewrite (bind_ok _ _ _ _ _ (await_fulfilled _ _)).
    rewrite (bind_ok _ _ _ _ _ (isArray_run _ _)). simpl.
    erewrite bind_ok.
    2:{ apply verboseOf_run. rewrite Hext0, <- app_assoc. by apply readable_app. }
    rewrite (bind_ok _ _ _ _ _ Hclone).
    erewrite bind_ok.
    2:{ apply setProp_run. rewrite Hext0, <- !app_assoc. by apply lookup_app_l_Some. }
    rewrite Hext0, <- !app_assoc. reflexivity.
  - rewrite !invocations_app, !invocations_logged, invocations_args_events,
      invocations_allocs. done.
  - rewrite !app_assoc. apply last_snoc.
  - rewrite Hext0 in Hlc. rewrite !length_app in *. lia.
  - rewrite Hext0, app_assoc. by apply prefix_app_r.
  - rewrite !app_assoc, <- Hext0. apply HP. done.
  - rewrite !app_assoc, <- Hext0.
    eapply shallow_clone_weaken; [exact Hsh |].
    rewrite Hext0, !length_app. lia.
  - by rewrite Hnat.
Qed.

(** ** The nested stage of a query without relations *)

Lemma resolveNestedEntities_flat
    (natives : fid → JVal → list JVal → Heap → Settled * Heap)
    (fuel : nat) (lq : loc) (parentEntity : JVal) (pname ptype : string)
    (g : QueryGlobals) (lvl : nat) (s : State) (qprops : list (string * JVal)) :
  heap s !! lq = Some (ORecord qprops) →
  truthy (default VUndef (assoc_get qprops "resolve")) = false →
  resolveNestedEntities natives (S fuel) (VRef lq) parentEntity pname ptype g lvl s
  = (Ok tt, s).
Proof.
  intros Hq Hres. simpl.
  rewrite (bind_ok _ _ _ _ _ (getProp_record _ "resolve" _ _ Hq eq_refl)). by rewrite Hres.
Qed.

(** ** C3: [from] names the resolver, the query key names the output *)

Lemma sampleNatives_0_fulfils (n : nat) : fulfils sampleNatives 0 n is_entity.
Proof.
  intros this args h _. eexists _, _. split; [reflexivity |].
  left. eexists _, _. split; [reflexivity |].
  by rewrite lookup_app_r, Nat.sub_diag by lia.
Qed.

Lemma is_entity_persistent : persistent is_entity.
Proof.
  intros h ext v [(l & props & -> & Hl) | (l & elems & -> & Hl & Helems)].
  - left. exists l, props. split; [done |]. by apply lookup_app_l_Some.
  - right. exists l, elems. split; [done |]. split; [by apply lookup_app_l_Some |].
    eapply Forall_impl; [exact Helems |].
    intros e (le & props & -> & Hle). exists le, props.
    split; [done |]. by apply lookup_app_l_Some.
Qed.

Lemma is_entity_clonable (h : Heap) (r : JVal) : is_entity h r → clonable h r.
Proof.
  intros [(l & props & -> & Hl) | (l & elems & -> & Hl & Helems)]; simpl; rewrite Hl.
  - done.
  - eapply Forall_impl; [exact Helems |].
    intros e (le & props & -> & Hle). simpl. rewrite Hle. by eexists.
Qed.

Lemma fulfils_impl (natives : fid → JVal → list JVal → Heap → Settled * Heap)
    (f : fid) (n m : nat) (P Q : Heap → JVal → Prop) :
  (∀ h r, P h r → Q h r) → n ≤ m → fulfils natives f n P → fulfils natives f m Q.
Proof.
  intros HPQ Hnm Hf this args h Hh.
  destruct (Hf this args h) as (r & ext & Hn & HP); [lia |].
  exists r, ext. split; [done |]. by apply HPQ.
Qed.




(** ** C2: queries without relations *)

Lemma same_but_refl (lo : loc) (h : Heap) : same_but lo h h.
Proof. by intros l o _ H. Qed.

Lemma same_but_trans (lo : loc) (h1 h2 h3 : Heap) :
  same_but lo h1 h2 → same_but lo h2 h3 → same_but lo h1 h3.
Proof. intros H12 H23 l o Hl H. by apply H23, H12. Qed.

Lemma same_but_app (lo : loc) (h ext : Heap) : same_but lo h (h ++ ext).
Proof. intros l o _ H. by apply lookup_app_l_Some. Qed.

Lemma same_but_insert (lo : loc) (h : Heap) (o : Obj) : same_but lo h (<[lo := o]> h).
Proof. intros l o' Hl H. by rewrite list_lookup_insert_ne. Qed.

Lemma same_but_prefix (lo : loc) (h h' : Heap) : h `prefix_of` h' → same_but lo h h'.
Proof. intros [ext ->]. apply same_but_app. Qed.













Lemma same_but_lookup (lo : loc) (h h1 : Heap) (l : loc) (o : Obj) :
  same_but lo h h1 → length h ≤ lo → h !! l = Some o → h1 !! l = Some o.
Proof.
  intros Hs Hlo Hl. apply Hs; [|done]. apply lookup_lt_Some in Hl. lia.
Qed.

Lemma same_but_readable (lo : loc) (h h1 : Heap) (v : JVal) :
  same_but lo h h1 → length h ≤ lo → readable h v → readable h1 v.
Proof.
  intros Hs Hlo. destruct v as [| | | | |l]; simpl; try done.
  intros Hl. destruct (lookup_lt_is_Some_2 h l Hl) as [o Ho].
  eapply lookup_lt_Some, same_but_lookup; eauto.
Qed.

Lemma same_but_entity_resolver (lo : loc) (h h1 : Heap) (opres : JVal) (name : string)
    (lr : loc) (rprops : list (string * JVal)) (f : fid) :
  same_but lo h h1 → length h ≤ lo →
  entity_resolver h opres name lr rprops f → entity_resolver h1 opres name lr rprops f.
Proof.
  intros Hs Hlo (lop & resolvers & lf & -> & H1 & H2 & H3 & H4 & H5).
  exists lop, resolvers, lf. repeat split; try done; by eapply same_but_lookup.
Qed.


Lemma forEach_cons {A} (x : A) (xs : list A) (body : A → M unit) (s : State) :
  forEach (x :: xs) body s = (body x ≫= λ _, forEach xs body) s.
Proof. reflexivity. Qed.



Lemma getOperationResolver_run (s : State) (lr lres : loc) (opName : string)
    (registry resolvers : list (string * JVal)) :
  heap s !! lr = Some (ORecord registry) →
  assoc_get registry opName = Some (VRef lres) →
  heap s !! lres = Some (ORecord resolvers) →
  getOperationResolver (VRef lr) opName s = (Ok (VRef lres), s).
Proof.
  intros Hr Hop Hlres. unfold getOperationResolver.
  rewrite (bind_ok _ _ _ _ _ (getProp_own _ _ _ _ _ Hr Hop)). simpl.
  rewrite (bind_ok _ _ _ _ _ (isObject_run _ _)). simpl. by rewrite Hlres.
Qed.








(** ** Witnesses of C10 and C7 *)

Lemma miniql_nullish_context_throws_witness :
  ∃ msg,
    miniql sampleNatives 1 (VRef 4) (VRef 10) VUndef (mkState heapF [])
    = (Throw (TypeError msg), mkState (heapF ++ [ORecord []]) [EvAlloc 12]).
Proof.
  apply (miniql_nullish_context_throws sampleNatives 1 (VRef 4) (VRef 10) VUndef
           (mkState heapF []) [("get", VRef 3)]).
  - reflexivity.
  - discriminate.
  - right. reflexivity.
Defined.

Lemma miniql_missing_operation_resolver_witness :
  ∃ msg s',
    miniql sampleNatives 1 (VRef 2) (VRef 4) (VRef 5) (mkState heapE [])
    = (Throw (Error msg), s')
    ∧ includes "delete" msg = true
    ∧ includes "resolver" msg = true
    ∧ invocations (trace s') = [].
Proof.
  apply (miniql_missing_operation_resolver sampleNatives 1 (mkState heapE [])
           2 1 4 "delete" [("user", VRef 0)] [("get", VRef 3)] (VRef 5)).
  - reflexivity.
  - reflexivity.
  - reflexivity.
  - reflexivity.
  - reflexivity.
  - simpl. lia.
Defined.

(** ** The start of a nested resolution *)

Lemma invocations_startNested_logs (h : Heap) (g : QueryGlobals) (lvl : nat)
    (pname ptype rel : string) :
  invocations (startNested_logs h g lvl pname ptype rel) = [].
Proof.
  unfold startNested_logs. by rewrite invocations_app, !invocations_logged.
Qed.

Lemma startNestedEntity_run
    (natives : fid → JVal → list JVal → Heap → Settled * Heap)
    (lnq : loc) (parentEntity : JVal) (pname ptype rel name : string)
    (g : QueryGlobals) (lvl : nat) (h : Heap) (tr : list Event)
    (nqprops : list (string * JVal)) (lnr : loc) (f : fid) :
  h !! lnq = Some (ORecord nqprops) →
  resolver_name nqprops rel = Some name →
  nested_resolver h (operationResolver g) pname name lnr f →
  readable h (context g) →
  let args := [parentEntity; passed_args h nqprops; context g] in
  let r := natives f (VRef lnr) args (args_heap h nqprops) in
  startNestedEntity natives (VRef lnq) parentEntity pname ptype rel g lvl (mkState h tr)
  = (Ok (name, r.1),
     mkState r.2
       (tr ++ startNested_logs h g lvl pname ptype rel ++ args_events h nqprops
           ++ [EvInvoke f (VRef lnr) args r.1])).
Proof.
  intros Hq Hname (lr & rprops & f0 & lnested & nprops & nrprops & lf
    & Hres & Hnested & Hln & Hentry & Hlnr & Hinvoke & Hlf) Hctx args r.
  destruct (args_heap_app h nqprops) as [ext0 Hext0].
  pose proof Hres as (lres & resolvers & lf0 & Hop & Hlres & Hrn & Hlr & Hinvoke0 & Hlf0).
  unfold startNestedEntity.
  rewrite (bind_ok _ _ _ _ _ (verboseOf_run _ _ _ _ _ Hctx)).
  erewrite bind_ok by (by eapply getGlobalEntityResolver_run).
  erewrite bind_ok by (by eapply resolverName_run).
  erewrite bind_ok by (by apply getProp_record).
  rewrite Hnested. simpl.
  erewrite bind_ok by (by eapply getProp_own).
  simpl.
  erewrite bind_ok by (by apply getProp_record).
  rewrite Hinvoke. simpl.
  erewrite bind_ok by (by apply argsOrEmpty_run').
  erewrite bind_ok.
  2:{ apply call_run. rewrite Hext0. by apply lookup_app_l_Some. }
  unfold startNested_logs. subst r args. simpl.
  by rewrite <- !app_assoc.
Qed.

Lemma nested_messages_name (opName name pname : string) :
  (contains opName (missingNestedResolversMessage opName name pname)
   ∧ contains name (missingNestedResolversMessage opName name pname)
   ∧ contains pname (missingNestedResolversMessage opName name pname))
  ∧ (contains opName (missingNestedResolverMessage opName name pname)
     ∧ contains name (missingNestedResolverMessage opName name pname)
     ∧ contains pname (missingNestedResolverMessage opName name pname)).
Proof.
  unfold missingNestedResolversMessage, missingNestedResolverMessage.
  repeat split.
  - apply contains_prepend, contains_append, contains_quoted.
  - do 3 apply contains_prepend. apply contains_append, contains_quoted.
  - do 5 apply contains_prepend. apply contains_append, contains_quoted.
  - apply contains_prepend, contains_append, contains_quoted.
  - do 3 apply contains_prepend. apply contains_append, contains_quoted.
  - do 5 apply contains_prepend. apply contains_append, contains_quoted.
Qed.

(** ** C8: a nested resolver that cannot be found *)

Lemma truthy_not_nullish (v : JVal) : truthy v = true → v ≠ VUndef ∧ v ≠ VNull.
Proof. by destruct v. Qed.

(** C8, as amended.  When the lookup of the nested resolver fails, because
    the parent resolver has no [nested] map or because the map has no entry
    for the lookup name [from ?? relationName], neither of its own nor
    inherited from its prototype, [resolveNestedEntity] throws, before
    anything is called, an [Error] whose message names the operation, the
    lookup name and the parent resolver. *)
Theorem nested_lookup_failure_message
    (natives : fid → JVal → list JVal → Heap → Settled * Heap)
    (fuel : nat) (lnq : loc) (parentEntity : JVal) (pname ptype rel name : string)
    (g : QueryGlobals) (lvl : nat) (h : Heap) (tr : list Event)
    (nqprops : list (string * JVal)) (lr : loc) (rprops : list (string * JVal))
    (f0 : fid) :
  h !! lnq = Some (ORecord nqprops) →
  resolver_name nqprops rel = Some name →
  entity_resolver h (operationResolver g) pname lr rprops f0 →
  readable h (context g) →
  nested_lookup_fails h rprops name →
  ∃ msg,
    resolveNestedEntity natives fuel (VRef lnq) parentEntity pname ptype rel g lvl
      (mkState h tr)
    = (Throw (Error msg), mkState h (tr ++ startNested_logs h g lvl pname ptype rel))
    ∧ includes (opName g) msg = true
    ∧ includes name msg = true
    ∧ includes pname msg = true.
Proof.
  intros Hq Hname Hres Hctx Hfails.
  pose proof Hres as (lres & resolvers & lf0 & Hop & Hlres & Hrn & Hlr & Hinvoke0 & Hlf0).
  pose proof (nested_messages_name (opName g) name pname) as [Hplural Hsingular].
  unfold nested_lookup_fails in Hfails.
  set (nested := default VUndef (assoc_get rprops "nested")) in *.
  assert (∀ msg : string,
    startNestedEntity natives (VRef lnq) parentEntity pname ptype rel g lvl (mkState h tr)
    = (Throw (Error msg), mkState h (tr ++ startNested_logs h g lvl pname ptype rel)) →
    resolveNestedEntity natives fuel (VRef lnq) parentEntity pname ptype rel g lvl
      (mkState h tr)
    = (Throw (Error msg), mkState h (tr ++ startNested_logs h g lvl pname ptype rel)))
    as Hlift.
  { intros msg Hstart. unfold resolveNestedEntity. by erewrite bind_throw. }
  assert (∀ k : JVal → M (string * Settled),
    startNestedEntity natives (VRef lnq) parentEntity pname ptype rel g lvl (mkState h tr)
    = (getProp (VRef lr) "nested" ≫= λ nested,
         if negb (truthy nested)
         then throw (Error (missingNestedResolversMessage (opName g) name pname))
         else
           getProp nested name ≫= λ nestedEntityResolver,
           if bool_decide (nestedEntityResolver = VUndef)
           then throw (Error (missingNestedResolverMessage (opName g) name pname))
           else k nestedEntityResolver)
        (mkState h (tr ++ startNested_logs h g lvl pname ptype rel)) →
    ∃ msg,
      startNestedEntity natives (VRef lnq) parentEntity pname ptype rel g lvl
        (mkState h tr)
      = (Throw (Error msg), mkState h (tr ++ startNested_logs h g lvl pname ptype rel))
      ∧ includes (opName g) msg = true
      ∧ includes name msg = true
      ∧ includes pname msg = true) as Hcases.
  { intros k ->.
    erewrite bind_ok by (by apply getProp_record). fold nested.
    destruct (truthy nested) eqn:Htruthy; simpl.
    - destruct Hfails as [Hf | Hundef]; [congruence |].
      destruct (truthy_not_nullish _ Htruthy) as [Hu Hn].
      erewrite bind_ok by (by apply getProp_run). simpl.
      eexists. split; [reflexivity |].
      repeat split; apply includes_contains; apply Hsingular.
    - eexists. split; [reflexivity |].
      repeat split; apply includes_contains; apply Hplural. }
  edestruct Hcases as (msg & Hstart & Hincl).
  2:{ exists msg. split; [by apply Hlift | exact Hincl]. }
  unfold startNestedEntity.
  rewrite (bind_ok _ _ _ _ _ (verboseOf_run _ _ _ _ _ Hctx)).
  erewrite bind_ok by (by eapply getGlobalEntityResolver_run).
  erewrite bind_ok by (by eapply resolverName_run).
  unfold startNested_logs. rewrite <- !app_assoc. reflexivity.
Qed.

(** C8, as stated, fails: the relation [posts] is looked up under its
    [from] name, [articles], and the message names that, not [posts]. *)
Lemma nested_failure_names_the_lookup_name :
  (runB (VRef 0) (VRef 13) [("from", VStr "articles")] 1).1
  = Throw (Error (missingNestedResolverMessage "get" "articles" "user"))
  ∧ includes "posts" (missingNestedResolverMessage "get" "articles" "user") = false.
Proof. vm_compute. split; reflexivity. Qed.

Lemma nested_lookup_failure_message_witness :
  ∃ msg,
    resolveNestedEntity sampleNatives 1 (VRef 13) (VRef 0) "user" "user" "posts"
      (mkGlobals (VRef 10) "get" (VRef 12)) 4
      (mkState (heapB (VRef 0) (VRef 13) [("from", VStr "articles")] 1) [])
    = (Throw (Error msg),
       mkState (heapB (VRef 0) (VRef 13) [("from", VStr "articles")] 1) [])
    ∧ includes "get" msg = true
    ∧ includes "articles" msg = true
    ∧ includes "user" msg = true.
Proof.
  apply (nested_lookup_failure_message sampleNatives 1 13 (VRef 0) "user" "user" "posts"
           "articles" (mkGlobals (VRef 10) "get" (VRef 12)) 4
           (heapB (VRef 0) (VRef 13) [("from", VStr "articles")] 1) []
           [("from", VStr "articles")] 9 [("invoke", VRef 5); ("nested", VRef 8)] 0).
  - reflexivity.
  - reflexivity.
  - exists 10, [("user", VRef 9)], 5. by repeat split.
  - simpl. lia.
  - right. reflexivity.
Defined.

(** C1, as amended.  An entry of a [resolve] map that is not an object,
    [true] included, is rejected: the relation is not resolved, nothing is
    looked up or called for it, and the [Error] tells the type found
    ([boolean] for [true]). *)
Theorem resolve_entry_must_be_object
    (natives : fid → JVal → list JVal → Heap → Settled * Heap)
    (rec : JVal → JVal → string → string → QueryGlobals → nat → M unit)
    (le lres : loc) (parentEntity : JVal) (pname ptype rel : string)
    (g : QueryGlobals) (lvl : nat) (s : State)
    (qprops rprops : list (string * JVal)) (entry : JVal) :
  heap s !! le = Some (ORecord qprops) →
  assoc_get qprops "resolve" = Some (VRef lres) →
  heap s !! lres = Some (ORecord rprops) →
  assoc_get rprops rel = Some entry →
  t_isObject (heap s) entry = false →
  resolveRelation natives rec (VRef le) parentEntity pname ptype g lvl rel s
  = (Throw (Error ("Unsupported type for " +:+ quoted "resolve" +:+ " field: "
                   +:+ typeof (heap s) entry +:+ ".")), s).
Proof.
  intros Hq Hres Hlres Hentry Hobj. unfold resolveRelation.
  rewrite (bind_ok _ _ _ _ _ (getProp_record _ "resolve" _ _ Hq eq_refl)), Hres. simpl.
  rewrite (bind_ok _ _ _ _ _ (getProp_own _ _ _ _ _ Hlres Hentry)). simpl.
  rewrite (bind_ok _ _ _ _ _ (isObject_run _ _)), Hobj. simpl.
  reflexivity.
Qed.

Lemma resolve_entry_must_be_object_witness :
  resolveRelation sampleNatives (λ _ _ _ _ _ _, mret tt) (VRef 2) (VRef 0)
    "user" "user" (mkGlobals (VRef 10) "get" (VRef 12)) 4 "posts"
    (mkState (heapB (VRef 0) (VBool true) [] 1) [])
  = (Throw (Error ("Unsupported type for " +:+ quoted "resolve" +:+ " field: "
                   +:+ "boolean" +:+ ".")),
     mkState (heapB (VRef 0) (VBool true) [] 1) []).
Proof.
  apply (resolve_entry_must_be_object sampleNatives (λ _ _ _ _ _ _, mret tt) 2 1
           (VRef 0) "user" "user" "posts" (mkGlobals (VRef 10) "get" (VRef 12)) 4
           (mkState (heapB (VRef 0) (VBool true) [] 1) [])
           [("args", VRef 0); ("resolve", VRef 1)] [("posts", VBool true)] (VBool true));
    reflexivity.
Defined.

(** ** C9: a relation that resolves to nothing *)

(** C9, as stated, fails: the [posts] resolver returns [null] and the
    field is an empty object. *)
Lemma null_relation_becomes_an_object :
  outputTree (runB (VRef 0) (VRef 13) [] 3)
  = Some (TRecord [("user", TRecord [("id", TNum 1); ("name", TStr "Ann");
                                     ("posts", TRecord [])])]).
Proof. vm_compute. reflexivity. Qed.

(** C9, as amended.  When the nested resolver returns [null] or
    [undefined], [resolveNestedEntity] assigns a new empty object [{}] to
    the relation field of the parent; when it returns an empty array, a
    new empty array.  The parent has that object under the name of the
    relation from then on, unless the name is [__proto__].  The nested
    stage then goes on with that object as the parent, and there is
    nothing left to do when the nested query has no relations of its
    own. *)
Theorem empty_result_is_cloned
    (natives : fid → JVal → list JVal → Heap → Settled * Heap)
    (fuel : nat) (lnq lp : loc) (pname ptype rel name : string)
    (g : QueryGlobals) (lvl : nat) (h : Heap) (tr : list Event)
    (nqprops pprops : list (string * JVal)) (lnr : loc) (f : fid)
    (v : JVal) (ext : Heap) (o : Obj) :
  h !! lnq = Some (ORecord nqprops) →
  resolver_name nqprops rel = Some name →
  nested_resolver h (operationResolver g) pname name lnr f →
  readable h (context g) →
  h !! lp = Some (ORecord pprops) →
  lp ≠ lnq →
  natives f (VRef lnr) [VRef lp; passed_args h nqprops; context g] (args_heap h nqprops)
  = (Fulfilled v, args_heap h nqprops ++ ext) →
  empty_result (args_heap h nqprops ++ ext) v o →
  let h1 := args_heap h nqprops ++ ext in
  let c := VRef (length h1) in
  let s1 :=
    mkState (<[lp := ORecord (assign_prop pprops rel c)]> (h1 ++ [o]))
      (tr ++ startNested_logs h g lvl pname ptype rel ++ args_events h nqprops
          ++ [EvInvoke f (VRef lnr) [VRef lp; passed_args h nqprops; context g]
                (Fulfilled v);
              EvAlloc (length h1); EvWrite lp rel c]) in
  resolveNestedEntity natives fuel (VRef lnq) (VRef lp) pname ptype rel g lvl
    (mkState h tr)
  = resolveNestedEntities natives fuel (VRef lnq) c name rel g (lvl + 2) s1
  ∧ (rel ≠ "__proto__" → assoc_get (assign_prop pprops rel c) rel = Some c)
  ∧ (truthy (default VUndef (assoc_get nqprops "resolve")) = false → 0 < fuel →
     resolveNestedEntity natives fuel (VRef lnq) (VRef lp) pname ptype rel g lvl
       (mkState h tr)
     = (Ok tt, s1)).
Proof.
  intros Hq Hname Hnres Hctx Hlp Hne Hnat Hempty h1 c s1.
  destruct (args_heap_app h nqprops) as [ext0 Hext0].
  assert (resolveNestedEntity natives fuel (VRef lnq) (VRef lp) pname ptype rel g lvl
            (mkState h tr)
          = resolveNestedEntities natives fuel (VRef lnq) c name rel g (lvl + 2) s1)
    as Hrun.
  { unfold resolveNestedEntity.
    erewrite bind_ok by (by eapply startNestedEntity_run).
    rewrite Hnat. simpl. fold h1.
    unfold finishNestedEntity. simpl.
    rewrite (bind_ok _ _ _ _ _ (await_fulfilled _ _)).
    rewrite (bind_ok _ _ _ _ _ (isArray_run _ _)). simpl.
    assert (cloneEntity (t_isArray h1 v) v
              (mkState h1
                 (tr ++ startNested_logs h g lvl pname ptype rel ++ args_events h nqprops
                     ++ [EvInvoke f (VRef lnr)
                           [VRef lp; passed_args h nqprops; context g] (Fulfilled v)]))
            = (Ok c,
               mkState (h1 ++ [o])
                 ((tr ++ startNested_logs h g lvl pname ptype rel ++ args_events h nqprops
                      ++ [EvInvoke f (VRef lnr)
                            [VRef lp; passed_args h nqprops; context g] (Fulfilled v)])
                  ++ [EvAlloc (length h1)]))) as Hclone.
    { destruct Hempty as [[[-> | ->] ->] | (la & -> & Hla & ->)]; try reflexivity.
      change (h1 !! la = Some (OArray [])) in Hla.
      simpl. rewrite Hla. unfold cloneEntity.
      erewrite bind_ok by (by apply arrayElems_run). simpl.
      rewrite bind_unfold. simpl. rewrite alloc_run. simpl.
      reflexivity. }
    rewrite (bind_ok _ _ _ _ _ Hclone).
    erewrite bind_ok.
    2:{ apply setProp_run. apply lookup_app_l_Some. subst h1.
        rewrite Hext0, <- app_assoc. by apply lookup_app_l_Some. }
    unfold s1. by rewrite <- !app_assoc. }
  split; [exact Hrun |]. split; [apply assoc_get_assign |].
  intros Hflat Hfuel. rewrite Hrun. destruct fuel as [|fuel]; [lia |].
  eapply resolveNestedEntities_flat; [|exact Hflat]. simpl.
  rewrite list_lookup_insert_ne by done.
  apply lookup_app_l_Some. subst h1.
  rewrite Hext0, <- app_assoc. by apply lookup_app_l_Some.
Qed.

Lemma empty_result_is_cloned_witness :
  ∃ s1,
    resolveNestedEntity sampleNatives 1 (VRef 13) (VRef 0) "user" "user" "posts"
      (mkGlobals (VRef 10) "get" (VRef 12)) 4
      (mkState (heapB (VRef 0) (VRef 13) [] 3) [])
    = (Ok tt, s1)
    ∧ heap s1 !! 0 = Some (ORecord [("id", VNum 1); ("posts", VRef 15)])
    ∧ heap s1 !! 15 = Some (ORecord []).
Proof.
  destruct (empty_result_is_cloned sampleNatives 1 13 0 "user" "user" "posts" "posts"
              (mkGlobals (VRef 10) "get" (VRef 12)) 4
              (heapB (VRef 0) (VRef 13) [] 3) [] [] [("id", VNum 1)] 7 3
              VNull [] (ORecord []))
    as (_ & _ & Hrun).
  - reflexivity.
  - reflexivity.
  - exists 9, [("invoke", VRef 5); ("nested", VRef 8)], 0, 8, [("posts", VRef 7)],
      [("invoke", VRef 6)], 6.
    split; [|by repeat split].
    exists 10, [("user", VRef 9)], 5. by repeat split.
  - simpl. lia.
  - reflexivity.
  - lia.
  - reflexivity.
  - left. split; [by left | reflexivity].
  - eexists. split; [apply Hrun; [reflexivity | lia] |].
    split; reflexivity.
Defined.

(** ** C5: the arguments a resolver is called with *)

(** C5, as stated, fails: the root query has [args: 0]; the resolver is
    called with a new empty object (the object at address 15), not with
    [0]. *)
Lemma falsy_args_are_replaced :
  inv_args <$> invocations (trace (runB (VNum 0) (VRef 13) [] 1).2)
  = [[VRef 15; VRef 12]; [VRef 17; VRef 18; VRef 12]]
  ∧ heap (runB (VNum 0) (VRef 13) [] 1).2 !! 15 = Some (ORecord []).
Proof. vm_compute. split; reflexivity. Qed.

(** C5, as amended.  Root or nested, the resolver is called with
    [q.args || {}]: the value of [args] itself when it is truthy, and a new
    empty object when it is falsy ([undefined], [null], [false], [0],
    the empty string).  The root resolver is called on [(args, context)],
    the nested one on [(parent, args, context)]; both calls are the only
    ones made before the clone is taken. *)
Theorem invoke_receives_args_or_empty_object
    (natives : fid → JVal → list JVal → Heap → Settled * Heap)
    (fuel : nat) (g : QueryGlobals) (lvl : nat) (h : Heap) (tr : list Event)
    (lop leq lo lr : loc) (entries qprops oprops rprops : list (string * JVal))
    (f : fid) (key name : string)
    (lnq : loc) (nqprops : list (string * JVal)) (parentEntity : JVal)
    (pname ptype rel nname : string) (lnr : loc) (fn : fid) :
  h !! lop = Some (ORecord entries) →
  assoc_get entries key = Some (VRef leq) →
  h !! leq = Some (ORecord qprops) →
  resolver_name qprops key = Some name →
  entity_resolver h (operationResolver g) name lr rprops f →
  h !! lo = Some (ORecord oprops) →
  fulfils natives f (length h) clonable →
  h !! lnq = Some (ORecord nqprops) →
  resolver_name nqprops rel = Some nname →
  nested_resolver h (operationResolver g) pname nname lnr fn →
  readable h (context g) →
  (∃ r c s1 tr1,
     resolveRootEntity natives fuel (VRef lop) (VRef lo) key g lvl (mkState h tr)
     = resolveNestedEntities natives fuel (VRef leq) c name key g (lvl + 2) s1
     ∧ trace s1 = tr ++ tr1
     ∧ invocations tr1
       = [mkInvocation f (VRef lr) [passed_args h qprops; context g] (Fulfilled r)]
     ∧ (natives f (VRef lr) [passed_args h qprops; context g] (args_heap h qprops)).1
       = Fulfilled r)
  ∧ (∃ r s1 tr1,
       resolveNestedEntity natives fuel (VRef lnq) parentEntity pname ptype rel g lvl
         (mkState h tr)
       = finishNestedEntity (resolveNestedEntities natives fuel) (VRef lnq) parentEntity
           rel g lvl (nname, r) s1
       ∧ trace s1 = tr ++ tr1
       ∧ invocations tr1
         = [mkInvocation fn (VRef lnr)
              [parentEntity; passed_args h nqprops; context g] r]
       ∧ (natives fn (VRef lnr) [parentEntity; passed_args h nqprops; context g]
            (args_heap h nqprops)).1 = r)
  ∧ (∀ q, truthy (args_of q) = true → passed_args h q = args_of q ∧ args_heap h q = h)
  ∧ (∀ q, truthy (args_of q) = false →
       passed_args h q = VRef (length h)
       ∧ args_heap h q = h ++ [ORecord []]
       ∧ args_heap h q !! length h = Some (ORecord [])).
Proof.
  intros Hlop Hkey Hleq Hname Hres Hlo Hf Hlnq Hnname Hnres Hctx.
  split; [|split; [|split]].
  - destruct (resolveRootEntity_root_stage natives clonable fuel g lvl key name
                h tr lop leq lo lr entries qprops oprops rprops f)
      as (r & lc & hext & tr1 & Hrun & Hinv & _ & _ & _ & _ & _ & Hnat);
      try done.
    { apply clonable_persistent. }
    exists r, (VRef lc). eexists. exists tr1.
    split; [exact Hrun |]. by repeat split.
  - eexists _, _, _. split; [|split; [|split]].
    + unfold resolveNestedEntity.
      erewrite bind_ok by (by eapply startNestedEntity_run). reflexivity.
    + reflexivity.
    + rewrite !invocations_app, invocations_startNested_logs,
        invocations_args_events. reflexivity.
    + reflexivity.
  - intros q Hq. unfold passed_args, args_heap. by rewrite Hq.
  - intros q Hq. unfold passed_args, args_heap. rewrite Hq.
    repeat split. by rewrite lookup_app_r, Nat.sub_diag by lia.
Qed.

Lemma invoke_receives_args_or_empty_object_witness :
  let h := heapB (VNum 0) (VRef 13) [("args", VStr "x")] 1 ++ [ORecord []] in
  let g := mkGlobals (VRef 10) "get" (VRef 12) in
  (∃ r c s1 tr1,
     resolveRootEntity sampleNatives 1 (VRef 3) (VRef 14) "user" g 2 (mkState h [])
     = resolveNestedEntities sampleNatives 1 (VRef 2) c "user" "user" g 4 s1
     ∧ trace s1 = tr1
     ∧ invocations tr1 = [mkInvocation 0 (VRef 9) [VRef 15; VRef 12] (Fulfilled r)])
  ∧ (∃ r s1 tr1,
       resolveNestedEntity sampleNatives 1 (VRef 13) (VRef 0) "user" "user" "posts" g 2
         (mkState h [])
       = finishNestedEntity (resolveNestedEntities sampleNatives 1) (VRef 13) (VRef 0)
           "posts" g 2 ("posts", r) s1
       ∧ trace s1 = tr1
       ∧ invocations tr1 = [mkInvocation 1 (VRef 7) [VRef 0; VStr "x"; VRef 12] r]).
Proof.
  intros h g.
  destruct (invoke_receives_args_or_empty_object sampleNatives 1 g 2 h []
              3 2 14 9 [("user", VRef 2)] [("args", VNum 0); ("resolve", VRef 1)] []
              [("invoke", VRef 5); ("nested", VRef 8)] 0 "user" "user"
              13 [("args", VStr "x")] (VRef 0) "user" "user" "posts" "posts" 7 1)
    as (Hroot & Hnested & _ & _); try reflexivity.
  - exists 10, [("user", VRef 9)], 5. by repeat split.
  - apply (fulfils_impl _ _ 0 _ is_entity); [apply is_entity_clonable | lia |].
    apply sampleNatives_0_fulfils.
  - exists 9, [("invoke", VRef 5); ("nested", VRef 8)], 0, 8, [("posts", VRef 7)],
      [("invoke", VRef 6)], 6.
    split; [|by repeat split].
    exists 10, [("user", VRef 9)], 5. by repeat split.
  - simpl. lia.
  - split.
    + destruct Hroot as (r & c & s1 & tr1 & Hrun & Htr & Hinv & _).
      exists r, c, s1, tr1. by repeat split.
    + destruct Hnested as (r & s1 & tr1 & ? & Htr & Hinv & _).
      exists r, s1, tr1. by repeat split.
Defined.

(** ** What every effect does, every run does *)

(** A preorder on states that holds across the four effects of the engine
    (a trace line, an allocation, an assignment, a call) holds across
    every function of the engine.  The functions are taken in layers,
    so that a relation that only holds for some of the effects still gets
    the functions that only use those. *)
Section Closure.

Variable natives : fid → JVal → list JVal → Heap → Settled * Heap.
Variable R : State → State → Prop.
Hypothesis R_refl : ∀ s, R s s.
Hypothesis R_trans : ∀ s1 s2 s3, R s1 s2 → R s2 s3 → R s1 s3.

Lemma respects_ret {A} (a : A) : respects R (mret a : M A).
Proof. intros s. apply R_refl. Qed.

Lemma respects_bind {A B} (m : M A) (k : A → M B) :
  respects R m → (∀ a, respects R (k a)) → respects R (m ≫= k).
Proof.
  intros Hm Hk s. rewrite bind_unfold.
  specialize (Hm s). destruct (m s) as [[a|e| |] s']; simpl in *; try done.
  eapply R_trans; [exact Hm | apply Hk].
Qed.

Lemma respects_throw {A} (e : Exn) : respects R (throw e : M A).
Proof. intros s. apply R_refl. Qed.

Lemma respects_unmodelled {A} : respects R (unmodelled : M A).
Proof. intros s. apply R_refl. Qed.

Lemma respects_getHeap : respects R getHeap.
Proof. intros s. apply R_refl. Qed.

Lemma respects_liftOpt {A} (o : option A) : respects R (liftOpt o).
Proof. destruct o; [apply respects_ret | apply respects_unmodelled]. Qed.

Ltac respects_with leaf :=
  repeat first
    [ leaf
    | apply respects_ret
    | apply respects_throw
    | apply respects_unmodelled
    | apply respects_getHeap
    | apply respects_liftOpt
    | solve [auto]
    | match goal with
      | |- respects _ (_ ≫= _) => apply respects_bind; [| intros ?]
      end
    | match goal with
      | |- respects _ (if ?b then _ else _) => destruct b
      | |- respects _ (match ?x with _ => _ end) => destruct x
      end ].

Ltac respects_core := respects_with fail.

Lemma respects_getProp (v : JVal) (key : string) : respects R (getProp v key).
Proof. unfold getProp. respects_core. Qed.

Lemma respects_objectKeys (v : JVal) : respects R (objectKeys v).
Proof. unfold objectKeys. respects_core. Qed.

Lemma respects_arrayElems (v : JVal) : respects R (arrayElems v).
Proof. unfold arrayElems. respects_core. Qed.

Lemma respects_toString (v : JVal) : respects R (toString v).
Proof. unfold toString. respects_core. Qed.

Lemma respects_await (p : Settled) : respects R (await p).
Proof. unfold await. respects_core. Qed.

Lemma respects_forEach {A} (xs : list A) (body : A → M unit) :
  (∀ x, respects R (body x)) → respects R (forEach xs body).
Proof.
  intros Hbody. induction xs as [|x xs IH]; simpl.
  - apply respects_ret.
  - apply respects_bind; [apply Hbody | intros _; exact IH].
Qed.

Lemma respects_settle {A} (m : M A) : respects R m → respects R (settle m).
Proof.
  intros Hm s. unfold settle. specialize (Hm s).
  by destruct (m s) as [[a|e| |] s'].
Qed.

Lemma respects_mapTasks {A B} (xs : list A) (start : A → M B) :
  (∀ x, respects R (start x)) → respects R (mapTasks xs start).
Proof.
  intros Hstart. induction xs as [|x xs IH]; simpl.
  - apply respects_ret.
  - apply respects_bind; [apply respects_settle, Hstart | intros r].
    apply respects_bind; [exact IH | intros rs; apply respects_ret].
Qed.

Lemma respects_promiseAll {A B} (tasks : list (A * (Exn + B)))
    (finish : A → B → M unit) :
  (∀ x b, respects R (finish x b)) → respects R (promiseAll tasks finish).
Proof.
  intros Hfinish. unfold promiseAll. destruct (firstRejected tasks).
  - apply respects_throw.
  - apply respects_forEach. intros [x b]. apply Hfinish.
Qed.

(** *** Lookups: functions that at most write trace lines *)

Hypothesis R_log : ∀ line, respects R (emit (EvLog line)).

Lemma respects_verboseOf (context : JVal) (n : nat) (msg : string) :
  respects R (verboseOf context n msg).
Proof.
  unfold verboseOf. apply respects_bind.
  - apply respects_getProp.
  - intros flag. unfold verbose. destruct (truthy flag); [apply R_log | apply respects_ret].
Qed.

Ltac respects_tac :=
  respects_with
    ltac:(first [ apply respects_verboseOf
                | apply respects_getProp
                | apply respects_objectKeys
                | apply respects_arrayElems
                | apply respects_toString
                | apply respects_await ]).

Lemma respects_isObject (v : JVal) : respects R (isObject v).
Proof. unfold isObject. respects_tac. Qed.

Lemma respects_isArray (v : JVal) : respects R (isArray v).
Proof. unfold isArray. respects_tac. Qed.

Lemma respects_isFunction (v : JVal) : respects R (isFunction v).
Proof. unfold isFunction. respects_tac. Qed.

Lemma respects_getOperationResolver (rootResolver : JVal) (opName : string) :
  respects R (getOperationResolver rootResolver opName).
Proof.
  unfold getOperationResolver. pose proof respects_isObject. respects_tac.
Qed.

Lemma respects_getQueryOperation (rootQuery : JVal) (opName : string) :
  respects R (getQueryOperation rootQuery opName).
Proof.
  unfold getQueryOperation. pose proof respects_isObject. respects_tac.
Qed.

Lemma respects_getGlobalEntityResolver (g : QueryGlobals)
    (name typeName outputLocation : string) (lvl : nat) :
  respects R (getGlobalEntityResolver g name typeName outputLocation lvl).
Proof.
  unfold getGlobalEntityResolver. pose proof respects_isFunction. respects_tac.
Qed.

Lemma respects_resolverName (q : JVal) (name : string) :
  respects R (resolverName q name).
Proof. unfold resolverName. respects_tac. Qed.

(** *** Calls: functions that also allocate records and call resolvers *)

Hypothesis R_alloc_record : ∀ props, respects R (alloc (ORecord props)).
Hypothesis R_call : ∀ callee fn this args, respects R (call natives callee fn this args).

Lemma respects_argsOrEmpty (q : JVal) : respects R (argsOrEmpty q).
Proof. unfold argsOrEmpty, newObject. respects_tac. Qed.

Lemma respects_objectAssignEmpty (src : JVal) : respects R (objectAssignEmpty src).
Proof. unfold objectAssignEmpty. respects_tac. Qed.

Lemma respects_cloneEach (elems : list JVal) : respects R (cloneEach elems).
Proof.
  pose proof respects_objectAssignEmpty.
  induction elems as [|e elems IH]; simpl; respects_tac.
Qed.

Lemma respects_startNestedEntity (nestedEntityQuery parentEntity : JVal)
    (pname ptype rel : string) (g : QueryGlobals) (lvl : nat) :
  respects R (startNestedEntity natives nestedEntityQuery parentEntity pname ptype rel
                g lvl).
Proof.
  unfold startNestedEntity.
  pose proof respects_getGlobalEntityResolver.
  pose proof respects_resolverName.
  pose proof respects_argsOrEmpty.
  respects_tac.
Qed.

(** *** The whole engine *)

Hypothesis R_alloc : ∀ o, respects R (alloc o).
Hypothesis R_setProp : ∀ target key v, respects R (setProp target key v).

Lemma respects_cloneEntity (isArr : bool) (resolvedEntity : JVal) :
  respects R (cloneEntity isArr resolvedEntity).
Proof.
  unfold cloneEntity. pose proof respects_cloneEach.
  pose proof respects_objectAssignEmpty. respects_tac.
Qed.

Lemma respects_finishNestedEntity
    (rec : JVal → JVal → string → string → QueryGlobals → nat → M unit)
    (nestedEntityQuery parentEntity : JVal) (rel : string) (g : QueryGlobals)
    (lvl : nat) (started : string * Settled) :
  (∀ q p n t g' l, respects R (rec q p n t g' l)) →
  respects R (finishNestedEntity rec nestedEntityQuery parentEntity rel g lvl started).
Proof.
  intros Hrec. unfold finishNestedEntity.
  pose proof respects_isArray. pose proof respects_cloneEntity.
  respects_tac.
Qed.

Lemma respects_resolveRelation
    (rec : JVal → JVal → string → string → QueryGlobals → nat → M unit)
    (entityQuery parentEntity : JVal) (pname ptype : string) (g : QueryGlobals)
    (lvl : nat) (rel : string) :
  (∀ q p n t g' l, respects R (rec q p n t g' l)) →
  respects R (resolveRelation natives rec entityQuery parentEntity pname ptype g lvl rel).
Proof.
  intros Hrec. unfold resolveRelation.
  pose proof respects_isObject. pose proof respects_isArray.
  respects_tac.
  - apply respects_mapTasks. intros x. apply respects_startNestedEntity.
  - apply respects_promiseAll. intros x b. by apply respects_finishNestedEntity.
  - apply respects_startNestedEntity.
  - by apply respects_finishNestedEntity.
Qed.

Lemma respects_resolveNestedEntities (fuel : nat) (entityQuery parentEntity : JVal)
    (pname ptype : string) (g : QueryGlobals) (lvl : nat) :
  respects R (resolveNestedEntities natives fuel entityQuery parentEntity pname ptype
                g lvl).
Proof.
  revert entityQuery parentEntity pname ptype g lvl.
  induction fuel as [|fuel IH]; intros; simpl.
  - intros s. apply R_refl.
  - respects_tac. apply respects_forEach. intros rel.
    by apply respects_resolveRelation.
Qed.

Lemma respects_resolveNestedEntity (fuel : nat) (nestedEntityQuery parentEntity : JVal)
    (pname ptype rel : string) (g : QueryGlobals) (lvl : nat) :
  respects R (resolveNestedEntity natives fuel nestedEntityQuery parentEntity pname ptype
                rel g lvl).
Proof.
  unfold resolveNestedEntity. apply respects_bind.
  - apply respects_startNestedEntity.
  - intros started. apply respects_finishNestedEntity.
    intros. apply respects_resolveNestedEntities.
Qed.

Lemma respects_resolveRootEntity (fuel : nat) (queryOperation output : JVal)
    (entityTypeName : string) (g : QueryGlobals) (lvl : nat) :
  respects R (resolveRootEntity natives fuel queryOperation output entityTypeName g lvl).
Proof.
  unfold resolveRootEntity.
  pose proof respects_isObject. pose proof respects_isArray.
  pose proof respects_resolverName. pose proof respects_getGlobalEntityResolver.
  pose proof respects_argsOrEmpty. pose proof respects_cloneEntity.
  pose proof respects_resolveNestedEntities.
  respects_tac.
Qed.

Lemma respects_resolveOperation (fuel : nat)
    (rootQuery rootResolver context output : JVal) (opName : string) :
  respects R (resolveOperation natives fuel rootQuery rootResolver context output opName).
Proof.
  unfold resolveOperation.
  pose proof respects_getQueryOperation. pose proof respects_getOperationResolver.
  respects_tac. apply respects_forEach. intros key. apply respects_resolveRootEntity.
Qed.

Lemma respects_miniql (fuel : nat) (rootQuery rootResolver context : JVal) :
  respects R (miniql natives fuel rootQuery rootResolver context).
Proof.
  unfold miniql, newObject. respects_tac.
  apply respects_forEach. intros opName. apply respects_resolveOperation.
Qed.

End Closure.

(** ** The trace grows *)

Lemma trace_grows_refl (s : State) : trace_grows s s.
Proof. by unfold trace_grows. Qed.

Lemma trace_grows_trans (s1 s2 s3 : State) :
  trace_grows s1 s2 → trace_grows s2 s3 → trace_grows s1 s3.
Proof. unfold trace_grows. intros. by etrans. Qed.

Lemma trace_grows_emit (e : Event) : respects trace_grows (emit e).
Proof. intros s. by apply prefix_app_r. Qed.

Lemma trace_grows_alloc (o : Obj) : respects trace_grows (alloc o).
Proof. intros s. by apply prefix_app_r. Qed.

Lemma trace_grows_setProp (target : JVal) (key : string) (v : JVal) :
  respects trace_grows (setProp target key v).
Proof.
  intros s. unfold setProp, trace_grows.
  destruct target as [| | | | |l]; try done.
  destruct (heap s !! l) as [[props|elems|f]|]; try done.
  by apply prefix_app_r.
Qed.

Lemma trace_grows_call (natives : fid → JVal → list JVal → Heap → Settled * Heap)
    (callee : string) (fn this : JVal) (args : list JVal) :
  respects trace_grows (call natives callee fn this args).
Proof.
  intros s. unfold call, trace_grows.
  destruct fn as [| | | | |l]; try done.
  destruct (heap s !! l) as [[props|elems|f]|]; try done.
  destruct (natives f this args (heap s)). by apply prefix_app_r.
Qed.

Lemma trace_grows_resolveNestedEntities
    (natives : fid → JVal → list JVal → Heap → Settled * Heap)
    (fuel : nat) (entityQuery parentEntity : JVal) (pname ptype : string)
    (g : QueryGlobals) (lvl : nat) :
  respects trace_grows
    (resolveNestedEntities natives fuel entityQuery parentEntity pname ptype g lvl).
Proof.
  apply respects_resolveNestedEntities;
    first [ exact trace_grows_refl | exact trace_grows_trans
          | intros; apply trace_grows_emit | intros; apply trace_grows_alloc
          | intros; apply trace_grows_setProp | intros; apply trace_grows_call ].
Qed.

Lemma trace_grows_miniql
    (natives : fid → JVal → list JVal → Heap → Settled * Heap)
    (fuel : nat) (rootQuery rootResolver context : JVal) :
  respects trace_grows (miniql natives fuel rootQuery rootResolver context).
Proof.
  apply respects_miniql;
    first [ exact trace_grows_refl | exact trace_grows_trans
          | intros; apply trace_grows_emit | intros; apply trace_grows_alloc
          | intros; apply trace_grows_setProp | intros; apply trace_grows_call ].
Qed.

(** ** The heap is extended *)

Lemma assoc_set_keys (props : list (string * JVal)) (key : string) (v : JVal) :
  props.*1 ⊆ (assoc_set props key v).*1.
Proof.
  induction props as [|[k w] props IH]; simpl.
  - apply list_subseteq_nil.
  - destruct (decide (k = key)); simpl; [done |].
    intros x [-> | Hx]%elem_of_cons; [left | right; by apply IH].
Qed.

Lemma extends_refl (s : State) : extends s s.
Proof.
  exists []. rewrite app_nil_r. repeat split; try done.
  - intros l Hl. by apply elem_of_nil in Hl.
  - intros l o Hl. by left.
Qed.

Lemma extends_trans (s1 s2 s3 : State) : extends s1 s2 → extends s2 s3 → extends s1 s3.
Proof.
  intros (tr1 & Htr1 & Hlen1 & Halloc1 & Hobj1) (tr2 & Htr2 & Hlen2 & Halloc2 & Hobj2).
  exists (tr1 ++ tr2). split; [|split; [|split]].
  - by rewrite Htr2, Htr1, app_assoc.
  - lia.
  - intros l [Hl | Hl]%elem_of_app; [by apply Halloc1 |].
    apply Halloc2 in Hl. lia.
  - intros l o Hl.
    destruct (Hobj1 l o Hl) as [Hsame | (Hw & props & props' & -> & Hl2 & Hsub)].
    + destruct (Hobj2 l o Hsame) as [Hsame' | (Hw & props & props' & -> & Hl3 & Hsub)].
      * by left.
      * right. split.
        { destruct Hw as (k & v & Hin). exists k, v. apply elem_of_app. by right. }
        by exists props, props'.
    + right. split.
      { destruct Hw as (k & v & Hin). exists k, v. apply elem_of_app. by left. }
      destruct (Hobj2 l _ Hl2) as [Hsame' | (_ & p & p' & Heq & Hl3 & Hsub')].
      * by exists props, props'.
      * inversion Heq; subst p. exists props, p'.
        split; [done |]. split; [done |]. by etrans.
Qed.

Lemma extends_emit_log (line : string) : respects extends (emit (EvLog line)).
Proof.
  intros s. exists [EvLog line]. repeat split; try done.
  - intros l Hl. apply list_elem_of_singleton in Hl. discriminate.
  - intros l o Hl. by left.
Qed.

Lemma extends_alloc (o : Obj) : respects extends (alloc o).
Proof.
  intros s. exists [EvAlloc (length (heap s))]. simpl. repeat split.
  - rewrite length_app. lia.
  - intros l Hl. apply list_elem_of_singleton in Hl. inversion Hl. lia.
  - intros l o' Hl. left. by apply lookup_app_l_Some.
Qed.

Lemma extends_setProp (target : JVal) (key : string) (v : JVal) :
  respects extends (setProp target key v).
Proof.
  intros s. unfold setProp.
  destruct target as [| | | | |l]; try apply extends_refl.
  destruct (heap s !! l) as [[props|elems|f]|] eqn:Hl; try apply extends_refl.
  exists [EvWrite l key v]. simpl. repeat split.
  - by rewrite length_insert.
  - intros l' Hl'. apply list_elem_of_singleton in Hl'. discriminate.
  - intros l' o Hl'. destruct (decide (l' = l)) as [->|Hne].
    + right. split; [exists key, v; by apply list_elem_of_singleton |].
      rewrite Hl in Hl'. inversion Hl'; subst o.
      exists props, (assign_prop props key v). split; [done |]. split.
      * apply list_lookup_insert_eq. by eapply lookup_lt_Some.
      * apply assign_prop_keys_subseteq.
    + left. by rewrite list_lookup_insert_ne.
Qed.

Lemma extends_call (natives : fid → JVal → list JVal → Heap → Settled * Heap)
    (callee : string) (fn this : JVal) (args : list JVal) :
  only_allocate natives → respects extends (call natives callee fn this args).
Proof.
  intros Hnat s. unfold call.
  destruct fn as [| | | | |l]; try apply extends_refl.
  destruct (heap s !! l) as [[props|elems|f]|] eqn:Hl; try apply extends_refl.
  destruct (Hnat f this args (heap s)) as [ext Hext].
  destruct (natives f this args (heap s)) as [r h'] eqn:Hcall. simpl in *. subst h'.
  exists [EvInvoke f this args r]. split; [done |]. split; [|split].
  - simpl. rewrite length_app. lia.
  - intros l' Hl'. apply list_elem_of_singleton in Hl'. discriminate.
  - intros l' o Hl'. left. by apply lookup_app_l_Some.
Qed.

Lemma extends_resolveNestedEntities
    (natives : fid → JVal → list JVal → Heap → Settled * Heap)
    (fuel : nat) (entityQuery parentEntity : JVal) (pname ptype : string)
    (g : QueryGlobals) (lvl : nat) :
  only_allocate natives →
  respects extends
    (resolveNestedEntities natives fuel entityQuery parentEntity pname ptype g lvl).
Proof.
  intros Hnat. apply respects_resolveNestedEntities;
    first [ exact extends_refl | exact extends_trans
          | intros; apply extends_emit_log | intros; apply extends_alloc
          | intros; apply extends_setProp | intros; by apply extends_call ].
Qed.

Lemma extends_miniql
    (natives : fid → JVal → list JVal → Heap → Settled * Heap)
    (fuel : nat) (rootQuery rootResolver context : JVal) :
  only_allocate natives →
  respects extends (miniql natives fuel rootQuery rootResolver context).
Proof.
  intros Hnat. apply respects_miniql;
    first [ exact extends_refl | exact extends_trans
          | intros; apply extends_emit_log | intros; apply extends_alloc
          | intros; apply extends_setProp | intros; by apply extends_call ].
Qed.

(** ** The engine assigns to its own objects only *)

Lemma owned_monotone (v : JVal) : monotone (λ tr, owned tr v).
Proof.
  intros tr tr' [ext ->] (l & -> & Hl). exists l. split; [done |].
  apply elem_of_app. by left.
Qed.

Lemma Forall_owned_monotone (vs : list JVal) : monotone (λ tr, Forall (owned tr) vs).
Proof.
  intros tr tr' Hpre HF. eapply Forall_impl; [exact HF |].
  intros v. by apply owned_monotone.
Qed.

Lemma monotone_and (P Q : list Event → Prop) :
  monotone P → monotone Q → monotone (λ tr, P tr ∧ Q tr).
Proof. intros HP HQ tr tr' Hpre [? ?]. split; [by eapply HP | by eapply HQ]. Qed.

Lemma monotone_True : monotone (λ _, True).
Proof. done. Qed.

Lemma writes_owned_snoc (tr : list Event) (e : Event) :
  writes_owned tr →
  (∀ l key v, e = EvWrite l key v → owned tr (VRef l) ∧ owned tr v) →
  writes_owned (tr ++ [e]).
Proof.
  intros Hw He pre l key v post Heq.
  destruct post as [|e' post _] using rev_ind.
  - apply app_inj_tail in Heq as [-> ->]. by eapply He.
  - rewrite app_comm_cons, app_assoc in Heq.
    apply app_inj_tail in Heq as [Heq _]. by eapply Hw.
Qed.

Lemma keeps_refl (s : State) : keeps s s.
Proof. by intros H. Qed.

Lemma keeps_trans (s1 s2 s3 : State) : keeps s1 s2 → keeps s2 s3 → keeps s1 s3.
Proof.
  intros H12 H23 H1. destruct (H12 H1) as [H2 Hp12].
  destruct (H23 H2) as [H3 Hp23]. split; [done | by etrans].
Qed.

Lemma keeps_emit_log (line : string) : respects keeps (emit (EvLog line)).
Proof.
  intros s (Hw & Hin & Harr). split; [|by apply prefix_app_r].
  split; [|split]; simpl.
  - apply writes_owned_snoc; [done | by intros].
  - intros l [Hl | Hl]%elem_of_app; [by apply Hin |].
    apply list_elem_of_singleton in Hl. discriminate.
  - intros l elems [Hl | Hl]%elem_of_app Hel.
    + eapply Forall_owned_monotone; [by apply prefix_app_r | by eapply Harr].
    + apply list_elem_of_singleton in Hl. discriminate.
Qed.

(** An allocation keeps the invariant when an array it allocates holds
    allocated objects. *)
Lemma disciplined_alloc (o : Obj) (s : State) :
  disciplined s →
  (∀ elems, o = OArray elems → Forall (owned (trace s)) elems) →
  disciplined (alloc o s).2.
Proof.
  intros (Hw & Hin & Harr) Ho. split; [|split]; simpl.
  - apply writes_owned_snoc; [done | by intros].
  - intros l [Hl | Hl]%elem_of_app.
    + apply Hin in Hl. rewrite length_app. lia.
    + apply list_elem_of_singleton in Hl. inversion Hl. rewrite length_app. simpl. lia.
  - intros l elems [Hl | Hl]%elem_of_app Hel.
    + pose proof (Hin l Hl) as Hlt. rewrite lookup_app_l in Hel by done.
      eapply Forall_owned_monotone; [by apply prefix_app_r | by eapply Harr].
    + apply list_elem_of_singleton in Hl. inversion Hl; subst l.
      rewrite lookup_app_r, Nat.sub_diag in Hel by lia. simpl in Hel.
      inversion Hel; subst o.
      eapply Forall_owned_monotone; [by apply prefix_app_r | by apply Ho].
Qed.

Lemma keeps_alloc_record (props : list (string * JVal)) :
  respects keeps (alloc (ORecord props)).
Proof.
  intros s Hs. split; [|by apply prefix_app_r].
  apply disciplined_alloc; [done | by intros].
Qed.

Lemma keeps_call (natives : fid → JVal → list JVal → Heap → Settled * Heap)
    (callee : string) (fn this : JVal) (args : list JVal) :
  only_allocate natives → respects keeps (call natives callee fn this args).
Proof.
  intros Hnat s. unfold call.
  destruct fn as [| | | | |l]; try apply keeps_refl.
  destruct (heap s !! l) as [[props|elems|f]|] eqn:Hl; try apply keeps_refl.
  destruct (Hnat f this args (heap s)) as [ext Hext].
  destruct (natives f this args (heap s)) as [r h'] eqn:Hcall. simpl in *. subst h'.
  intros (Hw & Hin & Harr). split; [|by apply prefix_app_r].
  split; [|split]; simpl.
  - apply writes_owned_snoc; [done | by intros].
  - intros l' [Hl' | Hl']%elem_of_app.
    + apply Hin in Hl'. rewrite length_app. lia.
    + apply list_elem_of_singleton in Hl'. discriminate.
  - intros l' elems [Hl' | Hl']%elem_of_app Hel.
    + pose proof (Hin l' Hl') as Hlt. rewrite lookup_app_l in Hel by done.
      eapply Forall_owned_monotone; [by apply prefix_app_r | by eapply Harr].
    + apply list_elem_of_singleton in Hl'. discriminate.
Qed.

Lemma hoare_bind {A B} (P : list Event → Prop) (m : M A) (k : A → M B)
    (Q : A → list Event → Prop) (Q' : B → list Event → Prop) :
  hoare P m Q → (∀ a, hoare (Q a) (k a) Q') → hoare P (m ≫= k) Q'.
Proof.
  intros Hm Hk s Hs HP. rewrite bind_unfold.
  destruct (Hm s Hs HP) as (Hs' & Hpre & HQ).
  destruct (m s) as [[a|e| |] s']; simpl in *; try done.
  destruct (Hk a s' Hs' (HQ a eq_refl)) as (Hs'' & Hpre' & HQ').
  split; [done |]. split; [by etrans | done].
Qed.

Lemma hoare_conseq {A} (P P' : list Event → Prop) (m : M A)
    (Q Q' : A → list Event → Prop) :
  (∀ tr, P' tr → P tr) → (∀ a tr, Q a tr → Q' a tr) → hoare P m Q → hoare P' m Q'.
Proof.
  intros HP HQ Hm s Hs HP'. destruct (Hm s Hs (HP _ HP')) as (? & ? & HQ0).
  split; [done |]. split; [done |]. intros a Ha. by apply HQ, HQ0.
Qed.

(** A step that keeps the invariant keeps what is known of the trace. *)
Lemma hoare_keeps {A} (P : list Event → Prop) (m : M A) :
  respects keeps m → monotone P → hoare P m (λ _, P).
Proof.
  intros Hm HP s Hs HPs. destruct (Hm s Hs) as [Hs' Hpre].
  split; [done |]. split; [done |]. intros a _. by eapply HP.
Qed.

Lemma hoare_frame {A} (P F : list Event → Prop) (m : M A) (Q : A → list Event → Prop) :
  monotone F → hoare P m Q → hoare (λ tr, P tr ∧ F tr) m (λ a tr, Q a tr ∧ F tr).
Proof.
  intros HF Hm s Hs [HP HFs]. destruct (Hm s Hs HP) as (? & Hpre & HQ).
  split; [done |]. split; [done |]. intros a Ha. split; [by apply HQ | by eapply HF].
Qed.

Lemma hoare_bind_keeps {A B} (P : list Event → Prop) (m : M A) (k : A → M B)
    (Q : B → list Event → Prop) :
  respects keeps m → monotone P → (∀ a, hoare P (k a) Q) → hoare P (m ≫= k) Q.
Proof. intros Hm HP Hk. eapply hoare_bind; [by apply hoare_keeps | exact Hk]. Qed.

(** A step with a specification of its own; what was known stays known. *)
Lemma hoare_bind_with {A B} (P P0 : list Event → Prop) (m : M A) (k : A → M B)
    (Q : A → list Event → Prop) (Q' : B → list Event → Prop) :
  hoare P0 m Q → monotone P → (∀ tr, P tr → P0 tr) →
  (∀ a, hoare (λ tr, Q a tr ∧ P tr) (k a) Q') →
  hoare P (m ≫= k) Q'.
Proof.
  intros Hm HP HP0 Hk. eapply hoare_bind; [|exact Hk].
  eapply hoare_conseq; [| |apply (hoare_frame P0 P m Q HP Hm)].
  - intros tr Htr. split; [by apply HP0 | done].
  - by intros a tr H.
Qed.

Lemma hoare_pure_pre {A} (P : list Event → Prop) (φ : Prop) (m : M A)
    (Q : A → list Event → Prop) :
  (φ → hoare P m Q) → hoare (λ tr, P tr ∧ φ) m Q.
Proof. intros Hm s Hs [HP Hφ]. by apply Hm. Qed.

Ltac solve_monotone :=
  repeat first
    [ apply monotone_and | apply owned_monotone | apply Forall_owned_monotone
    | apply monotone_True ].

Lemma hoare_ret {A} (P : list Event → Prop) (a : A) (Q : A → list Event → Prop) :
  (∀ tr, P tr → Q a tr) → hoare P (mret a : M A) Q.
Proof.
  intros HQ s Hs HP. split; [done |]. split; [done |].
  intros a' Ha. inversion Ha; subst a'. by apply HQ.
Qed.

Lemma hoare_throw {A} (P : list Event → Prop) (e : Exn) (Q : A → list Event → Prop) :
  hoare P (throw e : M A) Q.
Proof. intros s Hs HP. split; [done |]. split; [done |]. by intros a Ha. Qed.

Lemma hoare_forEach {A} (P : list Event → Prop) (xs : list A) (body : A → M unit) :
  monotone P →
  (∀ x, x ∈ xs → hoare P (body x) (λ _ _, True)) →
  hoare P (forEach xs body) (λ _ _, True).
Proof.
  intros HP. induction xs as [|x xs IH]; intros Hbody; simpl.
  - by apply hoare_ret.
  - apply (hoare_bind P _ _ (λ _, P)).
    + intros s Hs HPs.
      destruct (Hbody x (list_elem_of_here _ _) s Hs HPs) as (? & Hpre & _).
      split; [done |]. split; [done |]. intros a _. by eapply HP.
    + intros _. apply IH. intros y Hy. apply Hbody. by right.
Qed.

Section Discipline.

Variable natives : fid → JVal → list JVal → Heap → Settled * Heap.
Hypothesis natives_only_allocate : only_allocate natives.

Ltac keeps_side :=
  first [ exact keeps_refl | exact keeps_trans | exact keeps_emit_log
        | exact keeps_alloc_record | intros; by apply keeps_call ].

Lemma keeps_getProp (v : JVal) (key : string) : respects keeps (getProp v key).
Proof. apply respects_getProp; keeps_side. Qed.

Lemma keeps_objectKeys (v : JVal) : respects keeps (objectKeys v).
Proof. apply respects_objectKeys; keeps_side. Qed.

Lemma keeps_isObject (v : JVal) : respects keeps (isObject v).
Proof. apply respects_isObject; keeps_side. Qed.

Lemma keeps_isArray (v : JVal) : respects keeps (isArray v).
Proof. apply respects_isArray; keeps_side. Qed.

Lemma keeps_await (p : Settled) : respects keeps (await p).
Proof. apply respects_await; keeps_side. Qed.

Lemma keeps_verboseOf (context : JVal) (n : nat) (msg : string) :
  respects keeps (verboseOf context n msg).
Proof.
  apply respects_verboseOf; keeps_side.
Qed.

Lemma keeps_getQueryOperation (rootQuery : JVal) (opName : string) :
  respects keeps (getQueryOperation rootQuery opName).
Proof. apply respects_getQueryOperation; keeps_side. Qed.

Lemma keeps_getOperationResolver (rootResolver : JVal) (opName : string) :
  respects keeps (getOperationResolver rootResolver opName).
Proof. apply respects_getOperationResolver; keeps_side. Qed.

Lemma keeps_resolverName (q : JVal) (name : string) :
  respects keeps (resolverName q name).
Proof. apply respects_resolverName; keeps_side. Qed.

Lemma keeps_getGlobalEntityResolver (g : QueryGlobals)
    (name typeName outputLocation : string) (lvl : nat) :
  respects keeps (getGlobalEntityResolver g name typeName outputLocation lvl).
Proof.
  apply respects_getGlobalEntityResolver; keeps_side.
Qed.

Lemma keeps_argsOrEmpty (q : JVal) : respects keeps (argsOrEmpty q).
Proof.
  apply respects_argsOrEmpty; keeps_side.
Qed.

Lemma keeps_startNestedEntity (nestedEntityQuery parentEntity : JVal)
    (pname ptype rel : string) (g : QueryGlobals) (lvl : nat) :
  respects keeps
    (startNestedEntity natives nestedEntityQuery parentEntity pname ptype rel g lvl).
Proof.
  apply respects_startNestedEntity; keeps_side.
Qed.

Lemma hoare_alloc (o : Obj) :
  hoare (λ tr, ∀ elems, o = OArray elems → Forall (owned tr) elems)
    (alloc o) (λ c tr, owned tr c).
Proof.
  intros s Hs Ho. split; [by apply disciplined_alloc |].
  split; [by apply prefix_app_r |].
  intros a Ha. inversion Ha; subst a. exists (length (heap s)).
  split; [done |]. simpl. apply elem_of_app. right. by left.
Qed.

Lemma hoare_objectAssignEmpty (src : JVal) :
  hoare (λ _, True) (objectAssignEmpty src) (λ c tr, owned tr c).
Proof.
  unfold objectAssignEmpty.
  apply hoare_bind_keeps; [by apply respects_getHeap, keeps_refl | done |]. intros h.
  apply hoare_bind_keeps; [by apply respects_liftOpt, keeps_refl | done |]. intros props.
  eapply hoare_conseq; [| |apply hoare_alloc]; [by intros | by intros].
Qed.

Lemma hoare_cloneEach (elems : list JVal) :
  hoare (λ _, True) (cloneEach elems) (λ cs tr, Forall (owned tr) cs).
Proof.
  induction elems as [|e elems IH]; simpl.
  - by apply hoare_ret.
  - eapply hoare_bind; [apply hoare_objectAssignEmpty |]. intros c.
    eapply hoare_bind_with; [exact IH | solve_monotone | done |].
    intros cs. apply hoare_ret. intros tr [Hcs Hc]. by constructor.
Qed.

Lemma hoare_cloneEntity (isArr : bool) (resolvedEntity : JVal) :
  hoare (λ _, True) (cloneEntity isArr resolvedEntity) (λ c tr, owned tr c).
Proof.
  unfold cloneEntity. destruct isArr; [|apply hoare_objectAssignEmpty].
  apply hoare_bind_keeps; [apply respects_arrayElems; keeps_side | done |].
  intros elems. eapply hoare_bind; [apply hoare_cloneEach |]. intros clones.
  eapply hoare_conseq; [| |apply hoare_alloc]; [|by intros].
  intros tr Hclones elems' Heq. by inversion Heq; subst.
Qed.

Lemma hoare_setProp (target : JVal) (key : string) (v : JVal) :
  hoare (λ tr, owned tr target ∧ owned tr v) (setProp target key v) (λ _ _, True).
Proof.
  intros s Hs [(l & -> & Hl) Hv]. unfold setProp.
  destruct (heap s !! l) as [[props|elems|f]|] eqn:Hhl; try done.
  destruct Hs as (Hw & Hin & Harr). simpl.
  split; [|split; [by apply prefix_app_r | done]].
  split; [|split]; simpl.
  - apply writes_owned_snoc; [done |].
    intros l' key' v' Heq. inversion Heq; subst. split; [by exists l' | done].
  - intros l' [Hl' | Hl']%elem_of_app.
    + rewrite length_insert. by apply Hin.
    + apply list_elem_of_singleton in Hl'. discriminate.
  - intros l' elems [Hl' | Hl']%elem_of_app Hel.
    + destruct (decide (l' = l)) as [->|Hne].
      * rewrite list_lookup_insert_eq in Hel by (by eapply lookup_lt_Some). done.
      * rewrite list_lookup_insert_ne in Hel by done.
        eapply Forall_owned_monotone; [by apply prefix_app_r | by eapply Harr].
    + apply list_elem_of_singleton in Hl'. discriminate.
Qed.

Lemma hoare_arrayElems (p : JVal) :
  hoare (λ tr, owned tr p) (arrayElems p) (λ elems tr, Forall (owned tr) elems).
Proof.
  intros s Hs (l & -> & Hl). unfold arrayElems, getHeap. rewrite bind_unfold. simpl.
  destruct (heap s !! l) as [[props|elems|f]|] eqn:Hhl; try done.
  split; [done |]. split; [done |].
  intros a Ha. inversion Ha; subst a. destruct Hs as (_ & _ & Harr). by eapply Harr.
Qed.

Lemma hoare_settle {A} (P : list Event → Prop) (m : M A) :
  respects keeps m → monotone P → hoare P (settle m) (λ _, P).
Proof.
  intros Hm HP. apply hoare_keeps; [|done].
  by apply respects_settle.
Qed.

Lemma hoare_mapTasks {A B} (P : list Event → Prop) (xs : list A) (start : A → M B) :
  (∀ x, respects keeps (start x)) → monotone P →
  hoare P (mapTasks xs start) (λ tasks tr, P tr ∧ tasks.*1 = xs).
Proof.
  intros Hstart HP. induction xs as [|x xs IH]; simpl.
  - by apply hoare_ret.
  - eapply hoare_bind; [by apply hoare_settle |]. intros r.
    eapply hoare_bind; [exact IH |]. intros rs.
    apply hoare_ret. intros tr [Htr Hrs]. split; [done |].
    rewrite fmap_cons. simpl. by f_equal.
Qed.

Lemma started_elem {A B} (tasks : list (A * (Exn + B))) (x : A) (b : B) :
  (x, b) ∈ started tasks → x ∈ tasks.*1.
Proof.
  unfold started. rewrite list_elem_of_omap. intros ([x' r] & Hin & Heq).
  destruct r as [e|b']; simpl in Heq; [done |]. inversion Heq; subst.
  apply list_elem_of_fmap. by exists (x, inr b).
Qed.

Lemma hoare_promiseAll {A B} (P : list Event → Prop) (tasks : list (A * (Exn + B)))
    (finish : A → B → M unit) :
  monotone P →
  (∀ x b, x ∈ tasks.*1 → hoare P (finish x b) (λ _ _, True)) →
  hoare P (promiseAll tasks finish) (λ _ _, True).
Proof.
  intros HP Hfinish. unfold promiseAll.
  destruct (firstRejected tasks); [apply hoare_throw |].
  apply hoare_forEach; [done |]. intros [x b] Hin.
  apply Hfinish. by eapply started_elem.
Qed.

Lemma hoare_finishNestedEntity
    (rec : JVal → JVal → string → string → QueryGlobals → nat → M unit)
    (nestedEntityQuery parentEntity : JVal) (rel : string) (g : QueryGlobals)
    (lvl : nat) (st : string * Settled) :
  (∀ q p n t g' l, hoare (λ tr, owned tr p) (rec q p n t g' l) (λ _ _, True)) →
  hoare (λ tr, owned tr parentEntity)
    (finishNestedEntity rec nestedEntityQuery parentEntity rel g lvl st) (λ _ _, True).
Proof.
  intros Hrec. unfold finishNestedEntity.
  apply hoare_bind_keeps; [apply keeps_await | apply owned_monotone |].
  intros resolvedEntity.
  apply hoare_bind_keeps; [apply keeps_isArray | apply owned_monotone |].
  intros isArr.
  eapply hoare_bind_with; [apply hoare_cloneEntity | solve_monotone | done |].
  intros clonedEntity.
  eapply hoare_bind_with; [apply hoare_setProp | solve_monotone | |].
  { intros tr [Hc Hp]. split; [exact Hp | exact Hc]. }
  intros u. eapply hoare_conseq; [| |apply Hrec]; [|done].
  intros tr [_ [Hc _]]. exact Hc.
Qed.

Lemma hoare_resolveRelation
    (rec : JVal → JVal → string → string → QueryGlobals → nat → M unit)
    (entityQuery parentEntity : JVal) (pname ptype : string) (g : QueryGlobals)
    (lvl : nat) (rel : string) :
  (∀ q p n t g' l, hoare (λ tr, owned tr p) (rec q p n t g' l) (λ _ _, True)) →
  hoare (λ tr, owned tr parentEntity)
    (resolveRelation natives rec entityQuery parentEntity pname ptype g lvl rel)
    (λ _ _, True).
Proof.
  intros Hrec. unfold resolveRelation.
  apply hoare_bind_keeps; [apply keeps_getProp | apply owned_monotone |]. intros resolve.
  apply hoare_bind_keeps; [apply keeps_getProp | apply owned_monotone |]. intros nq.
  apply hoare_bind_keeps; [apply keeps_isObject | apply owned_monotone |]. intros isObj.
  destruct (negb isObj).
  { apply hoare_bind_keeps;
      [by apply respects_getHeap, keeps_refl | apply owned_monotone |].
    intros h. apply hoare_throw. }
  apply hoare_bind_keeps; [apply keeps_isArray | apply owned_monotone |]. intros isArr.
  destruct isArr.
  - eapply hoare_bind; [apply hoare_arrayElems |]. intros elems.
    eapply hoare_bind.
    { apply hoare_mapTasks; [intros x; apply keeps_startNestedEntity |].
      apply Forall_owned_monotone. }
    intros tasks. apply hoare_pure_pre. intros Htasks.
    apply hoare_promiseAll; [apply Forall_owned_monotone |].
    intros x b Hx. rewrite Htasks in Hx.
    eapply hoare_conseq; [| |by apply hoare_finishNestedEntity]; [|done].
    intros tr Htr. simpl. rewrite Forall_forall in Htr. by apply Htr.
  - apply hoare_bind_keeps;
      [apply keeps_startNestedEntity | apply owned_monotone |].
    intros st. by apply hoare_finishNestedEntity.
Qed.

Lemma hoare_resolveNestedEntities (fuel : nat) (entityQuery parentEntity : JVal)
    (pname ptype : string) (g : QueryGlobals) (lvl : nat) :
  hoare (λ tr, owned tr parentEntity)
    (resolveNestedEntities natives fuel entityQuery parentEntity pname ptype g lvl)
    (λ _ _, True).
Proof.
  revert entityQuery parentEntity pname ptype g lvl.
  induction fuel as [|fuel IH]; intros; simpl.
  - by intros s Hs HP.
  - apply hoare_bind_keeps; [apply keeps_getProp | apply owned_monotone |].
    intros resolve. destruct (truthy resolve); [|by apply hoare_ret].
    apply hoare_bind_keeps; [apply keeps_objectKeys | apply owned_monotone |].
    intros names. apply hoare_forEach; [apply owned_monotone |].
    intros rel _. by apply hoare_resolveRelation.
Qed.

Lemma hoare_resolveRootEntity (fuel : nat) (queryOperation output : JVal)
    (entityTypeName : string) (g : QueryGlobals) (lvl : nat) :
  hoare (λ tr, owned tr output)
    (resolveRootEntity natives fuel queryOperation output entityTypeName g lvl)
    (λ _ _, True).
Proof.
  unfold resolveRootEntity.
  apply hoare_bind_keeps; [apply keeps_verboseOf | apply owned_monotone |]. intros _.
  apply hoare_bind_keeps; [apply keeps_getProp | apply owned_monotone |]. intros q.
  destruct (negb (truthy q)); [apply hoare_throw |].
  apply hoare_bind_keeps; [apply keeps_isObject | apply owned_monotone |]. intros isObj.
  destruct (negb isObj); [apply hoare_throw |].
  apply hoare_bind_keeps; [apply keeps_resolverName | apply owned_monotone |].
  intros name.
  apply hoare_bind_keeps;
    [apply keeps_getGlobalEntityResolver | apply owned_monotone |].
  intros entityResolver.
  apply hoare_bind_keeps; [apply keeps_getProp | apply owned_monotone |]. intros invoke.
  apply hoare_bind_keeps; [apply keeps_argsOrEmpty | apply owned_monotone |].
  intros args.
  apply hoare_bind_keeps; [by apply keeps_call | apply owned_monotone |]. intros p.
  apply hoare_bind_keeps; [apply keeps_await | apply owned_monotone |].
  intros resolvedEntity.
  apply hoare_bind_keeps; [apply keeps_isArray | apply owned_monotone |]. intros isArr.
  apply hoare_bind_keeps; [apply keeps_verboseOf | apply owned_monotone |]. intros _.
  eapply hoare_bind_with; [apply hoare_cloneEntity | solve_monotone | done |].
  intros clonedEntity.
  eapply hoare_bind_with; [apply hoare_setProp | solve_monotone | |].
  { intros tr [Hc Hp]. split; [exact Hp | exact Hc]. }
  intros u. eapply hoare_conseq; [| |apply hoare_resolveNestedEntities]; [|done].
  intros tr [_ [Hc _]]. exact Hc.
Qed.

Lemma hoare_resolveOperation (fuel : nat)
    (rootQuery rootResolver context output : JVal) (opName : string) :
  hoare (λ tr, owned tr output)
    (resolveOperation natives fuel rootQuery rootResolver context output opName)
    (λ _ _, True).
Proof.
  unfold resolveOperation.
  apply hoare_bind_keeps; [apply keeps_verboseOf | apply owned_monotone |]. intros _.
  apply hoare_bind_keeps; [apply keeps_getQueryOperation | apply owned_monotone |].
  intros queryOperation.
  apply hoare_bind_keeps; [apply keeps_getOperationResolver | apply owned_monotone |].
  intros operationResolver.
  apply hoare_bind_keeps; [apply keeps_objectKeys | apply owned_monotone |].
  intros keys. apply hoare_forEach; [apply owned_monotone |].
  intros key _. apply hoare_resolveRootEntity.
Qed.

Lemma hoare_miniql (fuel : nat) (rootQuery rootResolver context : JVal) :
  hoare (λ _, True) (miniql natives fuel rootQuery rootResolver context)
    (λ output tr, owned tr output).
Proof.
  unfold miniql.
  eapply hoare_bind.
  { unfold newObject. eapply hoare_conseq; [| |apply hoare_alloc]; [by intros |].
    intros c tr H. exact H. }
  intros output. simpl.
  apply hoare_bind_keeps; [apply keeps_objectKeys | apply owned_monotone |].
  intros opNames.
  destruct (bool_decide (length opNames ≤ 0)); [apply hoare_throw |].
  apply hoare_bind_keeps; [apply keeps_verboseOf | apply owned_monotone |]. intros _.
  eapply hoare_bind_with; [| solve_monotone | by intros tr H; exact H |].
  { apply hoare_forEach; [apply owned_monotone |].
    intros opName _. apply hoare_resolveOperation. }
  intros u. apply hoare_ret. by intros tr [_ H].
Qed.

End Discipline.

(** ** C6: what the engine writes to *)

(** C6, as stated, fails for a nested resolver that returns its parent
    argument (a clone the engine made and passed in): the value the
    resolver returned, the object at address 16, is then assigned its
    relation field, and it is the [user] of the output. *)
Lemma returned_parent_is_assigned_to :
  drop 5 (trace (runB (VRef 0) (VRef 13) [] 2).2)
  = [EvInvoke 2 (VRef 7) [VRef 16; VRef 17; VRef 12] (Fulfilled (VRef 16));
     EvAlloc 18;
     EvWrite 16 "posts" (VRef 18)]
  ∧ (runB (VRef 0) (VRef 13) [] 2).1 = Ok (VRef 14)
  ∧ get_own (heap (runB (VRef 0) (VRef 13) [] 2).2) (VRef 14) "user" = Some (VRef 16).
Proof. vm_compute. repeat split; reflexivity. Qed.

Lemma sampleNatives_only_allocate : only_allocate sampleNatives.
Proof.
  intros f this args h.
  destruct f as [|[|[|[|[|[|f]]]]]]; simpl;
    first [ by eexists | exists []; by rewrite app_nil_r ].
Qed.

Lemma disciplined_initial (h : Heap) : disciplined (mkState h []).
Proof.
  split; [|split]; simpl.
  - intros pre l key v post Heq. by destruct pre.
  - intros l Hl. by apply elem_of_nil in Hl.
  - intros l elems Hl. by apply elem_of_nil in Hl.
Qed.

(** C6, as amended.  With resolvers that leave existing objects alone,
    a run of [miniql] assigns only to objects that it has allocated itself
    earlier in the run (the output object and the clones), and assigns
    only such objects; what it allocates is new; every object that was in
    the heap before the call, the query document and the registry among
    them, is as it was; and the output it returns is one of its own
    objects.  So a value that a resolver returned is assigned to, or
    assigned by the engine to a field, only if it is one of the engine's
    own objects: a clone that was passed to the resolver as its parent.
    Nothing is said of what the copied properties of a clone hold: the
    copy is shallow, and what a resolver put inside its record is
    reached from the output as it is. *)
Theorem engine_assigns_to_its_own_objects
    (natives : fid → JVal → list JVal → Heap → Settled * Heap)
    (fuel : nat) (rootQuery rootResolver context : JVal) (h : Heap) :
  only_allocate natives →
  let run := miniql natives fuel rootQuery rootResolver context (mkState h []) in
  writes_owned (trace run.2)
  ∧ (∀ l, EvAlloc l ∈ trace run.2 → length h ≤ l)
  ∧ (∀ l o, h !! l = Some o → heap run.2 !! l = Some o)
  ∧ (∀ output, run.1 = Ok output → owned (trace run.2) output).
Proof.
  intros Hnat run.
  destruct (hoare_miniql natives Hnat fuel rootQuery rootResolver context
              (mkState h []) (disciplined_initial h) I)
    as ((Hw & _ & _) & _ & Hout).
  destruct (extends_miniql natives fuel rootQuery rootResolver context Hnat
              (mkState h []))
    as (tr & Htr & _ & Halloc & Hobj).
  fold run in Hw, Hout, Htr, Halloc, Hobj. simpl in Htr, Halloc, Hobj.
  split; [exact Hw |]. split; [|split; [|exact Hout]].
  - intros l Hl. apply Halloc. by rewrite <- Htr.
  - intros l o Hl.
    destruct (Hobj l o Hl) as [Hsame | ((key & v & Hin) & _)]; [done |].
    exfalso. rewrite <- Htr in Hin.
    apply list_elem_of_split in Hin as (pre & post & Heq).
    destruct (Hw pre l key v post Heq) as [(l' & Hl' & Hpre) _].
    inversion Hl'; subst l'.
    assert (EvAlloc l ∈ tr) as Hl2.
    { rewrite <- Htr, Heq. apply elem_of_app. by left. }
    apply Halloc in Hl2. apply lookup_lt_Some in Hl. lia.
Qed.

Lemma engine_assigns_to_its_own_objects_witness :
  let run := runB (VRef 0) (VRef 13) [] 2 in
  writes_owned (trace run.2)
  ∧ (∀ l, EvAlloc l ∈ trace run.2 → 14 ≤ l)
  ∧ (∀ l o, heapB (VRef 0) (VRef 13) [] 2 !! l = Some o → heap run.2 !! l = Some o)
  ∧ (∀ output, run.1 = Ok output → owned (trace run.2) output).
Proof.
  exact (engine_assigns_to_its_own_objects sampleNatives 3 (VRef 4) (VRef 11) (VRef 12)
           (heapB (VRef 0) (VRef 13) [] 2) sampleNatives_only_allocate).
Defined.

(** ** C4: the fan-out over an array parent *)

Lemma bind_Ok_inv {A B} (m : M A) (k : A → M B) (s s' : State) (b : B) :
  (m ≫= k) s = (Ok b, s') → ∃ a s1, m s = (Ok a, s1) ∧ k a s1 = (Ok b, s').
Proof.
  rewrite bind_unfold. destruct (m s) as [[a|e| |] s1]; try done. eauto.
Qed.

Lemma assoc_set_key_in (props : list (string * JVal)) (key : string) (v : JVal) :
  key ∈ (assoc_set props key v).*1.
Proof.
  induction props as [|[k w] props IH]; simpl.
  - left.
  - destruct (decide (k = key)) as [->|Hne]; simpl; [left | by right].
Qed.

Lemma has_field_extends (s s' : State) (e : JVal) (rel : string) :
  extends s s' → has_field (heap s) e rel → has_field (heap s') e rel.
Proof.
  intros (tr & _ & _ & _ & Hobj) (l & props & -> & Hl & Hrel).
  destruct (Hobj l _ Hl) as [Hsame | (_ & p & p' & Heq & Hl' & Hsub)].
  - by exists l, props.
  - inversion Heq; subst p. exists l, p'. split; [done |]. split; [done |].
    by apply Hsub.
Qed.

Lemma array_extends (s s' : State) (l : loc) (elems : list JVal) :
  extends s s' → heap s !! l = Some (OArray elems) → heap s' !! l = Some (OArray elems).
Proof.
  intros (tr & _ & _ & _ & Hobj) Hl.
  by destruct (Hobj l _ Hl) as [Hsame | (_ & p & p' & Heq & _)].
Qed.

Lemma resolveNestedEntities_resolve_map
    (natives : fid → JVal → list JVal → Heap → Settled * Heap)
    (fuel : nat) (le lres : loc) (parentEntity : JVal) (pname ptype : string)
    (g : QueryGlobals) (lvl : nat) (s : State) (qprops rels : list (string * JVal)) :
  heap s !! le = Some (ORecord qprops) →
  assoc_get qprops "resolve" = Some (VRef lres) →
  heap s !! lres = Some (ORecord rels) →
  resolveNestedEntities natives (S fuel) (VRef le) parentEntity pname ptype g lvl s
  = forEach rels.*1
      (resolveRelation natives (resolveNestedEntities natives fuel) (VRef le)
         parentEntity pname ptype g lvl) s.
Proof.
  intros Hle Hresolve Hlres.
  change (resolveNestedEntities natives (S fuel) (VRef le) parentEntity pname ptype g
            lvl s)
    with ((getProp (VRef le) "resolve" ≫= λ resolve,
           if truthy resolve
           then objectKeys resolve ≫= λ names,
                forEach names
                  (resolveRelation natives (resolveNestedEntities natives fuel)
                     (VRef le) parentEntity pname ptype g lvl)
           else mret tt) s).
  rewrite (bind_ok _ _ _ _ _ (getProp_record _ "resolve" _ _ Hle eq_refl)), Hresolve.
  simpl.
  erewrite bind_ok.
  2:{ apply objectKeys_run; [done..|]. simpl. by rewrite Hlres. }
  reflexivity.
Qed.

Lemma setProp_Ok_inv (target : JVal) (key : string) (v : JVal) (s s' : State) :
  key ≠ "__proto__" →
  setProp target key v s = (Ok tt, s') → has_field (heap s') target key.
Proof.
  intros Hkey. unfold setProp. destruct target as [| | | | |l]; try done.
  destruct (heap s !! l) as [[props|elems|f]|] eqn:Hl; try done.
  intros Heq. inversion Heq; subst s'. simpl.
  exists l, (assign_prop props key v). split; [done |]. split.
  - apply list_lookup_insert_eq. by eapply lookup_lt_Some.
  - apply assoc_get_is_Some. rewrite assoc_get_assign by done. by eexists.
Qed.

(** *** Heaps that agree on the new objects *)

Lemma agree_from_refl (n : nat) (h : Heap) : agree_from n h h.
Proof. by intros l o _ H. Qed.




Lemma new_value_primitive (n : nat) (v : JVal) : (∀ l, v ≠ VRef l) → new_value n v.
Proof. intros Hv l ->. by destruct (Hv l). Qed.







Section FanOut.

Variable natives : fid → JVal → list JVal → Heap → Settled * Heap.
Hypothesis natives_only_allocate : only_allocate natives.

Lemma extends_finishNestedEntity (fuel : nat) (nestedEntityQuery parentEntity : JVal)
    (rel : string) (g : QueryGlobals) (lvl : nat) (st : string * Settled) :
  respects extends
    (finishNestedEntity (resolveNestedEntities natives fuel) nestedEntityQuery
       parentEntity rel g lvl st).
Proof.
  apply respects_finishNestedEntity;
    first [ exact extends_refl | exact extends_trans
          | intros; apply extends_alloc | intros; apply extends_setProp
          | intros; by apply extends_resolveNestedEntities ].
Qed.

(** When the continuation of a task returns, its parent has the field. *)
Lemma finishNestedEntity_sets_field (fuel : nat) (nestedEntityQuery parentEntity : JVal)
    (rel : string) (g : QueryGlobals) (lvl : nat) (st : string * Settled)
    (s s' : State) :
  rel ≠ "__proto__" →
  finishNestedEntity (resolveNestedEntities natives fuel) nestedEntityQuery
    parentEntity rel g lvl st s = (Ok tt, s') →
  has_field (heap s') parentEntity rel.
Proof.
  unfold finishNestedEntity. intros Hrel Hrun.
  apply bind_Ok_inv in Hrun as (resolved & s1 & _ & Hrun).
  apply bind_Ok_inv in Hrun as (isArr & s2 & _ & Hrun).
  apply bind_Ok_inv in Hrun as (cloned & s3 & _ & Hrun).
  apply bind_Ok_inv in Hrun as ([] & s4 & Hset & Hrun).
  apply (setProp_Ok_inv _ _ _ _ _ Hrel) in Hset.
  eapply has_field_extends; [|exact Hset].
  pose proof (extends_resolveNestedEntities natives fuel nestedEntityQuery cloned
                st.1 rel g (lvl + 2) natives_only_allocate s4) as Hext.
  by rewrite Hrun in Hext.
Qed.

Lemma forEach_finish_sets_fields (fuel : nat) (nestedEntityQuery : JVal)
    (rel : string) (g : QueryGlobals) (lvl : nat)
    (tasks : list (JVal * (string * Settled))) (s s' : State) :
  rel ≠ "__proto__" →
  forEach tasks
    (λ t, finishNestedEntity (resolveNestedEntities natives fuel) nestedEntityQuery
            t.1 rel g lvl t.2) s = (Ok tt, s') →
  Forall (λ e, has_field (heap s') e rel) tasks.*1.
Proof.
  intros Hrel. revert s. induction tasks as [|[e st] tasks IH]; intros s Hrun; simpl.
  - constructor.
  - rewrite forEach_cons in Hrun.
    apply bind_Ok_inv in Hrun as ([] & s1 & Hfinish & Hrest). simpl in Hfinish.
    constructor; [|by eapply IH].
    eapply has_field_extends; [|by eapply finishNestedEntity_sets_field].
    assert (respects extends
              (forEach tasks
                 (λ t, finishNestedEntity (resolveNestedEntities natives fuel)
                         nestedEntityQuery t.1 rel g lvl t.2))) as Hext.
    { apply respects_forEach; [exact extends_refl | exact extends_trans |].
      intros t. apply extends_finishNestedEntity. }
    specialize (Hext s1). by rewrite Hrest in Hext.
Qed.

Lemma no_writes_app (tr1 tr2 : list Event) :
  no_writes tr1 → no_writes tr2 → no_writes (tr1 ++ tr2).
Proof. intros H1 H2 l key v [H | H]%elem_of_app; [by eapply H1 | by eapply H2]. Qed.

Lemma no_writes_nil : no_writes [].
Proof. intros l key v H. by apply elem_of_nil in H. Qed.

Lemma no_writes_logged (h : Heap) (context : JVal) (n : nat) (msg : string) :
  no_writes (logged h context n msg).
Proof.
  unfold logged. destruct (get_own h context "verbose") as [flag|];
    [|apply no_writes_nil].
  destruct (truthy flag); [|apply no_writes_nil].
  intros l key v H. apply list_elem_of_singleton in H. discriminate.
Qed.

Lemma no_writes_startNested_logs (h : Heap) (g : QueryGlobals) (lvl : nat)
    (pname ptype rel : string) :
  no_writes (startNested_logs h g lvl pname ptype rel).
Proof. unfold startNested_logs. apply no_writes_app; apply no_writes_logged. Qed.

Lemma no_writes_args_events (h : Heap) (qprops : list (string * JVal)) :
  no_writes (args_events h qprops).
Proof.
  unfold args_events. destruct (truthy (args_of qprops)); [apply no_writes_nil |].
  intros l key v H. apply list_elem_of_singleton in H. discriminate.
Qed.

Lemma entity_resolver_app (h ext : Heap) (opres : JVal) (name : string) (lr : loc)
    (rprops : list (string * JVal)) (f : fid) :
  entity_resolver h opres name lr rprops f →
  entity_resolver (h ++ ext) opres name lr rprops f.
Proof.
  intros (lop & resolvers & lf & -> & H1 & H2 & H3 & H4 & H5).
  exists lop, resolvers, lf. repeat split; try done; by apply lookup_app_l_Some.
Qed.

Lemma nested_resolver_app (h ext : Heap) (opres : JVal) (pname name : string)
    (lnr : loc) (f : fid) :
  nested_resolver h opres pname name lnr f →
  nested_resolver (h ++ ext) opres pname name lnr f.
Proof.
  intros (lr & rprops & f0 & lnested & nprops & nrprops & lf
    & Hres & H1 & H2 & H3 & H4 & H5 & H6).
  exists lr, rprops, f0, lnested, nprops, nrprops, lf.
  split; [by apply entity_resolver_app |].
  repeat split; try done; by apply lookup_app_l_Some.
Qed.

(** The [map] stage of the fan-out: one call per element, in order, and
    nothing else but trace lines and the empty [args] objects. *)
Lemma mapTasks_startNestedEntity (lnq : loc) (pname ptype rel name : string)
    (g : QueryGlobals) (lvl : nat) (nqprops : list (string * JVal))
    (lnr : loc) (f : fid) (elems : list JVal) :
  resolver_name nqprops rel = Some name →
  ∀ (h : Heap) (tr : list Event),
    h !! lnq = Some (ORecord nqprops) →
    nested_resolver h (operationResolver g) pname name lnr f →
    readable h (context g) →
    ∃ tasks hext tr1,
      mapTasks elems
        (λ e, startNestedEntity natives (VRef lnq) e pname ptype rel g lvl)
        (mkState h tr)
      = (Ok tasks, mkState (h ++ hext) (tr ++ tr1))
      ∧ Forall2 (nested_call f lnr (context g)) elems (invocations tr1)
      ∧ no_writes tr1
      ∧ firstRejected tasks = None
      ∧ (started tasks).*1 = elems
      ∧ inv_result <$> invocations tr1 = (λ t, t.2.2) <$> started tasks
      ∧ ∀ P, persistent P → fulfils natives f (length h) P →
          Forall (λ t, ∃ v, t.2.2 = Fulfilled v ∧ P (h ++ hext) v) (started tasks).
Proof.
  intros Hname. induction elems as [|e elems IH]; intros h tr Hq Hnres Hctx.
  - exists [], [], []. rewrite !app_nil_r.
    split; [done | split; [constructor | split; [apply no_writes_nil |]]].
    split; [done | split; [done | split; [done |]]]. intros P _ _. constructor.
  - destruct (args_heap_app h nqprops) as [ext0 Hext0].
    destruct (natives_only_allocate f (VRef lnr)
                [e; passed_args h nqprops; context g] (args_heap h nqprops))
      as [ext Hext].
    pose proof (startNestedEntity_run natives lnq e pname ptype rel name g lvl h tr
                  nqprops lnr f Hq Hname Hnres Hctx) as Hstart.
    rewrite Hext0 in Hext.
    simpl in Hstart. rewrite Hext0, Hext, <- app_assoc in Hstart.
    destruct (IH (h ++ ext0 ++ ext)
                (tr ++ startNested_logs h g lvl pname ptype rel ++ args_events h nqprops
                    ++ [EvInvoke f (VRef lnr) [e; passed_args h nqprops; context g]
                          (natives f (VRef lnr) [e; passed_args h nqprops; context g]
                             (h ++ ext0)).1]))
      as (tasks & hext & tr1 & Hrun & Hcalls & Hnw & Hrej & Hst & Hres & Hful).
    { by apply lookup_app_l_Some. }
    { by apply nested_resolver_app. }
    { by apply readable_app. }
    eexists _, (ext0 ++ ext ++ hext), _.
    split; [|split; [|split; [|split; [|split; [|split]]]]].
    + simpl. unfold settle at 1. rewrite bind_unfold. rewrite Hstart.
      rewrite bind_unfold, Hrun. simpl.
      rewrite <- !app_assoc. reflexivity.
    + rewrite !invocations_app, invocations_startNested_logs,
        invocations_args_events. simpl.
      constructor; [|exact Hcalls]. repeat split. by eexists.
    + apply no_writes_app; [apply no_writes_startNested_logs |].
      apply no_writes_app; [apply no_writes_args_events |].
      apply no_writes_app; [| exact Hnw].
      intros l key v H. apply list_elem_of_singleton in H. discriminate.
    + unfold firstRejected in *. simpl. exact Hrej.
    + unfold started in *. simpl. by f_equal.
    + rewrite !invocations_app, invocations_startNested_logs,
        invocations_args_events. simpl.
      unfold started in *. simpl. by f_equal.
    + intros P HP Hf.
      change (started ((e, inr (name, (natives f (VRef lnr)
                          [e; passed_args h nqprops; context g] (h ++ ext0)).1)) :: tasks))
        with ((e, (name, (natives f (VRef lnr)
                 [e; passed_args h nqprops; context g] (h ++ ext0)).1)) :: started tasks).
      constructor.
      * destruct (Hf (VRef lnr) [e; passed_args h nqprops; context g] (h ++ ext0))
          as (r & ext' & Hnat & HPr); [rewrite length_app; lia |].
        rewrite Hnat in Hext. simpl in Hext. apply app_inv_head in Hext. subst ext'.
        exists r. simpl. split; [by rewrite Hnat |].
        replace (h ++ ext0 ++ ext ++ hext) with (((h ++ ext0) ++ ext) ++ hext)
          by (by rewrite <- !app_assoc).
        by apply HP.
      * replace (h ++ ext0 ++ ext ++ hext) with ((h ++ ext0 ++ ext) ++ hext)
          by (by rewrite <- !app_assoc).
        apply Hful; [exact HP |].
        eapply fulfils_impl; [| |exact Hf]; [done |]. rewrite length_app. lia.
Qed.



(** The fan-out of [resolveNestedEntities]: the [map] stage, then the
    continuations of the tasks it started. *)
Lemma resolveRelation_array (fuel : nat) (le la lnq : loc)
    (nqprops : list (string * JVal)) (elems : list JVal)
    (pname ptype rel name : string) (g : QueryGlobals) (lvl : nat)
    (lnr : loc) (f : fid) (h : Heap) (tr : list Event) :
  relation_query h le rel lnq nqprops →
  resolver_name nqprops rel = Some name →
  nested_resolver h (operationResolver g) pname name lnr f →
  readable h (context g) →
  h !! la = Some (OArray elems) →
  ∃ tasks hext tr1,
    resolveRelation natives (resolveNestedEntities natives fuel) (VRef le) (VRef la)
      pname ptype g lvl rel (mkState h tr)
    = forEach tasks
        (λ t, finishNestedEntity (resolveNestedEntities natives fuel) (VRef lnq)
                t.1 rel g lvl t.2)
        (mkState (h ++ hext) (tr ++ tr1))
    ∧ tasks.*1 = elems
    ∧ Forall2 (nested_call f lnr (context g)) elems (invocations tr1)
    ∧ no_writes tr1
    ∧ inv_result <$> invocations tr1 = (λ t, t.2.2) <$> tasks
    ∧ ∀ P, persistent P → fulfils natives f (length h) P →
        Forall (λ t, ∃ v, t.2.2 = Fulfilled v ∧ P (h ++ hext) v) tasks.
Proof.
  intros (qprops & lres & rprops & Hle & Hresolve & Hlres & Hrel & Hlnq)
    Hname Hnres Hctx Hla.
  destruct (mapTasks_startNestedEntity lnq pname ptype rel name g lvl nqprops lnr f
              elems Hname h tr Hlnq Hnres Hctx)
    as (tasks & hext & tr1 & Hmap & Hcalls & Hnw & Hrej & Hst & Hres & Hful).
  exists (started tasks), hext, tr1.
  split; [|by repeat split].
  unfold resolveRelation.
  rewrite (bind_ok _ _ _ _ _ (getProp_record le "resolve" (mkState h tr) _ Hle eq_refl)).
  rewrite Hresolve. simpl.
  rewrite (bind_ok _ _ _ _ _ (getProp_own lres rel (mkState h tr) _ _ Hlres Hrel)).
  simpl.
  rewrite (bind_ok _ _ _ _ _ (isObject_run _ _)). simpl. rewrite Hlnq. simpl.
  rewrite (bind_ok _ _ _ _ _ (isArray_run _ _)). simpl. rewrite Hla.
  rewrite (bind_ok _ _ _ _ _ (arrayElems_run la (mkState h tr) elems Hla)).
  rewrite (bind_ok _ _ _ _ _ Hmap).
  unfold promiseAll. by rewrite Hrej.
Qed.

(** X1.  Whatever the relations of the nested query, the [map] stage calls
    the nested resolver once per element, in the order of the array, and
    before anything is assigned; when the batch returns, every element
    has the field, unless the relation is called [__proto__], and the
    array has the elements it had. *)
Lemma resolveRelation_array_calls (fuel : nat) (le la lnq : loc)
    (nqprops : list (string * JVal)) (elems : list JVal)
    (pname ptype rel name : string) (g : QueryGlobals) (lvl : nat)
    (lnr : loc) (f : fid) (h : Heap) (tr : list Event) :
  relation_query h le rel lnq nqprops →
  resolver_name nqprops rel = Some name →
  nested_resolver h (operationResolver g) pname name lnr f →
  readable h (context g) →
  h !! la = Some (OArray elems) →
  let run :=
    resolveRelation natives (resolveNestedEntities natives fuel) (VRef le) (VRef la)
      pname ptype g lvl rel (mkState h tr) in
  ∃ tr1 tr2,
    trace run.2 = tr ++ tr1 ++ tr2
    ∧ Forall2 (nested_call f lnr (context g)) elems (invocations tr1)
    ∧ no_writes tr1
    ∧ (run.1 = Ok tt →
       (rel ≠ "__proto__" → Forall (λ e, has_field (heap run.2) e rel) elems)
       ∧ heap run.2 !! la = Some (OArray elems)).
Proof.
  intros Hq Hname Hnres Hctx Hla run.
  destruct (resolveRelation_array fuel le la lnq nqprops elems pname ptype rel name
              g lvl lnr f h tr Hq Hname Hnres Hctx Hla)
    as (tasks & hext & tr1 & Hrun & Hst & Hcalls & Hnw & _).
  assert (extends (mkState (h ++ hext) (tr ++ tr1)) run.2) as Hext.
  { subst run. rewrite Hrun.
    apply respects_forEach; [exact extends_refl | exact extends_trans |].
    intros t. apply extends_finishNestedEntity. }
  destruct Hext as (tr2 & Htr2 & Hrest). simpl in Htr2.
  exists tr1, tr2. split; [by rewrite Htr2, <- app_assoc |].
  split; [exact Hcalls |]. split; [exact Hnw |].
  intros Hok. split.
  - intros Hrel. rewrite <- Hst. eapply forEach_finish_sets_fields; [exact Hrel |].
    rewrite <- Hrun. fold run. destruct run as [[[]| | |] s']; try done.
  - eapply (array_extends (mkState (h ++ hext) (tr ++ tr1))).
    + by exists tr2.
    + simpl. by apply lookup_app_l_Some.
Qed.

End FanOut.




Lemma sampleNatives_1_clonable (n : nat) : fulfils sampleNatives 1 n clonable.
Proof.
  intros this args h _. eexists _, _. split; [reflexivity |].
  simpl. rewrite lookup_app_r by lia.
  replace (S (length h) - length h) with 1 by lia. simpl.
  repeat constructor. simpl.
  rewrite lookup_app_r, Nat.sub_diag by lia. by eexists.
Qed.



(** Scenario D from end to end: the output keeps the order of the users,
    each has its [roles], and the [roles] resolver is called twice. *)
Example scenarioD_run :
  outputTree (miniql sampleNatives 3 (VRef 4) (VRef 11) (VRef 12) (mkState heapD []))
  = Some (TRecord
            [("users",
              TArray [TRecord [("id", TNum 1);
                               ("roles", TArray [TRecord [("id", TNum 10)]])];
                      TRecord [("id", TNum 2);
                               ("roles", TArray [TRecord [("id", TNum 10)]])]])])
  ∧ inv_fun <$> invocations
                  (trace (miniql sampleNatives 3 (VRef 4) (VRef 11) (VRef 12)
                            (mkState heapD [])).2)
    = [5; 1; 1].
Proof. vm_compute. split; reflexivity. Qed.

(** * Further properties of the engine *)

(** ** The guards of [miniql] and of the two operation lookups *)

Lemma valid_lookup_app (h ext : Heap) (l : loc) :
  valid h (VRef l) → (h ++ ext) !! l = h !! l.
Proof. intros Hl. by apply lookup_app_l. Qed.

Lemma t_isObject_app (h ext : Heap) (v : JVal) :
  valid h v → t_isObject (h ++ ext) v = t_isObject h v.
Proof. destruct v; try done. intros Hl. simpl. by rewrite valid_lookup_app. Qed.

Lemma t_isFunction_app (h ext : Heap) (v : JVal) :
  valid h v → t_isFunction (h ++ ext) v = t_isFunction h v.
Proof. destruct v; try done. intros Hl. simpl. by rewrite valid_lookup_app. Qed.

Lemma readable_valid (h : Heap) (v : JVal) : readable h v → valid h v.
Proof. by destruct v. Qed.

(** X2.  A query with no operations, which is a value without own keys, is
    rejected at once: the registry and the context are not looked at,
    whatever they are. *)
Theorem miniql_empty_query
    (natives : fid → JVal → list JVal → Heap → Settled * Heap)
    (fuel : nat) (rootQuery rootResolver context : JVal) (s : State) :
  rootQuery ≠ VUndef → rootQuery ≠ VNull →
  own_props (heap s) rootQuery = Some [] →
  miniql natives fuel rootQuery rootResolver context s
  = (Throw (Error "Query doesn't contain any operations."),
     mkState (heap s ++ [ORecord []]) (trace s ++ [EvAlloc (length (heap s))])).
Proof.
  intros Hu Hn Hkeys. unfold miniql.
  rewrite (bind_ok _ _ _ _ _ (newObject_run s)).
  erewrite bind_ok by (apply objectKeys_run; [done..|]; by apply own_props_app).
  reflexivity.
Qed.

Lemma miniql_empty_query_witness :
  miniql sampleNatives 0 (VRef 0) VNull VNull (mkState [ORecord []] [])
  = (Throw (Error "Query doesn't contain any operations."),
     mkState [ORecord []; ORecord []] [EvAlloc 1]).
Proof. by apply (miniql_empty_query sampleNatives 0 (VRef 0) VNull VNull). Defined.

(** [miniql] up to its first operation. *)
Lemma miniql_first_operation_throws
    (natives : fid → JVal → list JVal → Heap → Settled * Heap)
    (fuel : nat) (h : Heap) (tr : list Event) (lq : loc) (rootResolver context : JVal)
    (opName : string) (v : JVal) (operations : list (string * JVal))
    (e : Exn) (s' : State) :
  h !! lq = Some (ORecord ((opName, v) :: operations)) →
  readable h context →
  resolveOperation natives fuel (VRef lq) rootResolver context (VRef (length h)) opName
    (state_at_operations h tr context) = (Throw e, s') →
  miniql natives fuel (VRef lq) rootResolver context (mkState h tr) = (Throw e, s').
Proof.
  intros Hq Hctx Hop. unfold miniql.
  rewrite (bind_ok _ _ _ _ _ (newObject_run _)). simpl.
  erewrite bind_ok.
  2:{ apply objectKeys_run; [done..|]. simpl.
      by rewrite (lookup_app_l_Some _ _ _ _ Hq). }
  simpl.
  erewrite bind_ok by (apply verboseOf_run; by apply readable_app).
  rewrite (logged_app _ _ _ _ _ Hctx), <- app_assoc.
  erewrite bind_throw; [reflexivity |].
  erewrite bind_throw; [reflexivity |]. exact Hop.
Qed.

(** X3.  An operation of the query that is not an object is rejected before
    the registry is looked at: as missing when its value is falsy, as
    ill-typed otherwise. *)
Theorem miniql_operation_not_an_object
    (natives : fid → JVal → list JVal → Heap → Settled * Heap)
    (fuel : nat) (h : Heap) (tr : list Event) (lq : loc) (rootResolver context : JVal)
    (opName : string) (v : JVal) (operations : list (string * JVal)) :
  h !! lq = Some (ORecord ((opName, v) :: operations)) →
  valid h v →
  t_isObject h v = false →
  readable h context →
  ∃ s',
    miniql natives fuel (VRef lq) rootResolver context (mkState h tr)
    = (Throw (Error (if truthy v
                     then "Expected query resolver for " +:+ quoted opName
                          +:+ " to be an object."
                     else "Query operation " +:+ quoted opName
                          +:+ " is missing from query.")), s')
    ∧ invocations (trace s') = invocations tr.
Proof.
  intros Hq Hv Hobj Hctx. eexists. split.
  - eapply miniql_first_operation_throws; [exact Hq | exact Hctx |].
    unfold resolveOperation, state_at_operations.
    erewrite bind_ok by (apply verboseOf_run; by apply readable_app).
    erewrite bind_throw; [reflexivity |].
    unfold getQueryOperation.
    erewrite bind_ok.
    2:{ eapply getProp_own; [simpl; by apply lookup_app_l_Some |].
        simpl. by rewrite decide_True. }
    simpl.
    destruct (truthy v); simpl; [|reflexivity].
    rewrite (bind_ok _ _ _ _ _ (isObject_run _ _)). simpl.
    rewrite (t_isObject_app _ _ _ Hv), Hobj. reflexivity.
  - simpl. rewrite !invocations_app, invocations_logged.
    change (EvAlloc (length h) :: logged h context 0 "** Executing query.")
      with ([EvAlloc (length h)] ++ logged h context 0 "** Executing query.").
    rewrite invocations_app, invocations_logged. simpl. by rewrite !app_nil_r.
Qed.

Lemma miniql_operation_not_an_object_witness :
  ∃ s',
    miniql sampleNatives 0 (VRef 0) VNull (VRef 1)
      (mkState [ORecord [("get", VStr "user")]; ORecord []] [])
    = (Throw (Error ("Expected query resolver for " +:+ quoted "get"
                     +:+ " to be an object.")), s')
    ∧ invocations (trace s') = [].
Proof.
  apply (miniql_operation_not_an_object sampleNatives 0
           [ORecord [("get", VStr "user")]; ORecord []] [] 0 VNull (VRef 1)
           "get" (VStr "user") []).
  - reflexivity.
  - exact I.
  - reflexivity.
  - simpl. lia.
Defined.

(** X4.  An entry of the registry that is not an object is rejected before
    any entity query is looked at: as an operation that is not supported
    when the entry is falsy or absent (and its name not one that the
    registry inherits from [Object.prototype]), as ill-typed otherwise. *)
Theorem miniql_operation_resolver_not_an_object
    (natives : fid → JVal → list JVal → Heap → Settled * Heap)
    (fuel : nat) (h : Heap) (tr : list Event) (lq lop lr : loc) (context : JVal)
    (opName : string) (operations entries registry : list (string * JVal)) :
  h !! lq = Some (ORecord ((opName, VRef lop) :: operations)) →
  h !! lop = Some (ORecord entries) →
  h !! lr = Some (ORecord registry) →
  (assoc_get registry opName = None → inherited_name opName = false) →
  valid h (default VUndef (assoc_get registry opName)) →
  t_isObject h (default VUndef (assoc_get registry opName)) = false →
  readable h context →
  ∃ s',
    miniql natives fuel (VRef lq) (VRef lr) context (mkState h tr)
    = (Throw (Error (if truthy (default VUndef (assoc_get registry opName))
                     then "Expected query resolver for " +:+ quoted opName
                          +:+ " to be an object."
                     else createMissingQueryOperationErrorMessage opName)), s')
    ∧ invocations (trace s') = invocations tr.
Proof.
  intros Hq Hlop Hr Hplain Hv Hobj Hctx. eexists. split.
  - eapply miniql_first_operation_throws; [exact Hq | exact Hctx |].
    unfold resolveOperation, state_at_operations.
    erewrite bind_ok by (apply verboseOf_run; by apply readable_app).
    erewrite bind_ok.
    2:{ eapply getQueryOperation_run; simpl.
        - by apply lookup_app_l_Some.
        - simpl. by rewrite decide_True.
        - by apply lookup_app_l_Some. }
    erewrite bind_throw; [reflexivity |].
    unfold getOperationResolver.
    erewrite bind_ok.
    2:{ apply getProp_entry; [|exact Hplain]. simpl. by apply lookup_app_l_Some. }
    destruct (truthy (default VUndef (assoc_get registry opName))); simpl;
      [|reflexivity].
    rewrite (bind_ok _ _ _ _ _ (isObject_run _ _)). simpl.
    rewrite (t_isObject_app _ _ _ Hv), Hobj. reflexivity.
  - simpl. rewrite !invocations_app, invocations_logged.
    change (EvAlloc (length h) :: logged h context 0 "** Executing query.")
      with ([EvAlloc (length h)] ++ logged h context 0 "** Executing query.").
    rewrite invocations_app, invocations_logged. simpl. by rewrite !app_nil_r.
Qed.

Lemma miniql_operation_resolver_not_an_object_witness :
  ∃ s',
    miniql sampleNatives 0 (VRef 1) (VRef 3) (VRef 4)
      (mkState [ORecord []; ORecord [("get", VRef 0)]; OArray [];
                ORecord [("get", VRef 2)]; ORecord []] [])
    = (Throw (Error ("Expected query resolver for " +:+ quoted "get"
                     +:+ " to be an object.")), s')
    ∧ invocations (trace s') = [].
Proof.
  apply (miniql_operation_resolver_not_an_object sampleNatives 0
           [ORecord []; ORecord [("get", VRef 0)]; OArray [];
            ORecord [("get", VRef 2)]; ORecord []] [] 1 0 3 (VRef 4)
           "get" [] [] [("get", VRef 2)]).
  - reflexivity.
  - reflexivity.
  - reflexivity.
  - reflexivity.
  - simpl. lia.
  - reflexivity.
  - simpl. lia.
Defined.

(** ** The guards of [resolveRootEntity] and [getGlobalEntityResolver] *)

(** [miniql] up to the first entity query of its first operation. *)
Lemma miniql_first_entity_throws
    (natives : fid → JVal → list JVal → Heap → Settled * Heap)
    (fuel : nat) (h : Heap) (tr : list Event) (rootQuery rootResolver context : JVal)
    (opName key : string) (lop lres : loc) (vq : JVal) (e : Exn) (s' : State) :
  first_entity h rootQuery rootResolver opName key lop lres vq →
  readable h context →
  resolveRootEntity natives fuel (VRef lop) (VRef (length h)) key
    (mkGlobals (VRef lres) opName context) 2 (state_at_entities h tr context opName)
  = (Throw e, s') →
  miniql natives fuel rootQuery rootResolver context (mkState h tr) = (Throw e, s').
Proof.
  intros (lq & lr & operations & entries & registry & resolvers
    & -> & -> & Hq & Hlop & Hr & Hop & Hlres) Hctx Hrun.
  eapply miniql_first_operation_throws; [exact Hq | exact Hctx |].
  unfold resolveOperation, state_at_operations.
  erewrite bind_ok by (apply verboseOf_run; by apply readable_app).
  erewrite bind_ok.
  2:{ eapply getQueryOperation_run; simpl.
      - by apply lookup_app_l_Some.
      - simpl. by rewrite decide_True.
      - by apply lookup_app_l_Some. }
  erewrite bind_ok.
  2:{ eapply getOperationResolver_run; simpl.
      - by apply lookup_app_l_Some.
      - exact Hop.
      - by apply lookup_app_l_Some. }
  erewrite bind_ok.
  2:{ apply objectKeys_run; [done..|]. simpl.
      by rewrite (lookup_app_l_Some _ _ _ _ Hlop). }
  rewrite fmap_cons, forEach_cons.
  erewrite bind_throw; [reflexivity |].
  rewrite (logged_app _ _ _ _ _ Hctx), <- app_assoc. exact Hrun.
Qed.

Lemma invocations_state_at_entities (h : Heap) (tr : list Event) (context : JVal)
    (opName : string) (tr' : list Event) :
  invocations (trace (state_at_entities h tr context opName) ++ tr')
  = invocations tr ++ invocations tr'.
Proof.
  unfold state_at_entities. simpl.
  change (EvAlloc (length h) :: logged h context 0 "** Executing query."
          ++ logged h context 1 ("= Invoking query operation " +:+ quoted opName +:+ "."))
    with ([EvAlloc (length h)] ++ logged h context 0 "** Executing query."
          ++ logged h context 1 ("= Invoking query operation " +:+ quoted opName +:+ ".")).
  rewrite !invocations_app, !invocations_logged. simpl. by rewrite app_nil_r.
Qed.

Lemma resolveRootEntity_query_not_an_object
    (natives : fid → JVal → list JVal → Heap → Settled * Heap)
    (fuel : nat) (lop : loc) (output : JVal) (key : string) (g : QueryGlobals)
    (lvl : nat) (h : Heap) (tr : list Event) (entries : list (string * JVal))
    (vq : JVal) :
  h !! lop = Some (ORecord entries) →
  assoc_get entries key = Some vq →
  t_isObject h vq = false →
  readable h (context g) →
  resolveRootEntity natives fuel (VRef lop) output key g lvl (mkState h tr)
  = (Throw (Error (if truthy vq
                   then "Expected entity query " +:+ quoted key
                        +:+ " under operation " +:+ quoted (opName g)
                        +:+ " to be an object."
                   else "Entity query " +:+ quoted key
                        +:+ " is missing under operation " +:+ quoted (opName g)
                        +:+ ".")),
     mkState h (tr ++ logged h (context g) lvl
                   ("= Resolving root entity " +:+ quoted key +:+ "."))).
Proof.
  intros Hlop Hkey Hobj Hctx. unfold resolveRootEntity.
  rewrite (bind_ok _ _ _ _ _ (verboseOf_run _ _ _ _ _ Hctx)).
  erewrite bind_ok by (by eapply getProp_own).
  simpl.
  destruct (truthy vq); simpl; [|reflexivity].
  rewrite (bind_ok _ _ _ _ _ (isObject_run _ _)). simpl. by rewrite Hobj.
Qed.

(** X5.  An entity query that is not an object is rejected before any
    resolver is looked up: as missing when its value is falsy, as ill-typed
    otherwise. *)
Theorem miniql_entity_query_not_an_object
    (natives : fid → JVal → list JVal → Heap → Settled * Heap)
    (fuel : nat) (h : Heap) (tr : list Event) (rootQuery rootResolver context : JVal)
    (opName key : string) (lop lres : loc) (vq : JVal) :
  first_entity h rootQuery rootResolver opName key lop lres vq →
  valid h vq →
  t_isObject h vq = false →
  readable h context →
  ∃ s',
    miniql natives fuel rootQuery rootResolver context (mkState h tr)
    = (Throw (Error (if truthy vq
                     then "Expected entity query " +:+ quoted key
                          +:+ " under operation " +:+ quoted opName
                          +:+ " to be an object."
                     else "Entity query " +:+ quoted key
                          +:+ " is missing under operation " +:+ quoted opName
                          +:+ ".")), s')
    ∧ invocations (trace s') = invocations tr.
Proof.
  intros Hfirst Hv Hobj Hctx.
  pose proof Hfirst as (lq & lr & operations & entries & registry & resolvers
    & _ & _ & _ & Hlop & _).
  eexists. split.
  - eapply miniql_first_entity_throws; [exact Hfirst | exact Hctx |].
    unfold state_at_entities.
    eapply (resolveRootEntity_query_not_an_object natives fuel lop _ key
              (mkGlobals (VRef lres) opName context)).
    + by apply lookup_app_l_Some.
    + simpl. by rewrite decide_True.
    + by rewrite (t_isObject_app _ _ _ Hv).
    + by apply readable_app.
  - simpl.
    rewrite (invocations_state_at_entities h tr context opName).
    by rewrite invocations_logged, app_nil_r.
Qed.

Lemma miniql_entity_query_not_an_object_witness :
  ∃ s',
    miniql sampleNatives 0 (VRef 2) (VRef 6) (VRef 7) (mkState (heapG [] VNull [] []) [])
    = (Throw (Error ("Entity query " +:+ quoted "user"
                     +:+ " is missing under operation " +:+ quoted "get" +:+ ".")), s')
    ∧ invocations (trace s') = [].
Proof.
  apply (miniql_entity_query_not_an_object sampleNatives 0 (heapG [] VNull [] []) []
           (VRef 2) (VRef 6) (VRef 7) "get" "user" 1 5 VNull).
  - exists 2, 6, [], [], [("get", VRef 5)], []. by repeat split.
  - exact I.
  - reflexivity.
  - simpl. lia.
Defined.

Lemma resolver_entry_app (h ext : Heap) (leq : loc) (key : string) (opres : JVal)
    (name : string) (r : JVal) :
  resolver_entry h leq key opres name r → resolver_entry (h ++ ext) leq key opres name r.
Proof.
  intros (qprops & lres & resolvers & Hq & Hname & -> & Hlres & ->).
  exists qprops, lres, resolvers. repeat split; try done; by apply lookup_app_l_Some.
Qed.

(** [resolveRootEntity] up to the checks of [getGlobalEntityResolver]. *)
Lemma resolveRootEntity_resolver_checks
    (natives : fid → JVal → list JVal → Heap → Settled * Heap)
    (fuel : nat) (lop leq : loc) (output : JVal) (key name : string) (g : QueryGlobals)
    (lvl : nat) (h : Heap) (tr : list Event) (entries : list (string * JVal))
    (r : JVal) :
  h !! lop = Some (ORecord entries) →
  assoc_get entries key = Some (VRef leq) →
  resolver_entry h leq key (operationResolver g) name r →
  readable h (context g) →
  let s1 :=
    mkState h (tr ++ logged h (context g) lvl
                       ("= Resolving root entity " +:+ quoted key +:+ ".")
                  ++ logged h (context g) (lvl + 1)
                       ("Getting global entity resolver " +:+ quoted name
                        +:+ " to resolve entity type " +:+ quoted key +:+ ".")) in
  (truthy r = false → inherited_name name = false →
   resolveRootEntity natives fuel (VRef lop) output key g lvl (mkState h tr)
   = (Throw (Error (createMissingGlobalResolverErrorMessage (opName g) key key
                      "query result")), s1))
  ∧ (∀ invoke, truthy r = true → get_own h r "invoke" = Some invoke →
     t_isFunction h invoke = false →
     resolveRootEntity natives fuel (VRef lop) output key g lvl (mkState h tr)
     = (Throw (Error (if truthy invoke
                      then "Expected " +:+ quoted "invoke"
                           +:+ " function for entity resolver " +:+ quoted key
                           +:+ " is to be a function."
                      else "Entity resolver " +:+ quoted key
                           +:+ " is missing an " +:+ quoted "invoke"
                           +:+ " function.")), s1)).
Proof.
  intros Hlop Hkey (qprops & lres & resolvers & Hq & Hname & Hop & Hlres & ->) Hctx s1.
  assert (∀ k : JVal → M unit,
    (resolveRootEntity natives fuel (VRef lop) output key g lvl (mkState h tr)
     = (getGlobalEntityResolver g name key "query result" (lvl + 1) ≫= k)
         (mkState h (tr ++ logged h (context g) lvl
                        ("= Resolving root entity " +:+ quoted key +:+ "."))) →
     ∀ e, getGlobalEntityResolver g name key "query result" (lvl + 1)
            (mkState h (tr ++ logged h (context g) lvl
                           ("= Resolving root entity " +:+ quoted key +:+ ".")))
          = (Throw e, s1) →
     resolveRootEntity natives fuel (VRef lop) output key g lvl (mkState h tr)
     = (Throw e, s1))) as Hlift.
  { intros k -> e He. by erewrite bind_throw. }
  assert (∃ k : JVal → M unit,
    resolveRootEntity natives fuel (VRef lop) output key g lvl (mkState h tr)
    = (getGlobalEntityResolver g name key "query result" (lvl + 1) ≫= k)
        (mkState h (tr ++ logged h (context g) lvl
                       ("= Resolving root entity " +:+ quoted key +:+ "."))))
    as [k Hk].
  { eexists. unfold resolveRootEntity.
    rewrite (bind_ok _ _ _ _ _ (verboseOf_run _ _ _ _ _ Hctx)).
    erewrite bind_ok by (by eapply getProp_own).
    simpl.
    rewrite (bind_ok _ _ _ _ _ (isObject_run _ _)). simpl. rewrite Hq. simpl.
    erewrite bind_ok by (by eapply resolverName_run).
    reflexivity. }
  split.
  - intros Hfalsy Hplain. eapply Hlift; [exact Hk |].
    unfold getGlobalEntityResolver. rewrite Hop.
    rewrite (bind_ok _ _ _ _ _ (verboseOf_run _ _ _ _ _ Hctx)).
    erewrite bind_ok by (by apply getProp_record).
    rewrite Hfalsy. simpl. unfold s1. by rewrite <- app_assoc.
  - intros invoke Htruthy Hinvoke Hfun. eapply Hlift; [exact Hk |].
    unfold getGlobalEntityResolver. rewrite Hop.
    rewrite (bind_ok _ _ _ _ _ (verboseOf_run _ _ _ _ _ Hctx)).
    erewrite bind_ok
      by (apply getProp_lookup; [done | left; by apply truthy_lookup]).
    rewrite Htruthy. simpl.
    destruct (truthy_not_nullish _ Htruthy) as [Hu Hn].
    erewrite bind_ok by (by apply getProp_run).
    destruct (truthy invoke); simpl.
    + rewrite (bind_ok _ _ _ _ _ (isFunction_run _ _)). simpl. rewrite Hfun. simpl.
      unfold s1. by rewrite <- app_assoc.
    + unfold s1. by rewrite <- app_assoc.
Qed.

Lemma missing_global_resolver_message_names (opName key location : string) :
  contains key (createMissingGlobalResolverErrorMessage opName key key location)
  ∧ contains opName (createMissingGlobalResolverErrorMessage opName key key location).
Proof.
  unfold createMissingGlobalResolverErrorMessage. split.
  - do 2 apply contains_prepend. apply contains_append, contains_quoted.
  - do 4 apply contains_prepend. apply contains_append, contains_quoted.
Qed.

(** X6.  An entity query whose resolver is not in the registry of the
    operation, under a name that the registry does not inherit from
    [Object.prototype] either, is rejected with the message of
    [createMissingGlobalResolverErrorMessage], which names the operation
    and the query key: the name that was looked up, [from] when there is
    one, is not what the message is built from. *)
Theorem miniql_missing_entity_resolver
    (natives : fid → JVal → list JVal → Heap → Settled * Heap)
    (fuel : nat) (h : Heap) (tr : list Event) (rootQuery rootResolver context : JVal)
    (opName key name : string) (lop lres leq : loc) (r : JVal) :
  first_entity h rootQuery rootResolver opName key lop lres (VRef leq) →
  resolver_entry h leq key (VRef lres) name r →
  truthy r = false →
  inherited_name name = false →
  readable h context →
  ∃ s',
    miniql natives fuel rootQuery rootResolver context (mkState h tr)
    = (Throw (Error (createMissingGlobalResolverErrorMessage opName key key
                       "query result")), s')
    ∧ includes key (createMissingGlobalResolverErrorMessage opName key key
                      "query result") = true
    ∧ includes opName (createMissingGlobalResolverErrorMessage opName key key
                         "query result") = true
    ∧ invocations (trace s') = invocations tr.
Proof.
  intros Hfirst Hentry Hfalsy Hplain Hctx.
  pose proof Hfirst as (lq & lr & operations & entries & registry & resolvers
    & _ & _ & _ & Hlop & _).
  destruct (resolveRootEntity_resolver_checks natives fuel lop leq
              (VRef (length h)) key name (mkGlobals (VRef lres) opName context) 2
              (h ++ [ORecord []]) (trace (state_at_entities h tr context opName))
              ((key, VRef leq) :: entries) r) as [Hmissing _].
  { by apply lookup_app_l_Some. }
  { simpl. by rewrite decide_True. }
  { by apply resolver_entry_app. }
  { by apply readable_app. }
  eexists. split; [|split; [|split]].
  - eapply miniql_first_entity_throws; [exact Hfirst | exact Hctx |].
    by apply Hmissing.
  - apply includes_contains, missing_global_resolver_message_names.
  - apply includes_contains, missing_global_resolver_message_names.
  - cbn [trace]. rewrite (invocations_state_at_entities h tr context opName).
    by rewrite invocations_app, !invocations_logged, app_nil_r.
Qed.

Lemma miniql_missing_entity_resolver_witness :
  ∃ s',
    miniql sampleNatives 0 (VRef 2) (VRef 6) (VRef 7)
      (mkState (heapG [("from", VStr "account")] (VRef 0) [] []) [])
    = (Throw (Error (createMissingGlobalResolverErrorMessage "get" "user" "user"
                       "query result")), s')
    ∧ includes "user" (createMissingGlobalResolverErrorMessage "get" "user" "user"
                         "query result") = true
    ∧ includes "get" (createMissingGlobalResolverErrorMessage "get" "user" "user"
                        "query result") = true
    ∧ invocations (trace s') = [].
Proof.
  apply (miniql_missing_entity_resolver sampleNatives 0
           (heapG [("from", VStr "account")] (VRef 0) [] []) []
           (VRef 2) (VRef 6) (VRef 7) "get" "user" "account" 1 5 0 VUndef).
  - exists 2, 6, [], [], [("get", VRef 5)], []. by repeat split.
  - exists [("from", VStr "account")], 5, []. by repeat split.
  - reflexivity.
  - reflexivity.
  - simpl. lia.
Defined.

(** The name that was looked up, [account], is not in the message. *)
Example missing_entity_resolver_message_omits_from :
  includes "account" (createMissingGlobalResolverErrorMessage "get" "user" "user"
                        "query result") = false.
Proof. vm_compute. reflexivity. Qed.

(** X7.  A registry entry that has no [invoke], or whose [invoke] is not a
    function, is rejected before anything is called.  A resolver that is
    registered as a function, rather than as an object with an [invoke]
    function, is of the first kind. *)
Theorem miniql_resolver_without_invoke
    (natives : fid → JVal → list JVal → Heap → Settled * Heap)
    (fuel : nat) (h : Heap) (tr : list Event) (rootQuery rootResolver context : JVal)
    (opName key name : string) (lop lres leq : loc) (r invoke : JVal) :
  first_entity h rootQuery rootResolver opName key lop lres (VRef leq) →
  resolver_entry h leq key (VRef lres) name r →
  truthy r = true →
  get_own h r "invoke" = Some invoke →
  valid h invoke →
  t_isFunction h invoke = false →
  readable h context →
  ∃ s',
    miniql natives fuel rootQuery rootResolver context (mkState h tr)
    = (Throw (Error (if truthy invoke
                     then "Expected " +:+ quoted "invoke"
                          +:+ " function for entity resolver " +:+ quoted key
                          +:+ " is to be a function."
                     else "Entity resolver " +:+ quoted key
                          +:+ " is missing an " +:+ quoted "invoke"
                          +:+ " function.")), s')
    ∧ invocations (trace s') = invocations tr.
Proof.
  intros Hfirst Hentry Htruthy Hinvoke Hv Hfun Hctx.
  pose proof Hfirst as (lq & lr & operations & entries & registry & resolvers
    & _ & _ & _ & Hlop & _).
  destruct (resolveRootEntity_resolver_checks natives fuel lop leq
              (VRef (length h)) key name (mkGlobals (VRef lres) opName context) 2
              (h ++ [ORecord []]) (trace (state_at_entities h tr context opName))
              ((key, VRef leq) :: entries) r) as [_ Hshape].
  { by apply lookup_app_l_Some. }
  { simpl. by rewrite decide_True. }
  { by apply resolver_entry_app. }
  { by apply readable_app. }
  eexists. split.
  - eapply miniql_first_entity_throws; [exact Hfirst | exact Hctx |].
    apply Hshape; [exact Htruthy | by apply get_own_app |].
    by rewrite (t_isFunction_app _ _ _ Hv).
  - cbn [trace]. rewrite (invocations_state_at_entities h tr context opName).
    by rewrite invocations_app, !invocations_logged, app_nil_r.
Qed.

Lemma miniql_resolver_without_invoke_witness :
  ∃ s',
    miniql sampleNatives 0 (VRef 2) (VRef 6) (VRef 7)
      (mkState (heapG [] (VRef 0) [] [("user", VRef 3)]) [])
    = (Throw (Error ("Entity resolver " +:+ quoted "user"
                     +:+ " is missing an " +:+ quoted "invoke" +:+ " function.")), s')
    ∧ invocations (trace s') = [].
Proof.
  apply (miniql_resolver_without_invoke sampleNatives 0
           (heapG [] (VRef 0) [] [("user", VRef 3)]) []
           (VRef 2) (VRef 6) (VRef 7) "get" "user" "user" 1 5 0 (VRef 3) VUndef).
  - exists 2, 6, [], [], [("get", VRef 5)], [("user", VRef 3)]. by repeat split.
  - exists [], 5, [("user", VRef 3)]. by repeat split.
  - reflexivity.
  - reflexivity.
  - exact I.
  - reflexivity.
  - simpl. lia.
Defined.

(** ** A root resolver that rejects *)

Lemma resolveRootEntity_rejected
    (natives : fid → JVal → list JVal → Heap → Settled * Heap)
    (fuel : nat) (lop leq : loc) (output : JVal) (key name : string) (g : QueryGlobals)
    (lvl : nat) (h : Heap) (tr : list Event) (entries qprops : list (string * JVal))
    (lr : loc) (rprops : list (string * JVal)) (f : fid) (x : JVal) :
  h !! lop = Some (ORecord entries) →
  assoc_get entries key = Some (VRef leq) →
  h !! leq = Some (ORecord qprops) →
  resolver_name qprops key = Some name →
  entity_resolver h (operationResolver g) name lr rprops f →
  readable h (context g) →
  rejects natives f x →
  resolveRootEntity natives fuel (VRef lop) output key g lvl (mkState h tr)
  = (Throw (Thrown x),
     mkState (natives f (VRef lr) [passed_args h qprops; context g]
                (args_heap h qprops)).2
       (tr ++ logged h (context g) lvl
                ("= Resolving root entity " +:+ quoted key +:+ ".")
           ++ logged h (context g) (lvl + 1)
                ("Getting global entity resolver " +:+ quoted name
                 +:+ " to resolve entity type " +:+ quoted key +:+ ".")
           ++ args_events h qprops
           ++ [EvInvoke f (VRef lr) [passed_args h qprops; context g] (Rejected x)])).
Proof.
  intros Hlop Hkey Hleq Hname Hres Hctx Hrej.
  pose proof Hres as (lres & resolvers & lf & Hop & Hlres & Hrn & Hlr & Hinvoke & Hlf).
  destruct (args_heap_app h qprops) as [ext0 Hext0].
  unfold resolveRootEntity.
  rewrite (bind_ok _ _ _ _ _ (verboseOf_run _ _ _ _ _ Hctx)).
  erewrite bind_ok by (by eapply getProp_own).
  simpl.
  rewrite (bind_ok _ _ _ _ _ (isObject_run _ _)). simpl. rewrite Hleq. simpl.
  erewrite bind_ok by (by eapply resolverName_run).
  erewrite bind_ok by (by eapply getGlobalEntityResolver_run).
  erewrite bind_ok by (by apply getProp_record).
  rewrite Hinvoke. simpl.
  erewrite bind_ok by (by apply argsOrEmpty_run').
  erewrite bind_ok.
  2:{ apply call_run. rewrite Hext0. by apply lookup_app_l_Some. }
  rewrite (Hrej (VRef lr) [passed_args h qprops; context g] (args_heap h qprops)).
  simpl. by rewrite <- !app_assoc.
Qed.

(** X8.  When the resolver of an entity query rejects, [miniql] rejects with
    the very value the resolver rejected with; that call is the only one
    made, and nothing is assigned to the output. *)
Theorem miniql_root_resolver_rejects
    (natives : fid → JVal → list JVal → Heap → Settled * Heap)
    (fuel : nat) (h : Heap) (tr : list Event) (rootQuery rootResolver context : JVal)
    (opName key name : string) (lop lres leq : loc) (qprops : list (string * JVal))
    (lr : loc) (rprops : list (string * JVal)) (f : fid) (x : JVal) :
  first_entity h rootQuery rootResolver opName key lop lres (VRef leq) →
  h !! leq = Some (ORecord qprops) →
  resolver_name qprops key = Some name →
  entity_resolver h (VRef lres) name lr rprops f →
  rejects natives f x →
  readable h context →
  ∃ s' tr' args,
    miniql natives fuel rootQuery rootResolver context (mkState h tr)
    = (Throw (Thrown x), s')
    ∧ trace s' = tr ++ tr'
    ∧ invocations tr' = [mkInvocation f (VRef lr) [args; context] (Rejected x)]
    ∧ no_writes tr'.
Proof.
  intros Hfirst Hleq Hname Hres Hrej Hctx.
  pose proof Hfirst as (lq & lr' & operations & entries & registry & resolvers
    & _ & _ & _ & Hlop & _).
  pose proof (resolveRootEntity_rejected natives fuel lop leq (VRef (length h)) key name
                (mkGlobals (VRef lres) opName context) 2 (h ++ [ORecord []])
                (trace (state_at_entities h tr context opName))
                ((key, VRef leq) :: entries) qprops lr rprops f x) as Hrun.
  eexists _, _, _. split; [|split; [|split]].
  - eapply miniql_first_entity_throws; [exact Hfirst | exact Hctx |].
    apply Hrun; try done.
    + by apply lookup_app_l_Some.
    + simpl. by rewrite decide_True.
    + by apply lookup_app_l_Some.
    + by apply entity_resolver_app.
    + by apply readable_app.
  - cbn [trace state_at_entities]. rewrite <- app_assoc. reflexivity.
  - change (EvAlloc (length h) :: ?l) with ([EvAlloc (length h)] ++ l).
    rewrite !invocations_app, !invocations_logged, invocations_args_events.
    reflexivity.
  - change (EvAlloc (length h) :: ?l) with ([EvAlloc (length h)] ++ l).
    repeat (apply no_writes_app; [|]);
      try apply no_writes_logged; try apply no_writes_args_events;
      intros l k v H; apply list_elem_of_singleton in H; discriminate.
Qed.

Lemma miniql_root_resolver_rejects_witness :
  ∃ s' tr' args,
    miniql sampleNatives 0 (VRef 2) (VRef 6) (VRef 7)
      (mkState (heapG [] (VRef 0) [("invoke", VRef 3)] [("user", VRef 4)]) [])
    = (Throw (Thrown (VStr "no")), s')
    ∧ trace s' = [] ++ tr'
    ∧ invocations tr' = [mkInvocation 6 (VRef 4) [args; VRef 7] (Rejected (VStr "no"))]
    ∧ no_writes tr'.
Proof.
  apply (miniql_root_resolver_rejects sampleNatives 0
           (heapG [] (VRef 0) [("invoke", VRef 3)] [("user", VRef 4)]) []
           (VRef 2) (VRef 6) (VRef 7) "get" "user" "user" 1 5 0 [] 4
           [("invoke", VRef 3)] 6 (VStr "no")).
  - exists 2, 6, [], [], [("get", VRef 5)], [("user", VRef 4)]. by repeat split.
  - reflexivity.
  - reflexivity.
  - exists 5, [("user", VRef 4)], 3. by repeat split.
  - intros this args h. reflexivity.
  - simpl. lia.
Defined.

(** ** The nested stage: nothing to resolve *)

(** X9.  An entity query whose [resolve] is falsy, or has no keys ([{}], but
    also [true], a number or an empty array), has no relations: the nested
    stage returns at once and leaves no trace. *)
Theorem resolveNestedEntities_nothing_to_resolve
    (natives : fid → JVal → list JVal → Heap → Settled * Heap)
    (fuel : nat) (entityQuery parentEntity : JVal) (pname ptype : string)
    (g : QueryGlobals) (lvl : nat) (s : State) (r : JVal) :
  entityQuery ≠ VUndef → entityQuery ≠ VNull →
  get_own (heap s) entityQuery "resolve" = Some r →
  truthy r = false ∨ own_props (heap s) r = Some [] →
  resolveNestedEntities natives (S fuel) entityQuery parentEntity pname ptype g lvl s
  = (Ok tt, s).
Proof.
  intros Hu Hn Hr Hnone. simpl.
  rewrite (bind_ok _ _ _ _ _ (getProp_run _ _ _ _ Hu Hn Hr)).
  destruct (truthy r) eqn:Htruthy; [|reflexivity].
  destruct Hnone as [? | Hkeys]; [done |].
  destruct (truthy_not_nullish _ Htruthy) as [Hur Hnr].
  by rewrite (bind_ok _ _ _ _ _ (objectKeys_run _ _ _ Hur Hnr Hkeys)).
Qed.

Lemma resolveNestedEntities_nothing_to_resolve_witness :
  resolveNestedEntities sampleNatives 1 (VRef 0) VNull "user" "user"
    (mkGlobals VNull "get" VNull) 4 (mkState [ORecord [("resolve", VBool true)]] [])
  = (Ok tt, mkState [ORecord [("resolve", VBool true)]] []).
Proof.
  apply (resolveNestedEntities_nothing_to_resolve sampleNatives 0 (VRef 0) VNull
           "user" "user" (mkGlobals VNull "get" VNull) 4
           (mkState [ORecord [("resolve", VBool true)]] []) (VBool true)).
  - discriminate.
  - discriminate.
  - reflexivity.
  - right. reflexivity.
Defined.

(** ** The fan-out: empty arrays and failing lookups *)

(** X10.  A relation on a parent that is an empty array resolves to nothing
    and succeeds: no task is started, so nothing is looked up, and a
    nested resolver that does not exist goes unnoticed. *)
Theorem fan_out_over_empty_array
    (natives : fid → JVal → list JVal → Heap → Settled * Heap)
    (rec : JVal → JVal → string → string → QueryGlobals → nat → M unit)
    (le la lnq : loc) (nqprops : list (string * JVal)) (pname ptype rel : string)
    (g : QueryGlobals) (lvl : nat) (s : State) :
  relation_query (heap s) le rel lnq nqprops →
  heap s !! la = Some (OArray []) →
  resolveRelation natives rec (VRef le) (VRef la) pname ptype g lvl rel s = (Ok tt, s).
Proof.
  intros (qprops & lres & rprops & Hle & Hresolve & Hlres & Hrel & Hlnq) Hla.
  unfold resolveRelation.
  rewrite (bind_ok _ _ _ _ _ (getProp_record _ "resolve" _ _ Hle eq_refl)), Hresolve.
  simpl.
  rewrite (bind_ok _ _ _ _ _ (getProp_own _ _ _ _ _ Hlres Hrel)). simpl.
  rewrite (bind_ok _ _ _ _ _ (isObject_run _ _)). simpl. rewrite Hlnq. simpl.
  rewrite (bind_ok _ _ _ _ _ (isArray_run _ _)). simpl. rewrite Hla.
  rewrite (bind_ok _ _ _ _ _ (arrayElems_run la s [] Hla)).
  reflexivity.
Qed.

Lemma fan_out_over_empty_array_witness :
  resolveRelation sampleNatives (resolveNestedEntities sampleNatives 1)
    (VRef 2) (VRef 3) "users" "users" (mkGlobals VNull "get" VNull) 4 "roles"
    (mkState [ORecord []; ORecord [("roles", VRef 0)]; ORecord [("resolve", VRef 1)];
              OArray []] [])
  = (Ok tt,
     mkState [ORecord []; ORecord [("roles", VRef 0)]; ORecord [("resolve", VRef 1)];
              OArray []] []).
Proof.
  apply (fan_out_over_empty_array sampleNatives (resolveNestedEntities sampleNatives 1)
           2 3 0 [] "users" "users" "roles" (mkGlobals VNull "get" VNull) 4
           (mkState [ORecord []; ORecord [("roles", VRef 0)];
                     ORecord [("resolve", VRef 1)]; OArray []] [])).
  - exists [("resolve", VRef 1)], 1, [("roles", VRef 0)]. by repeat split.
  - reflexivity.
Defined.

(** The start of a nested resolution whose lookup fails. *)
Lemma startNestedEntity_lookup_fails
    (natives : fid → JVal → list JVal → Heap → Settled * Heap)
    (lnq : loc) (parentEntity : JVal) (pname ptype rel name : string)
    (g : QueryGlobals) (lvl : nat) (h : Heap) (tr : list Event)
    (nqprops : list (string * JVal)) (lr : loc) (rprops : list (string * JVal))
    (f0 : fid) :
  h !! lnq = Some (ORecord nqprops) →
  resolver_name nqprops rel = Some name →
  entity_resolver h (operationResolver g) pname lr rprops f0 →
  readable h (context g) →
  nested_lookup_fails h rprops name →
  startNestedEntity natives (VRef lnq) parentEntity pname ptype rel g lvl (mkState h tr)
  = (Throw (Error (nested_lookup_message rprops (opName g) name pname)),
     mkState h (tr ++ startNested_logs h g lvl pname ptype rel)).
Proof.
  intros Hq Hname Hres Hctx Hfails.
  pose proof Hres as (lres & resolvers & lf0 & Hop & Hlres & Hrn & Hlr & Hinvoke0 & Hlf0).
  unfold nested_lookup_fails in Hfails. unfold nested_lookup_message.
  unfold startNestedEntity.
  rewrite (bind_ok _ _ _ _ _ (verboseOf_run _ _ _ _ _ Hctx)).
  erewrite bind_ok by (by eapply getGlobalEntityResolver_run).
  erewrite bind_ok by (by eapply resolverName_run).
  erewrite bind_ok by (by apply getProp_record).
  destruct (truthy (default VUndef (assoc_get rprops "nested"))) eqn:Htruthy; simpl.
  - destruct Hfails as [Hf | Hundef]; [congruence |].
    destruct (truthy_not_nullish _ Htruthy) as [Hu Hn].
    erewrite bind_ok by (by apply getProp_run). simpl.
    unfold startNested_logs. by rewrite <- !app_assoc.
  - unfold startNested_logs. by rewrite <- !app_assoc.
Qed.

Lemma mapTasks_lookup_fails
    (natives : fid → JVal → list JVal → Heap → Settled * Heap)
    (lnq : loc) (pname ptype rel name : string)
    (g : QueryGlobals) (lvl : nat) (h : Heap)
    (nqprops : list (string * JVal)) (lr : loc) (rprops : list (string * JVal))
    (f0 : fid) (elems : list JVal) :
  h !! lnq = Some (ORecord nqprops) →
  resolver_name nqprops rel = Some name →
  entity_resolver h (operationResolver g) pname lr rprops f0 →
  readable h (context g) →
  nested_lookup_fails h rprops name →
  ∀ tr, ∃ tr',
    mapTasks elems
      (λ e, startNestedEntity natives (VRef lnq) e pname ptype rel g lvl) (mkState h tr)
    = (Ok ((λ e, (e, inl (Error (nested_lookup_message rprops (opName g) name pname))))
             <$> elems),
       mkState h (tr ++ tr'))
    ∧ invocations tr' = [].
Proof.
  intros Hq Hname Hres Hctx Hfails.
  induction elems as [|e elems IH]; intros tr.
  - exists []. by rewrite app_nil_r.
  - destruct (IH (tr ++ startNested_logs h g lvl pname ptype rel)) as (tr' & Hrun & Hinv).
    exists (startNested_logs h g lvl pname ptype rel ++ tr'). split.
    + simpl. unfold settle at 1. rewrite bind_unfold.
      rewrite (startNestedEntity_lookup_fails natives lnq e pname ptype rel name g lvl
                 h tr nqprops lr rprops f0 Hq Hname Hres Hctx Hfails).
      rewrite bind_unfold, Hrun. simpl. by rewrite <- app_assoc.
    + by rewrite invocations_app, invocations_startNested_logs, Hinv.
Qed.

(** X11.  A relation whose nested resolver cannot be found (the lookup
    gives [undefined]: the name is not in the [nested] map, nor inherited
    by it), on a parent that is an array with elements: the batch is
    rejected with the message of the failed lookup; no resolver is called
    and the heap is as it was. *)
Theorem fan_out_lookup_failure
    (natives : fid → JVal → list JVal → Heap → Settled * Heap)
    (rec : JVal → JVal → string → string → QueryGlobals → nat → M unit)
    (le la lnq : loc) (nqprops : list (string * JVal)) (elems : list JVal)
    (pname ptype rel name : string) (g : QueryGlobals) (lvl : nat)
    (h : Heap) (tr : list Event) (lr : loc) (rprops : list (string * JVal)) (f0 : fid) :
  relation_query h le rel lnq nqprops →
  resolver_name nqprops rel = Some name →
  entity_resolver h (operationResolver g) pname lr rprops f0 →
  readable h (context g) →
  nested_lookup_fails h rprops name →
  h !! la = Some (OArray elems) →
  elems ≠ [] →
  ∃ tr',
    resolveRelation natives rec (VRef le) (VRef la) pname ptype g lvl rel (mkState h tr)
    = (Throw (Error (nested_lookup_message rprops (opName g) name pname)),
       mkState h (tr ++ tr'))
    ∧ invocations tr' = []
    ∧ includes name (nested_lookup_message rprops (opName g) name pname) = true.
Proof.
  intros (qprops & lres & relprops & Hle & Hresolve & Hlres & Hrel & Hlnq)
    Hname Hres Hctx Hfails Hla Hne.
  destruct (mapTasks_lookup_fails natives lnq pname ptype rel name g lvl h nqprops
              lr rprops f0 elems Hlnq Hname Hres Hctx Hfails tr) as (tr' & Hmap & Hinv).
  exists tr'. split; [|split; [exact Hinv |]].
  - unfold resolveRelation.
    rewrite (bind_ok _ _ _ _ _ (getProp_record le "resolve" (mkState h tr) _ Hle eq_refl)).
    rewrite Hresolve. simpl.
    rewrite (bind_ok _ _ _ _ _ (getProp_own lres rel (mkState h tr) _ _ Hlres Hrel)).
    simpl.
    rewrite (bind_ok _ _ _ _ _ (isObject_run _ _)). simpl. rewrite Hlnq. simpl.
    rewrite (bind_ok _ _ _ _ _ (isArray_run _ _)). simpl. rewrite Hla.
    rewrite (bind_ok _ _ _ _ _ (arrayElems_run la (mkState h tr) elems Hla)).
    rewrite (bind_ok _ _ _ _ _ Hmap).
    unfold promiseAll, firstRejected. by destruct elems.
  - apply includes_contains. unfold nested_lookup_message.
    destruct (truthy (default VUndef (assoc_get rprops "nested")));
      apply nested_messages_name.
Qed.

Lemma fan_out_lookup_failure_witness :
  ∃ tr',
    resolveRelation sampleNatives (resolveNestedEntities sampleNatives 1)
      (VRef 2) (VRef 14) "user" "user" (mkGlobals (VRef 10) "get" (VRef 12)) 4 "posts"
      (mkState (heapB (VRef 0) (VRef 13) [("from", VStr "articles")] 1
                ++ [OArray [VRef 0]]) [])
    = (Throw (Error (nested_lookup_message [("invoke", VRef 5); ("nested", VRef 8)]
                       "get" "articles" "user")),
       mkState (heapB (VRef 0) (VRef 13) [("from", VStr "articles")] 1
                ++ [OArray [VRef 0]]) ([] ++ tr'))
    ∧ invocations tr' = []
    ∧ includes "articles"
        (nested_lookup_message [("invoke", VRef 5); ("nested", VRef 8)]
           "get" "articles" "user") = true.
Proof.
  apply (fan_out_lookup_failure sampleNatives (resolveNestedEntities sampleNatives 1)
           2 14 13 [("from", VStr "articles")] [VRef 0] "user" "user" "posts" "articles"
           (mkGlobals (VRef 10) "get" (VRef 12)) 4
           (heapB (VRef 0) (VRef 13) [("from", VStr "articles")] 1 ++ [OArray [VRef 0]])
           [] 9 [("invoke", VRef 5); ("nested", VRef 8)] 0).
  - exists [("args", VRef 0); ("resolve", VRef 1)], 1, [("posts", VRef 13)].
    by repeat split.
  - reflexivity.
  - exists 10, [("user", VRef 9)], 5. by repeat split.
  - simpl. lia.
  - right. reflexivity.
  - reflexivity.
  - discriminate.
Defined.

(** ** The fan-out: calls before assignments *)

Lemma resolveRelation_array_calls_witness :
  let run :=
    resolveRelation sampleNatives (resolveNestedEntities sampleNatives 1)
      (VRef 2) (VRef 15) "users" "users" (mkGlobals (VRef 10) "get" (VRef 12)) 4
      "roles" (mkState heapD []) in
  ∃ tr1 tr2,
    trace run.2 = [] ++ tr1 ++ tr2
    ∧ Forall2 (nested_call 1 7 (VRef 12)) [VRef 13; VRef 14] (invocations tr1)
    ∧ no_writes tr1
    ∧ (run.1 = Ok tt →
       Forall (λ e, has_field (heap run.2) e "roles") [VRef 13; VRef 14]
       ∧ heap run.2 !! 15 = Some (OArray [VRef 13; VRef 14])).
Proof.
  intros run.
  destruct (resolveRelation_array_calls sampleNatives sampleNatives_only_allocate
              1 2 15 0 [] [VRef 13; VRef 14] "users" "users" "roles" "roles"
              (mkGlobals (VRef 10) "get" (VRef 12)) 4 7 1 heapD [])
    as (tr1 & tr2 & Htr & Hcalls & Hnw & Hok).
  - exists [("resolve", VRef 1)], 1, [("roles", VRef 0)]. by repeat split.
  - reflexivity.
  - exists 9, [("invoke", VRef 5); ("nested", VRef 8)], 5, 8, [("roles", VRef 7)],
      [("invoke", VRef 6)], 6.
    split; [|by repeat split].
    exists 10, [("users", VRef 9)], 5. by repeat split.
  - simpl. lia.
  - reflexivity.
  - exists tr1, tr2. split; [exact Htr |]. split; [exact Hcalls |].
    split; [exact Hnw |]. intros Hrun. destruct (Hok Hrun) as [Hfields Harr].
    split; [by apply Hfields | exact Harr].
Defined.

(** ** The nested stage on a single parent *)

(** [resolveNestedEntity] on one parent, for a nested query without
    relations. *)
Lemma resolveNestedEntity_leaf_run
    (natives : fid → JVal → list JVal → Heap → Settled * Heap)
    (fuel : nat) (lnq lp : loc) (pname ptype rel name : string)
    (g : QueryGlobals) (lvl : nat) (h : Heap) (tr : list Event)
    (nqprops pprops : list (string * JVal)) (lnr : loc) (f : fid)
    (v : JVal) (ext : Heap) :
  h !! lnq = Some (ORecord nqprops) →
  truthy (default VUndef (assoc_get nqprops "resolve")) = false →
  resolver_name nqprops rel = Some name →
  nested_resolver h (operationResolver g) pname name lnr f →
  readable h (context g) →
  h !! lp = Some (ORecord pprops) →
  lp ≠ lnq →
  natives f (VRef lnr) [VRef lp; passed_args h nqprops; context g] (args_heap h nqprops)
  = (Fulfilled v, args_heap h nqprops ++ ext) →
  clonable (args_heap h nqprops ++ ext) v →
  let h1 := args_heap h nqprops ++ ext in
  ∃ lc objs tr',
    resolveNestedEntity natives (S fuel) (VRef lnq) (VRef lp) pname ptype rel g lvl
      (mkState h tr)
    = (Ok tt,
       mkState (<[lp := ORecord (assign_prop pprops rel (VRef lc))]> (h1 ++ objs))
         (tr ++ tr'))
    ∧ shallow_clone (length h1) (h1 ++ objs) v (VRef lc)
    ∧ invocations tr'
      = [mkInvocation f (VRef lnr) [VRef lp; passed_args h nqprops; context g]
           (Fulfilled v)]
    ∧ last tr' = Some (EvWrite lp rel (VRef lc))
    ∧ tr' = startNested_logs h g lvl pname ptype rel ++ args_events h nqprops
            ++ [EvInvoke f (VRef lnr) [VRef lp; passed_args h nqprops; context g]
                  (Fulfilled v)]
            ++ (EvAlloc <$> seq (length h1) (length objs))
            ++ [EvWrite lp rel (VRef lc)].
Proof.
  intros Hq Hleaf Hname Hnres Hctx Hlp Hne Hnat Hv h1.
  destruct (args_heap_app h nqprops) as [ext0 Hext0].
  destruct (cloneEntity_run v h1
              (tr ++ startNested_logs h g lvl pname ptype rel ++ args_events h nqprops
                  ++ [EvInvoke f (VRef lnr) [VRef lp; passed_args h nqprops; context g]
                        (Fulfilled v)]) Hv)
    as (objs & lc & Hclone & _ & Hsh).
  assert (h1 !! lp = Some (ORecord pprops)) as Hlp1.
  { subst h1. rewrite Hext0, <- app_assoc. by apply lookup_app_l_Some. }
  assert (h1 !! lnq = Some (ORecord nqprops)) as Hq1.
  { subst h1. rewrite Hext0, <- app_assoc. by apply lookup_app_l_Some. }
  exists lc, objs. eexists. split; [|split; [exact Hsh |split; [|split]]].
  - unfold resolveNestedEntity.
    erewrite bind_ok by (by eapply startNestedEntity_run).
    rewrite Hnat. simpl. fold h1.
    unfold finishNestedEntity. simpl.
    rewrite (bind_ok _ _ _ _ _ (await_fulfilled _ _)).
    rewrite (bind_ok _ _ _ _ _ (isArray_run _ _)). simpl.
    rewrite (bind_ok _ _ _ _ _ Hclone).
    erewrite bind_ok by (apply setProp_run; by apply lookup_app_l_Some).
    etrans; [eapply resolveNestedEntities_flat; [|exact Hleaf] |].
    + simpl. rewrite list_lookup_insert_ne by done. by apply lookup_app_l_Some.
    + rewrite <- !app_assoc. reflexivity.
  - rewrite !invocations_app, invocations_startNested_logs, invocations_args_events,
      invocations_allocs. reflexivity.
  - rewrite !app_assoc. apply last_snoc.
  - reflexivity.
Qed.

(** X12.  What a nested resolver fulfils with is cloned first and the clone is
    assigned to the relation field of the parent afterwards, as the last
    thing done; the other properties of the parent are kept, and a
    property that had the name of the relation is replaced.  The nested
    query has no relations of its own, and the name of the relation is an
    ordinary key: not made of digits, and not [__proto__]. *)
Theorem nested_result_is_cloned_and_attached
    (natives : fid → JVal → list JVal → Heap → Settled * Heap)
    (fuel : nat) (lnq lp : loc) (pname ptype rel name : string)
    (g : QueryGlobals) (lvl : nat) (h : Heap) (tr : list Event)
    (nqprops pprops : list (string * JVal)) (lnr : loc) (f : fid)
    (v : JVal) (ext : Heap) :
  ordinary_key rel = true →
  h !! lnq = Some (ORecord nqprops) →
  truthy (default VUndef (assoc_get nqprops "resolve")) = false →
  resolver_name nqprops rel = Some name →
  nested_resolver h (operationResolver g) pname name lnr f →
  readable h (context g) →
  h !! lp = Some (ORecord pprops) →
  lp ≠ lnq →
  natives f (VRef lnr) [VRef lp; passed_args h nqprops; context g] (args_heap h nqprops)
  = (Fulfilled v, args_heap h nqprops ++ ext) →
  clonable (args_heap h nqprops ++ ext) v →
  let h1 := args_heap h nqprops ++ ext in
  ∃ lc objs tr',
    resolveNestedEntity natives (S fuel) (VRef lnq) (VRef lp) pname ptype rel g lvl
      (mkState h tr)
    = (Ok tt,
       mkState (<[lp := ORecord (assoc_set pprops rel (VRef lc))]> (h1 ++ objs))
         (tr ++ tr'))
    ∧ shallow_clone (length h1) (h1 ++ objs) v (VRef lc)
    ∧ invocations tr'
      = [mkInvocation f (VRef lnr) [VRef lp; passed_args h nqprops; context g]
           (Fulfilled v)]
    ∧ last tr' = Some (EvWrite lp rel (VRef lc)).
Proof.
  intros Hord Hq Hleaf Hname Hnres Hctx Hlp Hne Hnat Hv h1.
  destruct (resolveNestedEntity_leaf_run natives fuel lnq lp pname ptype rel name g lvl
              h tr nqprops pprops lnr f v ext Hq Hleaf Hname Hnres Hctx Hlp Hne Hnat Hv)
    as (lc & objs & tr' & Hrun & Hsh & Hinv & Hlast & _).
  rewrite (assign_prop_ordinary _ _ _ Hord) in Hrun.
  by exists lc, objs, tr'.
Qed.

Lemma nested_result_is_cloned_and_attached_witness :
  ∃ lc objs tr',
    resolveNestedEntity sampleNatives 1 (VRef 13) (VRef 0) "user" "user" "posts"
      (mkGlobals (VRef 10) "get" (VRef 12)) 4
      (mkState (heapB (VRef 0) (VRef 13) [] 1) [])
    = (Ok tt,
       mkState (<[0 := ORecord (assoc_set [("id", VNum 1)] "posts" (VRef lc))]>
                  ((args_heap (heapB (VRef 0) (VRef 13) [] 1) []
                    ++ [ORecord [("id", VNum 10)]; OArray [VRef 15]]) ++ objs))
         ([] ++ tr'))
    ∧ shallow_clone 17
        ((args_heap (heapB (VRef 0) (VRef 13) [] 1) []
          ++ [ORecord [("id", VNum 10)]; OArray [VRef 15]]) ++ objs)
        (VRef 16) (VRef lc)
    ∧ invocations tr'
      = [mkInvocation 1 (VRef 7) [VRef 0; VRef 14; VRef 12] (Fulfilled (VRef 16))]
    ∧ last tr' = Some (EvWrite 0 "posts" (VRef lc)).
Proof.
  apply (nested_result_is_cloned_and_attached sampleNatives 0 13 0 "user" "user" "posts"
           "posts" (mkGlobals (VRef 10) "get" (VRef 12)) 4
           (heapB (VRef 0) (VRef 13) [] 1) [] [] [("id", VNum 1)] 7 1
           (VRef 16) [ORecord [("id", VNum 10)]; OArray [VRef 15]]).
  - reflexivity.
  - reflexivity.
  - reflexivity.
  - reflexivity.
  - exists 9, [("invoke", VRef 5); ("nested", VRef 8)], 0, 8, [("posts", VRef 7)],
      [("invoke", VRef 6)], 6.
    split; [|by repeat split].
    exists 10, [("user", VRef 9)], 5. by repeat split.
  - simpl. lia.
  - reflexivity.
  - lia.
  - reflexivity.
  - simpl. repeat constructor. by eexists.
Defined.

(** X13.  When the nested resolver rejects, [resolveNestedEntity] rejects with
    the value it rejected with; the call is the only one made and the
    parent is not assigned to. *)
Theorem nested_resolver_rejects
    (natives : fid → JVal → list JVal → Heap → Settled * Heap)
    (fuel : nat) (lnq : loc) (parentEntity : JVal) (pname ptype rel name : string)
    (g : QueryGlobals) (lvl : nat) (h : Heap) (tr : list Event)
    (nqprops : list (string * JVal)) (lnr : loc) (f : fid) (x : JVal) :
  h !! lnq = Some (ORecord nqprops) →
  resolver_name nqprops rel = Some name →
  nested_resolver h (operationResolver g) pname name lnr f →
  readable h (context g) →
  rejects natives f x →
  ∃ s' tr',
    resolveNestedEntity natives fuel (VRef lnq) parentEntity pname ptype rel g lvl
      (mkState h tr)
    = (Throw (Thrown x), s')
    ∧ trace s' = tr ++ tr'
    ∧ invocations tr'
      = [mkInvocation f (VRef lnr) [parentEntity; passed_args h nqprops; context g]
           (Rejected x)]
    ∧ no_writes tr'.
Proof.
  intros Hq Hname Hnres Hctx Hrej.
  eexists _, _. split; [|split; [|split]].
  - unfold resolveNestedEntity.
    erewrite bind_ok by (by eapply startNestedEntity_run).
    rewrite (Hrej (VRef lnr) [parentEntity; passed_args h nqprops; context g]
               (args_heap h nqprops)).
    unfold finishNestedEntity. simpl. reflexivity.
  - reflexivity.
  - rewrite !invocations_app, invocations_startNested_logs, invocations_args_events.
    reflexivity.
  - apply no_writes_app; [apply no_writes_startNested_logs |].
    apply no_writes_app; [apply no_writes_args_events |].
    intros l k v H. apply list_elem_of_singleton in H. discriminate.
Qed.

Lemma nested_resolver_rejects_witness :
  ∃ s' tr',
    resolveNestedEntity sampleNatives 1 (VRef 13) (VRef 0) "user" "user" "posts"
      (mkGlobals (VRef 10) "get" (VRef 12)) 4
      (mkState (heapB (VRef 0) (VRef 13) [] 6) [])
    = (Throw (Thrown (VStr "no")), s')
    ∧ trace s' = [] ++ tr'
    ∧ invocations tr'
      = [mkInvocation 6 (VRef 7)
           [VRef 0; passed_args (heapB (VRef 0) (VRef 13) [] 6) []; VRef 12]
           (Rejected (VStr "no"))]
    ∧ no_writes tr'.
Proof.
  apply (nested_resolver_rejects sampleNatives 1 13 (VRef 0) "user" "user" "posts"
           "posts" (mkGlobals (VRef 10) "get" (VRef 12)) 4
           (heapB (VRef 0) (VRef 13) [] 6) [] [] 7 6 (VStr "no")).
  - reflexivity.
  - reflexivity.
  - exists 9, [("invoke", VRef 5); ("nested", VRef 8)], 0, 8, [("posts", VRef 7)],
      [("invoke", VRef 6)], 6.
    split; [|by repeat split].
    exists 10, [("user", VRef 9)], 5. by repeat split.
  - simpl. lia.
  - intros this args h. reflexivity.
Defined.

(** ** The fan-out with a resolver that rejects *)

Lemma mapTasks_startNestedEntity_rejected
    (natives : fid → JVal → list JVal → Heap → Settled * Heap)
    (lnq : loc) (pname ptype rel name : string)
    (g : QueryGlobals) (lvl : nat) (nqprops : list (string * JVal))
    (lnr : loc) (f : fid) (x : JVal) (elems : list JVal) :
  only_allocate natives →
  rejects natives f x →
  resolver_name nqprops rel = Some name →
  ∀ (h : Heap) (tr : list Event),
    h !! lnq = Some (ORecord nqprops) →
    nested_resolver h (operationResolver g) pname name lnr f →
    readable h (context g) →
    ∃ hext tr1,
      mapTasks elems
        (λ e, startNestedEntity natives (VRef lnq) e pname ptype rel g lvl)
        (mkState h tr)
      = (Ok ((λ e, (e, inr (name, Rejected x))) <$> elems),
         mkState (h ++ hext) (tr ++ tr1))
      ∧ Forall2 (λ e inv, nested_call f lnr (context g) e inv
                          ∧ inv_result inv = Rejected x)
          elems (invocations tr1)
      ∧ no_writes tr1.
Proof.
  intros Hnat Hrej Hname. induction elems as [|e elems IH]; intros h tr Hq Hnres Hctx.
  - exists [], []. rewrite !app_nil_r.
    split; [done | split; [constructor | apply no_writes_nil]].
  - destruct (args_heap_app h nqprops) as [ext0 Hext0].
    destruct (Hnat f (VRef lnr) [e; passed_args h nqprops; context g]
                (args_heap h nqprops)) as [ext Hext].
    pose proof (startNestedEntity_run natives lnq e pname ptype rel name g lvl h tr
                  nqprops lnr f Hq Hname Hnres Hctx) as Hstart.
    simpl in Hstart. rewrite Hext, Hrej, Hext0, <- app_assoc in Hstart.
    destruct (IH (h ++ ext0 ++ ext)
                (tr ++ startNested_logs h g lvl pname ptype rel ++ args_events h nqprops
                    ++ [EvInvoke f (VRef lnr) [e; passed_args h nqprops; context g]
                          (Rejected x)]))
      as (hext & tr1 & Hrun & Hcalls & Hnw).
    { by apply lookup_app_l_Some. }
    { by apply nested_resolver_app. }
    { by apply readable_app. }
    eexists (ext0 ++ ext ++ hext), _.
    split; [|split].
    + simpl. unfold settle at 1. rewrite bind_unfold. rewrite Hstart.
      rewrite bind_unfold, Hrun. simpl.
      rewrite <- !app_assoc. reflexivity.
    + rewrite !invocations_app, invocations_startNested_logs,
        invocations_args_events. simpl.
      constructor; [|exact Hcalls]. repeat split. by eexists.
    + apply no_writes_app; [apply no_writes_startNested_logs |].
      apply no_writes_app; [apply no_writes_args_events |].
      apply no_writes_app; [| exact Hnw].
      intros l key v H. apply list_elem_of_singleton in H. discriminate.
Qed.

(** X14.  When the nested resolver rejects, the fan-out over an array with
    elements still calls it once for every element, in order; the batch is
    then rejected with the value the resolver rejected with, and no
    element is assigned to. *)
Theorem fan_out_resolver_rejects
    (natives : fid → JVal → list JVal → Heap → Settled * Heap)
    (rec : JVal → JVal → string → string → QueryGlobals → nat → M unit)
    (le la lnq : loc) (nqprops : list (string * JVal)) (elems : list JVal)
    (pname ptype rel name : string) (g : QueryGlobals) (lvl : nat)
    (lnr : loc) (f : fid) (x : JVal) (h : Heap) (tr : list Event) :
  only_allocate natives →
  rejects natives f x →
  relation_query h le rel lnq nqprops →
  resolver_name nqprops rel = Some name →
  nested_resolver h (operationResolver g) pname name lnr f →
  readable h (context g) →
  h !! la = Some (OArray elems) →
  elems ≠ [] →
  ∃ s' tr',
    resolveRelation natives rec (VRef le) (VRef la) pname ptype g lvl rel (mkState h tr)
    = (Throw (Thrown x), s')
    ∧ trace s' = tr ++ tr'
    ∧ Forall2 (λ e inv, nested_call f lnr (context g) e inv
                        ∧ inv_result inv = Rejected x)
        elems (invocations tr')
    ∧ no_writes tr'.
Proof.
  intros Hnat Hrej (qprops & lres & rprops & Hle & Hresolve & Hlres & Hrel & Hlnq)
    Hname Hnres Hctx Hla Hne.
  destruct (mapTasks_startNestedEntity_rejected natives lnq pname ptype rel name g lvl
              nqprops lnr f x elems Hnat Hrej Hname h tr Hlnq Hnres Hctx)
    as (hext & tr1 & Hmap & Hcalls & Hnw).
  exists (mkState (h ++ hext) (tr ++ tr1)), tr1.
  split; [|by repeat split].
  unfold resolveRelation.
  rewrite (bind_ok _ _ _ _ _ (getProp_record le "resolve" (mkState h tr) _ Hle eq_refl)).
  rewrite Hresolve. simpl.
  rewrite (bind_ok _ _ _ _ _ (getProp_own lres rel (mkState h tr) _ _ Hlres Hrel)).
  simpl.
  rewrite (bind_ok _ _ _ _ _ (isObject_run _ _)). simpl. rewrite Hlnq. simpl.
  rewrite (bind_ok _ _ _ _ _ (isArray_run _ _)). simpl. rewrite Hla.
  rewrite (bind_ok _ _ _ _ _ (arrayElems_run la (mkState h tr) elems Hla)).
  rewrite (bind_ok _ _ _ _ _ Hmap).
  destruct elems as [|e elems]; [done |].
  assert (firstRejected ((λ e0 : JVal, (e0, @inr Exn _ (name, Rejected x)))
                           <$> e :: elems) = None) as Hnone.
  { unfold firstRejected. clear. generalize (e :: elems). intros l.
    induction l as [|a l IH]; [done | exact IH]. }
  unfold promiseAll. rewrite Hnone.
  unfold started. rewrite fmap_cons. simpl.
  unfold finishNestedEntity at 1. simpl. reflexivity.
Qed.

Lemma fan_out_resolver_rejects_witness :
  ∃ s' tr',
    resolveRelation sampleNatives (resolveNestedEntities sampleNatives 1)
      (VRef 2) (VRef 14) "user" "user" (mkGlobals (VRef 10) "get" (VRef 12)) 4 "posts"
      (mkState (heapB (VRef 0) (VRef 13) [] 6 ++ [OArray [VRef 0; VRef 0]]) [])
    = (Throw (Thrown (VStr "no")), s')
    ∧ trace s' = [] ++ tr'
    ∧ Forall2 (λ e inv, nested_call 6 7 (VRef 12) e inv
                        ∧ inv_result inv = Rejected (VStr "no"))
        [VRef 0; VRef 0] (invocations tr')
    ∧ no_writes tr'.
Proof.
  apply (fan_out_resolver_rejects sampleNatives (resolveNestedEntities sampleNatives 1)
           2 14 13 [] [VRef 0; VRef 0] "user" "user" "posts" "posts"
           (mkGlobals (VRef 10) "get" (VRef 12)) 4 7 6 (VStr "no")
           (heapB (VRef 0) (VRef 13) [] 6 ++ [OArray [VRef 0; VRef 0]]) []).
  - apply sampleNatives_only_allocate.
  - intros this args h. reflexivity.
  - exists [("args", VRef 0); ("resolve", VRef 1)], 1, [("posts", VRef 13)].
    by repeat split.
  - reflexivity.
  - exists 9, [("invoke", VRef 5); ("nested", VRef 8)], 0, 8, [("posts", VRef 7)],
      [("invoke", VRef 6)], 6.
    split; [|by repeat split].
    exists 10, [("user", VRef 9)], 5. by repeat split.
  - simpl. lia.
  - reflexivity.
  - discriminate.
Defined.

(** ** Operations are resolved one after the other *)




(** ** The same query key under two operations *)




(** The run of that query: [user] holds the two users of [find]. *)
Example same_key_in_two_operations_output :
  outputTree (miniql sampleNatives 1 (VRef 15) (VRef 17) (VRef 11) (mkState heapK []))
  = Some (TRecord [("user", TArray [TRecord [("id", TNum 1)];
                                    TRecord [("id", TNum 2)]])]).
Proof. vm_compute. reflexivity. Qed.

(** ** A registry that is [null] or [undefined] *)

(** X17.  With a registry that is [null] or [undefined] the first operation
    fails on the lookup [rootResolver[opName]] itself: a [TypeError] of the
    runtime, not the engine's message for an operation that is not
    supported. *)
Theorem miniql_nullish_registry_throws
    (natives : fid → JVal → list JVal → Heap → Settled * Heap)
    (fuel : nat) (h : Heap) (tr : list Event) (lq lop : loc)
    (rootResolver context : JVal) (opName : string)
    (operations entries : list (string * JVal)) :
  h !! lq = Some (ORecord ((opName, VRef lop) :: operations)) →
  h !! lop = Some (ORecord entries) →
  rootResolver = VNull ∨ rootResolver = VUndef →
  readable h context →
  ∃ msg s',
    miniql natives fuel (VRef lq) rootResolver context (mkState h tr)
    = (Throw (TypeError msg), s')
    ∧ invocations (trace s') = invocations tr.
Proof.
  intros Hq Hlop Hnull Hctx.
  destruct (getProp_nullish rootResolver opName
              (mkState (h ++ [ORecord []])
                 (trace (state_at_operations h tr context)
                  ++ logged (h ++ [ORecord []]) context 1
                       ("= Invoking query operation " +:+ quoted opName +:+ ".")))
              Hnull) as [msg Hmsg].
  exists msg. eexists. split.
  - eapply miniql_first_operation_throws; [exact Hq | exact Hctx |].
    unfold resolveOperation, state_at_operations.
    erewrite bind_ok by (apply verboseOf_run; by apply readable_app).
    erewrite bind_ok.
    2:{ eapply getQueryOperation_run; simpl.
        - by apply lookup_app_l_Some.
        - simpl. by rewrite decide_True.
        - by apply lookup_app_l_Some. }
    erewrite bind_throw; [reflexivity |].
    unfold getOperationResolver.
    erewrite bind_throw; [reflexivity |]. exact Hmsg.
  - simpl. rewrite !invocations_app, invocations_logged.
    change (EvAlloc (length h) :: logged h context 0 "** Executing query.")
      with ([EvAlloc (length h)] ++ logged h context 0 "** Executing query.").
    rewrite invocations_app, invocations_logged. simpl. by rewrite !app_nil_r.
Qed.

Lemma miniql_nullish_registry_throws_witness :
  ∃ msg s',
    miniql sampleNatives 1 (VRef 4) VNull (VRef 11) (mkState heapF [])
    = (Throw (TypeError msg), s')
    ∧ invocations (trace s') = [].
Proof.
  apply (miniql_nullish_registry_throws sampleNatives 1 heapF [] 4 3 VNull (VRef 11)
           "get" [] [("user", VRef 1); ("users", VRef 2)]).
  - reflexivity.
  - reflexivity.
  - by left.
  - simpl. lia.
Defined.

(** ** What a clone is *)

Lemma copy_of_is_record (n : nat) (h : Heap) (e c : JVal) :
  copy_of n h e c → is_record h c.
Proof. intros (lc & props & -> & _ & _ & _ & Hlc). by exists lc, props. Qed.

(** X18.  Whatever a resolver fulfils with, the clone that takes its place in
    the output is an object of the engine's own making: a new record, or
    a new array of new records.  A record gets the own properties of what
    it is the copy of, assigned one by one, so that all of them are
    copied but an own property [__proto__]; a primitive is cloned into a
    record of its own properties (none for a number, the characters for a
    string), and the same goes for the elements of an array. *)
Theorem cloneEntity_makes_an_entity (r : JVal) (h : Heap) (tr : list Event) :
  clonable h r →
  ∃ objs lc,
    cloneEntity (t_isArray h r) r (mkState h tr)
    = (Ok (VRef lc),
       mkState (h ++ objs) (tr ++ (EvAlloc <$> seq (length h) (length objs))))
    ∧ length h ≤ lc
    ∧ is_entity (h ++ objs) (VRef lc)
    ∧ shallow_clone (length h) (h ++ objs) r (VRef lc).
Proof.
  intros Hr. destruct (cloneEntity_run r h tr Hr) as (objs & lc & Hrun & Hlc & Hsh).
  exists objs, lc. split; [exact Hrun |]. split; [lia |]. split; [|exact Hsh].
  unfold shallow_clone in Hsh.
  destruct r as [| | | | |lr]; try (left; by eapply copy_of_is_record).
  destruct ((h ++ objs) !! lr) as [[props|elems|f]|];
    try (left; by eapply copy_of_is_record).
  destruct Hsh as (lc' & clones & Heq & _ & _ & Hlc' & Hclones).
  inversion Heq; subst lc'. right. exists lc, clones.
  split; [done |]. split; [done |].
  clear -Hclones. induction Hclones as [|e c elems clones Hc _ IH]; constructor.
  - by eapply copy_of_is_record.
  - exact IH.
Qed.

Lemma cloneEntity_makes_an_entity_witness :
  ∃ objs lc,
    cloneEntity (t_isArray [OArray [VStr "admin"; VNum 7]] (VRef 0)) (VRef 0)
      (mkState [OArray [VStr "admin"; VNum 7]] [])
    = (Ok (VRef lc),
       mkState ([OArray [VStr "admin"; VNum 7]] ++ objs)
         ([] ++ (EvAlloc <$> seq 1 (length objs))))
    ∧ 1 ≤ lc
    ∧ is_entity ([OArray [VStr "admin"; VNum 7]] ++ objs) (VRef lc)
    ∧ shallow_clone 1 ([OArray [VStr "admin"; VNum 7]] ++ objs) (VRef 0) (VRef lc).
Proof.
  apply (cloneEntity_makes_an_entity (VRef 0) [OArray [VStr "admin"; VNum 7]] []).
  simpl. repeat constructor; by eexists.
Defined.

(** The clone of [["admin", 7]] is an array of two records: the
    characters of the string, and nothing for the number. *)
Example clone_of_an_array_of_primitives :
  let run := cloneEntity true (VRef 0) (mkState [OArray [VStr "admin"; VNum 7]] []) in
  match run.1 with
  | Ok c => snapshot 3 (heap run.2) c
  | _ => TDangling
  end
  = TArray [TRecord [("0", TStr "a"); ("1", TStr "d"); ("2", TStr "m");
                     ("3", TStr "i"); ("4", TStr "n")];
            TRecord []].
Proof. vm_compute. reflexivity. Qed.

(** ** The relations of one entity are resolved in turn *)

Lemma steps_app (tr1 tr2 : list Event) : steps (tr1 ++ tr2) = steps tr1 ++ steps tr2.
Proof. apply omap_app. Qed.

Lemma steps_logged (h : Heap) (context : JVal) (n : nat) (msg : string) :
  steps (logged h context n msg) = [].
Proof.
  unfold logged. destruct (get_own h context "verbose") as [flag|]; [|done].
  by destruct (truthy flag).
Qed.

Lemma steps_startNested_logs (h : Heap) (g : QueryGlobals) (lvl : nat)
    (pname ptype rel : string) :
  steps (startNested_logs h g lvl pname ptype rel) = [].
Proof. unfold startNested_logs. by rewrite steps_app, !steps_logged. Qed.

Lemma steps_args_events (h : Heap) (qprops : list (string * JVal)) :
  steps (args_events h qprops) = [].
Proof. unfold args_events. by destruct (truthy (args_of qprops)). Qed.

Lemma steps_no_calls_no_writes (tr : list Event) :
  invocations tr = [] → no_writes tr → steps tr = [].
Proof.
  induction tr as [|e tr IH]; [done |]. intros Hinv Hnw.
  assert (steps tr = []) as Htr.
  { apply IH.
    - destruct e; simpl in Hinv; try done.
    - intros l k v H. apply (Hnw l k v). by right. }
  destruct e as [line|l|l k v|f this args r]; simpl; try exact Htr.
  - exfalso. apply (Hnw l k v). left.
  - simpl in Hinv. done.
Qed.

Lemma same_but_nested_resolver (lo : loc) (h h1 : Heap) (opres : JVal)
    (pname name : string) (lnr : loc) (f : fid) :
  same_but lo h h1 → length h ≤ lo →
  nested_resolver h opres pname name lnr f → nested_resolver h1 opres pname name lnr f.
Proof.
  intros Hs Hlo (lr & rprops & f0 & lnested & nprops & nrprops & lf
    & Hres & H1 & H2 & H3 & H4 & H5 & H6).
  exists lr, rprops, f0, lnested, nprops, nrprops, lf.
  split; [by eapply same_but_entity_resolver |].
  repeat split; try done; by eapply same_but_lookup.
Qed.

(** One relation without relations of its own, on a single parent. *)
Lemma resolveRelation_leaf_single
    (natives : fid → JVal → list JVal → Heap → Settled * Heap)
    (fuel : nat) (h h1 : Heap) (tr1 : list Event) (le lres lp : loc)
    (qprops rels pprops : list (string * JVal)) (pname ptype : string)
    (g : QueryGlobals) (lvl : nat) (rel : string) (vq : JVal) (f : fid) :
  length h ≤ lp →
  same_but lp h h1 →
  h1 !! lp = Some (ORecord pprops) →
  h !! le = Some (ORecord qprops) →
  assoc_get qprops "resolve" = Some (VRef lres) →
  h !! lres = Some (ORecord rels) →
  assoc_get rels rel = Some vq →
  leaf_relation natives h (operationResolver g) pname (rel, vq) f →
  readable h (context g) →
  ∃ h2 tr2 c,
    resolveRelation natives (resolveNestedEntities natives (S fuel)) (VRef le) (VRef lp)
      pname ptype g lvl rel (mkState h1 tr1)
    = (Ok tt, mkState h2 (tr1 ++ tr2))
    ∧ same_but lp h1 h2
    ∧ h2 !! lp = Some (ORecord (assoc_set pprops rel c))
    ∧ steps tr2 = [CallOf f (VRef lp); AssignTo lp rel].
Proof.
  intros Hlp Hs Hparent Hle Hresolve Hlres Hrel
    (lnq & nqprops & name & lnr & Hvq & Hord & Hlnq & Hleaf & Hname & Hnres & Hf) Hctx.
  simpl in Hvq, Hname, Hord. subst vq.
  assert (lp ≠ lnq) as Hne by (apply lookup_lt_Some in Hlnq; lia).
  destruct (args_heap_app h1 nqprops) as [ext0 Hext0].
  assert (length h ≤ length h1) as Hlen.
  { apply lookup_lt_Some in Hparent. lia. }
  destruct (Hf (VRef lnr) [VRef lp; passed_args h1 nqprops; context g]
              (args_heap h1 nqprops)) as (v & ext & Hnat & Hv).
  { rewrite Hext0, length_app. lia. }
  destruct (resolveNestedEntity_leaf_run natives fuel lnq lp pname ptype rel name g lvl
              h1 tr1 nqprops pprops lnr f v ext)
    as (lc & objs & tr2 & Hrun & _ & _ & _ & Htr2); try done.
  { by eapply same_but_lookup. }
  { by eapply same_but_nested_resolver. }
  { by eapply same_but_readable. }
  rewrite (assign_prop_ordinary _ _ _ Hord) in Hrun.
  eexists _, tr2, (VRef lc). split; [|split; [|split]].
  - unfold resolveRelation.
    erewrite bind_ok.
    2:{ apply getProp_record; [| reflexivity]. simpl. by eapply same_but_lookup. }
    rewrite Hresolve. simpl.
    erewrite bind_ok.
    2:{ eapply getProp_own; [| exact Hrel]. simpl. by eapply same_but_lookup. }
    simpl.
    rewrite (bind_ok _ _ _ _ _ (isObject_run _ _)). simpl.
    rewrite (same_but_lookup _ _ _ _ _ Hs Hlp Hlnq). simpl.
    rewrite (bind_ok _ _ _ _ _ (isArray_run _ _)). simpl. rewrite Hparent.
    exact Hrun.
  - eapply same_but_trans; [|apply same_but_insert].
    rewrite Hext0, <- !app_assoc. apply same_but_app.
  - apply list_lookup_insert_eq. apply lookup_lt_Some in Hparent.
    rewrite Hext0, !length_app. lia.
  - rewrite Htr2, !steps_app, steps_startNested_logs, steps_args_events.
    rewrite (steps_no_calls_no_writes (EvAlloc <$> _)).
    + reflexivity.
    + apply invocations_allocs.
    + intros l k w Hin. apply list_elem_of_fmap in Hin as (n & Heq & _). discriminate.
Qed.

Lemma forEach_leaf_relations
    (natives : fid → JVal → list JVal → Heap → Settled * Heap)
    (fuel : nat) (h : Heap) (le lres lp : loc)
    (qprops rels : list (string * JVal)) (pname ptype : string)
    (g : QueryGlobals) (lvl : nat) :
  length h ≤ lp →
  h !! le = Some (ORecord qprops) →
  assoc_get qprops "resolve" = Some (VRef lres) →
  h !! lres = Some (ORecord rels) →
  readable h (context g) →
  ∀ (todo : list (string * JVal)) (fs : list fid),
    Forall (λ e, assoc_get rels e.1 = Some e.2) todo →
    Forall2 (leaf_relation natives h (operationResolver g) pname) todo fs →
    ∀ (h1 : Heap) (tr1 : list Event) (pprops : list (string * JVal)),
      same_but lp h h1 →
      h1 !! lp = Some (ORecord pprops) →
      ∃ h2 tr2 pprops',
        forEach todo.*1
          (resolveRelation natives (resolveNestedEntities natives (S fuel)) (VRef le)
             (VRef lp) pname ptype g lvl) (mkState h1 tr1)
        = (Ok tt, mkState h2 (tr1 ++ tr2))
        ∧ same_but lp h1 h2
        ∧ h2 !! lp = Some (ORecord pprops')
        ∧ pprops.*1 ⊆ pprops'.*1
        ∧ todo.*1 ⊆ pprops'.*1
        ∧ steps tr2
          = mjoin (zip_with (λ e f, [CallOf f (VRef lp); AssignTo lp e.1]) todo fs)
        ∧ ∃ cs, length cs = length todo
            ∧ pprops' = foldl (λ acc rc, assoc_set acc rc.1 rc.2) pprops
                          (zip todo.*1 cs).
Proof.
  intros Hlp Hle Hresolve Hlres Hctx todo.
  induction todo as [|[rel vq] todo IH]; intros fs Hin Hleaf h1 tr1 pprops Hs Hparent.
  - apply Forall2_nil_inv_l in Hleaf as ->.
    exists h1, [], pprops. rewrite app_nil_r.
    split; [done |]. split; [apply same_but_refl |]. split; [done |]. split; [done |].
    split; [apply list_subseteq_nil |]. split; [done |]. by exists [].
  - apply Forall2_cons_inv_l in Hleaf as (f & fs' & Hleaf1 & Hleaf & ->).
    apply Forall_cons in Hin as [Hrel Hin]. simpl in Hrel.
    destruct (resolveRelation_leaf_single natives fuel h h1 tr1 le lres lp qprops rels
                pprops pname ptype g lvl rel vq f Hlp Hs Hparent Hle Hresolve Hlres
                Hrel Hleaf1 Hctx)
      as (h2 & tr2 & c & Hrun & Hs2 & Hparent2 & Hsteps).
    destruct (IH fs' Hin Hleaf h2 (tr1 ++ tr2) (assoc_set pprops rel c))
      as (h3 & tr3 & pprops' & Hrun' & Hs3 & Hparent3 & Hsub & Htodo & Hsteps'
          & cs & Hcs & Hprops).
    { by eapply same_but_trans. }
    { exact Hparent2. }
    exists h3, (tr2 ++ tr3), pprops'.
    split; [|split; [by eapply same_but_trans |
             split; [exact Hparent3 |split; [|split; [|split]]]]].
    + rewrite fmap_cons, forEach_cons, (bind_ok _ _ _ _ _ Hrun), Hrun'.
      by rewrite <- app_assoc.
    + etrans; [apply assoc_set_keys | exact Hsub].
    + rewrite fmap_cons. intros x [-> | Hx]%elem_of_cons.
      * apply Hsub, assoc_set_key_in.
      * by apply Htodo.
    + rewrite steps_app, Hsteps, Hsteps'. reflexivity.
    + exists (c :: cs). split; [simpl; by rewrite Hcs | exact Hprops].
Qed.

(** X19.  The relations of a [resolve] map are resolved one after the other,
    in the order of the map, on one and the same parent object: a nested
    resolver is called only when the fields of the relations before it
    have been assigned, so it finds them on the parent it is given.  In
    the end the parent has kept its properties and has a field for every
    relation, and no other object that was there has changed.  The parent
    is a single record, allocated after the query and the registry; the
    names of the relations are ordinary keys (not made of digits, not
    [__proto__]); the nested queries have no relations of their own and
    their resolvers fulfil with something that can be cloned. *)
Theorem relations_are_resolved_in_turn
    (natives : fid → JVal → list JVal → Heap → Settled * Heap)
    (fuel : nat) (h h1 : Heap) (tr : list Event) (le lres lp : loc)
    (qprops rels pprops : list (string * JVal)) (fs : list fid)
    (pname ptype : string) (g : QueryGlobals) (lvl : nat) :
  length h ≤ lp →
  same_but lp h h1 →
  h1 !! lp = Some (ORecord pprops) →
  h !! le = Some (ORecord qprops) →
  assoc_get qprops "resolve" = Some (VRef lres) →
  h !! lres = Some (ORecord rels) →
  NoDup rels.*1 →
  Forall2 (leaf_relation natives h (operationResolver g) pname) rels fs →
  readable h (context g) →
  ∃ h2 tr' pprops',
    resolveNestedEntities natives (S (S fuel)) (VRef le) (VRef lp) pname ptype g lvl
      (mkState h1 tr)
    = (Ok tt, mkState h2 (tr ++ tr'))
    ∧ same_but lp h1 h2
    ∧ h2 !! lp = Some (ORecord pprops')
    ∧ pprops.*1 ⊆ pprops'.*1
    ∧ rels.*1 ⊆ pprops'.*1
    ∧ steps tr'
      = mjoin (zip_with (λ e f, [CallOf f (VRef lp); AssignTo lp e.1]) rels fs)
    ∧ ∃ cs, length cs = length rels
        ∧ pprops' = foldl (λ acc rc, assoc_set acc rc.1 rc.2) pprops (zip rels.*1 cs).
Proof.
  intros Hlp Hs Hparent Hle Hresolve Hlres Hnd Hleaf Hctx.
  destruct (forEach_leaf_relations natives fuel h le lres lp qprops rels pname ptype
              g lvl Hlp Hle Hresolve Hlres Hctx rels fs)
    with (h1 := h1) (tr1 := tr) (pprops := pprops)
    as (h2 & tr2 & pprops' & Hrun & Hs2 & Hparent2 & Hsub & Hrels & Hsteps); try done.
  { apply Forall_forall. intros [rel vq] Hin. by apply assoc_get_elem_of. }
  exists h2, tr2, pprops'. split; [|done].
  erewrite resolveNestedEntities_resolve_map; [exact Hrun | | exact Hresolve |];
    simpl; by eapply same_but_lookup.
Qed.

Lemma sampleNatives_4_clonable (n : nat) : fulfils sampleNatives 4 n clonable.
Proof.
  intros this args h _. eexists _, _. split; [reflexivity |].
  simpl. rewrite lookup_app_r, Nat.sub_diag by lia. simpl. constructor.
Qed.

Lemma relations_are_resolved_in_turn_witness :
  ∃ h2 tr' pprops',
    resolveNestedEntities sampleNatives 2 (VRef 3) (VRef 13) "user" "user"
      (mkGlobals (VRef 11) "get" (VRef 12)) 4
      (mkState (heapS ++ [ORecord [("id", VNum 1)]]) [])
    = (Ok tt, mkState h2 ([] ++ tr'))
    ∧ same_but 13 (heapS ++ [ORecord [("id", VNum 1)]]) h2
    ∧ h2 !! 13 = Some (ORecord pprops')
    ∧ ["id"] ⊆ pprops'.*1
    ∧ ["posts"; "roles"] ⊆ pprops'.*1
    ∧ steps tr' = [CallOf 1 (VRef 13); AssignTo 13 "posts";
                   CallOf 4 (VRef 13); AssignTo 13 "roles"]
    ∧ ∃ cs, length cs = 2
        ∧ pprops' = foldl (λ acc rc, assoc_set acc rc.1 rc.2) [("id", VNum 1)]
                      (zip ["posts"; "roles"] cs).
Proof.
  apply (relations_are_resolved_in_turn sampleNatives 0 heapS
           (heapS ++ [ORecord [("id", VNum 1)]]) [] 3 2 13 [("resolve", VRef 2)]
           [("posts", VRef 0); ("roles", VRef 1)] [("id", VNum 1)] [1; 4]
           "user" "user" (mkGlobals (VRef 11) "get" (VRef 12)) 4).
  - simpl. lia.
  - apply same_but_app.
  - reflexivity.
  - reflexivity.
  - reflexivity.
  - reflexivity.
  - apply (bool_decide_unpack _). by vm_compute.
  - constructor; [|constructor; [|constructor]].
    + exists 0, [], "posts", 7.
      split; [reflexivity |]. split; [reflexivity |]. split; [reflexivity |].
      split; [reflexivity |]. split; [reflexivity |]. split; [|apply sampleNatives_1_clonable].
      exists 10, [("invoke", VRef 4); ("nested", VRef 9)], 0, 9,
        [("posts", VRef 7); ("roles", VRef 8)], [("invoke", VRef 5)], 5.
      split; [|by repeat split].
      exists 11, [("user", VRef 10)], 4. by repeat split.
    + exists 1, [], "roles", 8.
      split; [reflexivity |]. split; [reflexivity |]. split; [reflexivity |].
      split; [reflexivity |]. split; [reflexivity |]. split; [|apply sampleNatives_4_clonable].
      exists 10, [("invoke", VRef 4); ("nested", VRef 9)], 0, 9,
        [("posts", VRef 7); ("roles", VRef 8)], [("invoke", VRef 6)], 6.
      split; [|by repeat split].
      exists 11, [("user", VRef 10)], 4. by repeat split.
  - simpl. lia.
Defined.

(** ** An entity and its relations, from end to end *)

Lemma only_entity_first (h : Heap) (rootQuery rootResolver : JVal) (opName key : string)
    (lop lres : loc) (vq : JVal) :
  only_entity h rootQuery rootResolver opName key lop lres vq →
  first_entity h rootQuery rootResolver opName key lop lres vq.
Proof.
  intros (lq & lr & registry & resolvers & H). exists lq, lr, [], [], registry, resolvers.
  exact H.
Qed.

(** [miniql] on a query with one entity, when the entity is resolved. *)
Lemma miniql_only_entity
    (natives : fid → JVal → list JVal → Heap → Settled * Heap)
    (fuel : nat) (h : Heap) (tr : list Event) (rootQuery rootResolver context : JVal)
    (opName key : string) (lop lres : loc) (vq : JVal) (s' : State) :
  only_entity h rootQuery rootResolver opName key lop lres vq →
  readable h context →
  resolveRootEntity natives fuel (VRef lop) (VRef (length h)) key
    (mkGlobals (VRef lres) opName context) 2 (state_at_entities h tr context opName)
  = (Ok tt, s') →
  miniql natives fuel rootQuery rootResolver context (mkState h tr)
  = (Ok (VRef (length h)), s').
Proof.
  intros (lq & lr & registry & resolvers
    & -> & -> & Hq & Hlop & Hr & Hop & Hlres) Hctx Hrun.
  unfold miniql.
  rewrite (bind_ok _ _ _ _ _ (newObject_run _)). simpl.
  erewrite bind_ok.
  2:{ apply objectKeys_run; [done..|]. simpl.
      by rewrite (lookup_app_l_Some _ _ _ _ Hq). }
  simpl.
  erewrite bind_ok by (apply verboseOf_run; by apply readable_app).
  rewrite (logged_app _ _ _ _ _ Hctx), <- app_assoc.
  erewrite bind_ok; [reflexivity |].
  erewrite bind_ok; [reflexivity |].
  unfold resolveOperation.
  erewrite bind_ok by (apply verboseOf_run; by apply readable_app).
  erewrite bind_ok.
  2:{ eapply getQueryOperation_run; simpl.
      - by apply lookup_app_l_Some.
      - simpl. by rewrite decide_True.
      - by apply lookup_app_l_Some. }
  erewrite bind_ok.
  2:{ eapply getOperationResolver_run; simpl.
      - by apply lookup_app_l_Some.
      - exact Hop.
      - by apply lookup_app_l_Some. }
  erewrite bind_ok.
  2:{ apply objectKeys_run; [done..|]. simpl.
      by rewrite (lookup_app_l_Some _ _ _ _ Hlop). }
  simpl. erewrite bind_ok; [reflexivity |].
  rewrite (logged_app _ _ _ _ _ Hctx), <- app_assoc. exact Hrun.
Qed.

(** The root stage of [resolveRootEntity] for a resolver that fulfils
    with a record. *)
Lemma resolveRootEntity_record_result
    (natives : fid → JVal → list JVal → Heap → Settled * Heap)
    (fuel : nat) (g : QueryGlobals) (lvl : nat) (key name : string)
    (h : Heap) (tr : list Event) (lop leq lo lr lrr : loc)
    (entries qprops oprops rprops props : list (string * JVal)) (f : fid) (ext : Heap) :
  h !! lop = Some (ORecord entries) →
  assoc_get entries key = Some (VRef leq) →
  h !! leq = Some (ORecord qprops) →
  resolver_name qprops key = Some name →
  entity_resolver h (operationResolver g) name lr rprops f →
  readable h (context g) →
  h !! lo = Some (ORecord oprops) →
  natives f (VRef lr) [passed_args h qprops; context g] (args_heap h qprops)
  = (Fulfilled (VRef lrr), args_heap h qprops ++ ext) →
  (args_heap h qprops ++ ext) !! lrr = Some (ORecord props) →
  assoc_get props "__proto__" = None →
  let h2 := args_heap h qprops ++ ext in
  ∃ tr',
    resolveRootEntity natives fuel (VRef lop) (VRef lo) key g lvl (mkState h tr)
    = resolveNestedEntities natives fuel (VRef leq) (VRef (length h2)) name key g
        (lvl + 2)
        (mkState (<[lo := ORecord (assign_prop oprops key (VRef (length h2)))]>
                    (h2 ++ [ORecord props]))
                 (tr ++ tr'))
    ∧ steps tr' = [CallOf f (passed_args h qprops); AssignTo lo key]
    ∧ inv_result <$> invocations tr' = [Fulfilled (VRef lrr)].
Proof.
  intros Hlop Hkey Hleq Hname Hres Hctx Hlo Hnat Hlrr Hplain h2.
  pose proof Hres as (lres & resolvers & lf & Hop & Hlres & Hrn & Hlr & Hinvoke & Hlf).
  destruct (args_heap_app h qprops) as [ext0 Hext0].
  change (h2 !! lrr = Some (ORecord props)) in Hlrr.
  eexists. split; [|split].
  - unfold resolveRootEntity.
    rewrite (bind_ok _ _ _ _ _ (verboseOf_run _ _ _ _ _ Hctx)).
    erewrite bind_ok by (by eapply getProp_own).
    simpl.
    rewrite (bind_ok _ _ _ _ _ (isObject_run _ _)). simpl. rewrite Hleq. simpl.
    erewrite bind_ok by (by eapply resolverName_run).
    erewrite bind_ok by (by eapply getGlobalEntityResolver_run).
    erewrite bind_ok by (by apply getProp_record).
    rewrite Hinvoke. simpl.
    erewrite bind_ok by (by apply argsOrEmpty_run').
    erewrite bind_ok.
    2:{ apply call_run. rewrite Hext0. by apply lookup_app_l_Some. }
    rewrite Hnat. simpl. fold h2.
    rewrite (bind_ok _ _ _ _ _ (await_fulfilled _ _)).
    rewrite (bind_ok _ _ _ _ _ (isArray_run _ _)). simpl. rewrite Hlrr.
    erewrite bind_ok.
    2:{ apply verboseOf_run. subst h2. rewrite Hext0, <- app_assoc.
        by apply readable_app. }
    unfold cloneEntity.
    erewrite bind_ok.
    2:{ apply objectAssignEmpty_run. apply assigned_props_plain; [| exact Hplain].
        simpl. by rewrite Hlrr. }
    erewrite bind_ok.
    2:{ apply setProp_run. apply lookup_app_l_Some. subst h2.
        rewrite Hext0, <- app_assoc. by apply lookup_app_l_Some. }
    rewrite <- !app_assoc. reflexivity.
  - rewrite !steps_app, !steps_logged, steps_args_events. reflexivity.
  - rewrite !invocations_app, !invocations_logged, invocations_args_events.
    reflexivity.
Qed.

(** X20.  The order of events in a query for one entity with relations, from
    end to end.  The root resolver is called first and fulfils with a
    record; a clone of the record is assigned to the output under the
    query key before any relation is looked at; then the nested resolvers
    are called in the order of the [resolve] map, each on the clone (never
    on the record the root resolver returned, which stays as it was), and
    the field of a relation is assigned to the clone before the next
    resolver is called.  [miniql] returns the output object, whose only
    key holds the clone: the properties of the resolver's record, with
    one value assigned for each relation (what the value is, is the
    matter of X12).  The query key is not [__proto__], the record has no
    own property [__proto__], the names of the relations are ordinary
    keys and the nested queries have no relations of their own. *)
Theorem miniql_entity_with_relations
    (natives : fid → JVal → list JVal → Heap → Settled * Heap)
    (fuel : nat) (h : Heap) (tr : list Event) (rootQuery rootResolver context : JVal)
    (opName key name : string) (lop lres leq lresolve lr : loc)
    (qprops rprops rels : list (string * JVal)) (fs : list fid) (f : fid) :
  only_entity h rootQuery rootResolver opName key lop lres (VRef leq) →
  key ≠ "__proto__" →
  h !! leq = Some (ORecord qprops) →
  resolver_name qprops key = Some name →
  entity_resolver h (VRef lres) name lr rprops f →
  fulfils natives f (S (length h)) (record_but (length h)) →
  assoc_get qprops "resolve" = Some (VRef lresolve) →
  h !! lresolve = Some (ORecord rels) →
  NoDup rels.*1 →
  Forall2 (leaf_relation natives h (VRef lres) name) rels fs →
  readable h context →
  ∃ h' tr' lc lrr props cs arg,
    miniql natives (S (S fuel)) rootQuery rootResolver context (mkState h tr)
    = (Ok (VRef (length h)), mkState h' (tr ++ tr'))
    ∧ h' !! length h = Some (ORecord [(key, VRef lc)])
    ∧ head (inv_result <$> invocations tr') = Some (Fulfilled (VRef lrr))
    ∧ lc ≠ lrr
    ∧ h' !! lrr = Some (ORecord props)
    ∧ h' !! lc
      = Some (ORecord (foldl (λ acc rc, assoc_set acc rc.1 rc.2) props (zip rels.*1 cs)))
    ∧ length cs = length rels
    ∧ steps tr'
      = CallOf f arg :: AssignTo (length h) key
        :: mjoin (zip_with (λ e fn, [CallOf fn (VRef lc); AssignTo lc e.1]) rels fs).
Proof.
  intros Honly Hkey Hleq Hname Hres Hf Hresolve Hlresolve Hnd Hleaf Hctx.
  pose proof Honly as (lq & lr' & registry & resolvers & _ & _ & _ & Hlop & _).
  set (h1 := h ++ [ORecord []]).
  destruct (args_heap_app h1 qprops) as [ext0 Hext0].
  destruct (Hf (VRef lr) [passed_args h1 qprops; context] (args_heap h1 qprops))
    as (r & ext & Hnat & (lrr & props & -> & Hne & Hlrr & Hplain)).
  { rewrite Hext0. unfold h1. rewrite !length_app. simpl. lia. }
  set (h2 := args_heap h1 qprops ++ ext) in *.
  assert (length h < length h2) as Hlen.
  { unfold h2. rewrite Hext0. unfold h1. rewrite !length_app. simpl. lia. }
  destruct (resolveRootEntity_record_result natives (S (S fuel))
              (mkGlobals (VRef lres) opName context) 2 key name h1
              (trace (state_at_entities h tr context opName)) lop leq (length h) lr lrr
              [(key, VRef leq)] qprops [] rprops props f ext)
    as (tr1 & Hroot & Hsteps1 & Hinv1); try done.
  { by apply lookup_app_l_Some. }
  { simpl. by rewrite decide_True. }
  { by apply lookup_app_l_Some. }
  { by apply entity_resolver_app. }
  { by apply readable_app. }
  { unfold h1. by rewrite lookup_app_r, Nat.sub_diag by lia. }
  rewrite (assign_prop_nil _ _ Hkey) in Hroot.
  set (hr := <[length h := ORecord [(key, VRef (length h2))]]> (h2 ++ [ORecord props])).
  assert (resolveRootEntity natives (S (S fuel)) (VRef lop) (VRef (length h)) key
            (mkGlobals (VRef lres) opName context) 2
            (state_at_entities h tr context opName)
          = resolveNestedEntities natives (S (S fuel)) (VRef leq) (VRef (length h2))
              name key (mkGlobals (VRef lres) opName context) (2 + 2)
              (mkState hr (trace (state_at_entities h tr context opName) ++ tr1)))
    as Hroot' by exact Hroot.
  clear Hroot.
  assert (same_but (length h2) h hr) as Hs.
  { intros l o _ Hl. pose proof (lookup_lt_Some _ _ _ Hl) as Hlt.
    unfold hr. rewrite list_lookup_insert_ne by lia.
    apply lookup_app_l_Some. unfold h2. rewrite Hext0. unfold h1.
    rewrite <- !app_assoc. by apply lookup_app_l_Some. }
  assert (hr !! length h2 = Some (ORecord props)) as Hparent.
  { unfold hr. rewrite list_lookup_insert_ne by lia.
    by rewrite lookup_app_r, Nat.sub_diag by lia. }
  destruct (forEach_leaf_relations natives fuel h leq lresolve (length h2) qprops rels
              name key (mkGlobals (VRef lres) opName context) (2 + 2))
    with (todo := rels) (fs := fs) (h1 := hr)
         (tr1 := trace (state_at_entities h tr context opName) ++ tr1) (pprops := props)
    as (h3 & tr3 & pprops' & Hrun & Hs3 & Hparent3 & _ & _ & Hsteps3 & cs & Hcs & Hprops);
    try done.
  { lia. }
  { apply Forall_forall. intros [rel vq] Hin. by apply assoc_get_elem_of. }
  exists h3. eexists. exists (length h2), lrr, props, cs, (passed_args h1 qprops).
  split; [|split; [|split; [|split; [|split; [|split; [|split]]]]]].
  - eapply miniql_only_entity; [exact Honly | exact Hctx |].
    rewrite Hroot'.
    erewrite resolveNestedEntities_resolve_map; [|simpl|exact Hresolve|simpl].
    + rewrite Hrun. f_equal. f_equal. unfold state_at_entities. simpl.
      rewrite <- !app_assoc. reflexivity.
    + eapply same_but_lookup; [exact Hs | lia | exact Hleq].
    + eapply same_but_lookup; [exact Hs | lia | exact Hlresolve].
  - apply Hs3; [lia |]. unfold hr. apply list_lookup_insert_eq.
    rewrite length_app. lia.
  - change (EvAlloc (length h) :: ?l) with ([EvAlloc (length h)] ++ l).
    rewrite !invocations_app, !invocations_logged. simpl.
    rewrite !fmap_app, Hinv1. reflexivity.
  - apply lookup_lt_Some in Hlrr. fold h2 in Hlrr. lia.
  - pose proof (lookup_lt_Some _ _ _ Hlrr) as Hlt. fold h2 in Hlt.
    apply Hs3; [lia |]. unfold hr. rewrite list_lookup_insert_ne by done.
    by apply lookup_app_l_Some.
  - by rewrite Hparent3, Hprops.
  - exact Hcs.
  - change (EvAlloc (length h) :: ?l) with ([EvAlloc (length h)] ++ l).
    rewrite !steps_app, !steps_logged, Hsteps1, Hsteps3. reflexivity.
Qed.

Lemma sampleNatives_0_record (lo : loc) : fulfils sampleNatives 0 (S lo) (record_but lo).
Proof.
  intros this args h Hh. eexists _, _. split; [reflexivity |].
  eexists _, _. split; [reflexivity |]. split; [lia |].
  split; [by rewrite lookup_app_r, Nat.sub_diag by lia | reflexivity].
Qed.

Lemma miniql_entity_with_relations_witness :
  ∃ h' tr' lc lrr props cs arg,
    miniql sampleNatives 2 (VRef 14) (VRef 15) (VRef 12) (mkState heapT [])
    = (Ok (VRef 16), mkState h' ([] ++ tr'))
    ∧ h' !! 16 = Some (ORecord [("user", VRef lc)])
    ∧ head (inv_result <$> invocations tr') = Some (Fulfilled (VRef lrr))
    ∧ lc ≠ lrr
    ∧ h' !! lrr = Some (ORecord props)
    ∧ h' !! lc
      = Some (ORecord (foldl (λ acc rc, assoc_set acc rc.1 rc.2) props
                         (zip ["posts"; "roles"] cs)))
    ∧ length cs = 2
    ∧ steps tr'
      = [CallOf 0 arg; AssignTo 16 "user";
         CallOf 1 (VRef lc); AssignTo lc "posts";
         CallOf 4 (VRef lc); AssignTo lc "roles"].
Proof.
  apply (miniql_entity_with_relations sampleNatives 0 heapT [] (VRef 14) (VRef 15)
           (VRef 12) "get" "user" "user" 13 11 3 2 10 [("resolve", VRef 2)]
           [("invoke", VRef 4); ("nested", VRef 9)]
           [("posts", VRef 0); ("roles", VRef 1)] [1; 4] 0).
  - exists 14, 15, [("get", VRef 11)], [("user", VRef 10)]. by repeat split.
  - discriminate.
  - reflexivity.
  - reflexivity.
  - exists 11, [("user", VRef 10)], 4. by repeat split.
  - apply sampleNatives_0_record.
  - reflexivity.
  - reflexivity.
  - apply (bool_decide_unpack _). by vm_compute.
  - constructor; [|constructor; [|constructor]].
    + exists 0, [], "posts", 7.
      split; [reflexivity |]. split; [reflexivity |]. split; [reflexivity |].
      split; [reflexivity |]. split; [reflexivity |]. split; [|apply sampleNatives_1_clonable].
      exists 10, [("invoke", VRef 4); ("nested", VRef 9)], 0, 9,
        [("posts", VRef 7); ("roles", VRef 8)], [("invoke", VRef 5)], 5.
      split; [|by repeat split].
      exists 11, [("user", VRef 10)], 4. by repeat split.
    + exists 1, [], "roles", 8.
      split; [reflexivity |]. split; [reflexivity |]. split; [reflexivity |].
      split; [reflexivity |]. split; [reflexivity |]. split; [|apply sampleNatives_4_clonable].
      exists 10, [("invoke", VRef 4); ("nested", VRef 9)], 0, 9,
        [("posts", VRef 7); ("roles", VRef 8)], [("invoke", VRef 6)], 6.
      split; [|by repeat split].
      exists 11, [("user", VRef 10)], 4. by repeat split.
  - simpl. lia.
Defined.

(** The output of that run. *)
Example entity_with_relations_output :
  outputTree (miniql sampleNatives 2 (VRef 14) (VRef 15) (VRef 12) (mkState heapT []))
  = Some (TRecord
            [("user", TRecord [("id", TNum 1); ("name", TStr "Ann");
                               ("posts", TArray [TRecord [("id", TNum 10)]]);
                               ("roles", TArray [])])]).
Proof. vm_compute. reflexivity. Qed.
